(** * storaged: the per-uid I/O monitor (storaged_uid_monitor.cpp)

    A shallow embedding of [uid_monitor]: the snapshot reader, the delta
    engine, the bounded record store with its two eviction rules, and the
    [dump] query, followed by the properties of the monitor.

    Conventions.
    - [uint64_t], [uint32_t], [int64_t] and [int] values are integers of [Z];
      every place where the C++ arithmetic wraps or converts is written out
      with [wrap64], [wrap32], [to_int64] and [to_int].
    - [std::unordered_map] is a [gmap]; its iteration order, unspecified in
      C++, is the one of [map_to_list].
    - [std::map<uint64_t, uid_records>] is a list of (key, bucket) pairs in
      increasing key order, since [begin()], [lower_bound] and the iteration
      of [dump] all depend on that order.
    - The monitor's members, and the file-scope flag [refresh_uid_names],
      form one record that every operation takes and returns; what an
      operation reads from outside (the stats file, the package manager, the
      clock) is an argument. *)

From stdpp Require Import gmap strings list fin_maps pretty sorting.

Local Open Scope Z_scope.

(** ** Machine integers *)

Definition wrap64 (z : Z) : Z := z mod 2 ^ 64.
Definition wrap32 (z : Z) : Z := z mod 2 ^ 32.
(** Conversion of a 64-bit pattern to [int64_t], and of any integer to [int]. *)
Definition to_int64 (z : Z) : Z := (z + 2 ^ 63) mod 2 ^ 64 - 2 ^ 63.
Definition to_int (z : Z) : Z := (z + 2 ^ 31) mod 2 ^ 32 - 2 ^ 31.

(** ** Two-element arrays indexed by an enum *)

Class Enum2 (I : Type) := second : I → bool.

Definition arr2 (A : Type) : Type := (A * A)%type.

Definition at2 {I} `{Enum2 I} {A} (a : arr2 A) (i : I) : A :=
  if second i then a.2 else a.1.

Definition upd2 {I} `{Enum2 I} {A} (a : arr2 A) (i : I) (f : A → A) : arr2 A :=
  if second i then (a.1, f a.2) else (f a.1, a.2).

(** Modelled from the spec: the three enums of storaged_uid_monitor.h (the
    header is not among the sources) index the 8-cell matrix by {read, write}
    x {foreground, background} x {off-charger, on-charger}; [IO_TYPES],
    [UID_STATS] and [CHARGER_STATS] are their sizes, 2 each. *)
Inductive io_type_t := READ | WRITE.
Inductive uid_stat_t := FOREGROUND | BACKGROUND.
Inductive charger_stat_t := CHARGER_OFF | CHARGER_ON.

Global Instance io_type_enum : Enum2 io_type_t :=
  λ i, match i with READ => false | WRITE => true end.
Global Instance uid_stat_enum : Enum2 uid_stat_t :=
  λ j, match j with FOREGROUND => false | BACKGROUND => true end.
Global Instance charger_stat_enum : Enum2 charger_stat_t :=
  λ k, match k with CHARGER_OFF => false | CHARGER_ON => true end.

Global Instance io_type_eq_dec : EqDecision io_type_t.
Proof. solve_decision. Defined.
Global Instance uid_stat_eq_dec : EqDecision uid_stat_t.
Proof. solve_decision. Defined.
Global Instance charger_stat_eq_dec : EqDecision charger_stat_t.
Proof. solve_decision. Defined.

Definition IO_TYPES : list io_type_t := [READ; WRITE].
Definition UID_STATS : list uid_stat_t := [FOREGROUND; BACKGROUND].
Definition CHARGER_STATS : list charger_stat_t := [CHARGER_OFF; CHARGER_ON].

(** ** Data model *)

(** Modelled from the spec: the structs below are declared in
    storaged_uid_monitor.h; their fields are the ones the source file reads
    and writes.  A record field is a global name here, so [task_info::io] is
    [task_io] and [uid_record::name] is [rec_name]. *)
Record io_stats := {
  rchar : Z;
  wchar : Z;
  read_bytes : Z;
  write_bytes : Z;
  fsync : Z
}.

Definition io_stats_zero : io_stats :=
  {| rchar := 0; wchar := 0; read_bytes := 0; write_bytes := 0; fsync := 0 |}.

Record task_info := {
  comm : string;
  pid : Z;
  task_io : arr2 io_stats
}.

Definition task_info_zero : task_info :=
  {| comm := EmptyString; pid := 0; task_io := (io_stats_zero, io_stats_zero) |}.

Record uid_info := {
  uid : Z;
  name : string;
  io : arr2 io_stats;
  tasks : gmap Z task_info
}.

(** A value-initialised [uid_info], as [operator[]] creates it. *)
Definition uid_info_zero : uid_info :=
  {| uid := 0; name := EmptyString; io := (io_stats_zero, io_stats_zero);
     tasks := ∅ |}.

Record io_usage := { bytes : arr2 (arr2 (arr2 Z)) }.

Definition io_usage_zero : io_usage :=
  {| bytes := (((0, 0), (0, 0)), ((0, 0), (0, 0))) |}.

(** [u.bytes[i][j][k]] *)
Definition cell (u : io_usage) (i : io_type_t) (j : uid_stat_t)
    (k : charger_stat_t) : Z :=
  at2 (at2 (at2 (bytes u) i) j) k.

(** [u.bytes[i][j][k] += d], on [uint64_t] *)
Definition add_cell (u : io_usage) (i : io_type_t) (j : uid_stat_t)
    (k : charger_stat_t) (d : Z) : io_usage :=
  {| bytes := upd2 (bytes u) i (λ a, upd2 a j (λ b, upd2 b k (λ x, wrap64 (x + d)))) |}.

(** [io_usage::is_zero] *)
Definition is_zero (u : io_usage) : bool :=
  forallb (λ i, forallb (λ j, forallb (λ k,
    bool_decide (cell u i j k = 0)) CHARGER_STATS) UID_STATS) IO_TYPES.

Record uid_io_usage := {
  uid_ios : io_usage;
  task_ios : gmap string io_usage
}.

Definition uid_io_usage_zero : uid_io_usage :=
  {| uid_ios := io_usage_zero; task_ios := ∅ |}.

Record uid_record := {
  rec_name : string;
  ios : uid_io_usage
}.

Record uid_records := mk_uid_records {
  start_ts : Z;
  entries : list uid_record
}.

(** ** The ordered record store

    [std::map<uint64_t, uid_records>]: pairs in increasing key order. *)
Module store.

Definition t : Type := list (Z * uid_records).

Definition keys (m : t) : list Z := m.*1.

(** The class invariant of [std::map]: strictly increasing keys. *)
Definition ordered (m : t) : Prop := StronglySorted Z.lt (keys m).

(** [m.lower_bound(k)], as the part of the map from that iterator on. *)
Fixpoint lower_bound (k : Z) (m : t) : t :=
  match m with
  | [] => []
  | b :: rest => if b.1 <? k then lower_bound k rest else m
  end.

(** [m[k] = v] *)
Fixpoint assign (k : Z) (v : uid_records) (m : t) : t :=
  match m with
  | [] => [(k, v)]
  | b :: rest =>
      if k <? b.1 then (k, v) :: m
      else if k =? b.1 then (k, v) :: rest
      else b :: assign k v rest
  end.

(** [m.insert(std::pair(k, v))]: an existing key keeps its value. *)
Fixpoint insert_new (k : Z) (v : uid_records) (m : t) : t :=
  match m with
  | [] => [(k, v)]
  | b :: rest =>
      if k <? b.1 then (k, v) :: m
      else if k =? b.1 then m
      else b :: insert_new k v rest
  end.

End store.

(** [records_size]: the count is an [int]; each [+=] adds a [size_t] and
    converts back. *)
Fixpoint records_size_from (count : Z) (m : store.t) : Z :=
  match m with
  | [] => count
  | b :: rest => records_size_from (to_int (count + Z.of_nat (length (entries b.2)))) rest
  end.

Definition records_size (curr_records : store.t) : Z :=
  records_size_from 0 curr_records.

(** The number of records really held, as a natural number. *)
Fixpoint stored_records (m : store.t) : nat :=
  match m with
  | [] => 0
  | b :: rest => length (entries b.2) + stored_records rest
  end.

Definition MAX_UID_RECORDS_SIZE : Z := 1000 * 48.

(** Modelled from the spec: [DAY_TO_SEC] is a macro of storaged.h; the
    retention window of 5 days is 432000 seconds. *)
Definition DAY_TO_SEC : Z := 86400.

Global Instance io_stats_eq_dec : EqDecision io_stats.
Proof. solve_decision. Defined.
Global Instance task_info_eq_dec : EqDecision task_info.
Proof. solve_decision. Defined.
Global Instance uid_info_eq_dec : EqDecision uid_info.
Proof. solve_decision. Defined.
Global Instance io_usage_eq_dec : EqDecision io_usage.
Proof. solve_decision. Defined.
Global Instance uid_io_usage_eq_dec : EqDecision uid_io_usage.
Proof. solve_decision. Defined.
Global Instance uid_record_eq_dec : EqDecision uid_record.
Proof. solve_decision. Defined.
Global Instance uid_records_eq_dec : EqDecision uid_records.
Proof. solve_decision. Defined.

(** ** What one read of the outside world yields *)

(** A line of the stats file, by what the two parsers make of it.
    [parse_uid_io_stats] writes [u.uid] before it looks at the counters, so a
    uid row rejected for a bad counter has already changed [u.uid]:
    [row_uid_invalid (Some n)]; one rejected earlier has not:
    [row_uid_invalid None]. *)
Inductive stats_row :=
  | row_empty
  | row_uid (n : Z) (counters : arr2 io_stats)
  | row_uid_invalid (seen : option Z)
  | row_task (t : task_info)
  | row_task_invalid.

Record reading := {
  (** [ReadFileToString(UID_IO_STATS_PATH)] split on newlines; [None] when
      the read fails *)
  file : option (list stats_row);
  (** the value found in the uninitialised [u.uid] *)
  stack_uid : Z;
  (** the answer of [getNamesForUids], if it is asked; [None] when the
      service manager, the service or the call fails *)
  names_reply : option (list string)
}.

(** A [double] argument is not computed with: a nonzero [hours] is given by
    the [uint64_t] that [time(NULL) - hours * HOUR_TO_SEC] converts to. *)
Inductive hours_t :=
  | hours_zero
  | hours_from (first_ts : Z).

(** ** The delta engine *)

(** [int64_t delta = current - previous], both [uint64_t] *)
Definition delta (current previous : Z) : Z :=
  to_int64 (wrap64 (current - previous)).

(** [(delta < 0) ? 0 : delta] *)
Definition clamp (d : Z) : Z := if d <? 0 then 0 else d.

(** The four [+=] on [bytes[..][..][charger_stat]]; the source writes them
    out once for the uid and once for each task. *)
Definition add_deltas (charger_stat : charger_stat_t)
    (current previous : arr2 io_stats) (usage : io_usage) : io_usage :=
  let fg_rd_delta :=
    delta (read_bytes (at2 current FOREGROUND)) (read_bytes (at2 previous FOREGROUND)) in
  let bg_rd_delta :=
    delta (read_bytes (at2 current BACKGROUND)) (read_bytes (at2 previous BACKGROUND)) in
  let fg_wr_delta :=
    delta (write_bytes (at2 current FOREGROUND)) (write_bytes (at2 previous FOREGROUND)) in
  let bg_wr_delta :=
    delta (write_bytes (at2 current BACKGROUND)) (write_bytes (at2 previous BACKGROUND)) in
  let usage := add_cell usage READ FOREGROUND charger_stat (clamp fg_rd_delta) in
  let usage := add_cell usage READ BACKGROUND charger_stat (clamp bg_rd_delta) in
  let usage := add_cell usage WRITE FOREGROUND charger_stat (clamp fg_wr_delta) in
  add_cell usage WRITE BACKGROUND charger_stat (clamp bg_wr_delta).

(** One round of the loop over [uid.tasks].  The key is a [uint32_t], read
    into a [pid_t] and converted back by [tasks[pid]]. *)
Definition account_task (charger_stat : charger_stat_t)
    (last_tasks : gmap Z task_info) (task_ios : gmap string io_usage)
    (task_it : Z * task_info) : gmap string io_usage :=
  let task := task_it.2 in
  let pid := to_int task_it.1 in
  let previous := default task_info_zero (last_tasks !! wrap32 pid) in
  let task_usage := default io_usage_zero (task_ios !! comm task) in
  <[comm task := add_deltas charger_stat (task_io task) (task_io previous) task_usage]>
    task_ios.

(** One round of the loop over the new snapshot.  Where the source reads
    [last_uid_io_stats[uid.uid]] and [.tasks[pid]] of an absent key,
    [operator[]] inserts a value-initialised entry and the read sees zeros;
    the insertion itself is lost when the loop ends, the last snapshot being
    assigned anew. *)
Definition account_uid (charger_stat : charger_stat_t)
    (last : gmap Z uid_info) (curr : gmap string uid_io_usage)
    (u : uid_info) : gmap string uid_io_usage :=
  let usage := default uid_io_usage_zero (curr !! name u) in
  let previous := default uid_info_zero (last !! uid u) in
  <[name u :=
      {| uid_ios := add_deltas charger_stat (io u) (io previous) (uid_ios usage);
         task_ios := foldl (account_task charger_stat (tasks previous))
                       (task_ios usage) (map_to_list (tasks u)) |}]> curr.

(** ** The flush *)

(** The body of the loop over [curr_io_stats]: the record of one entry, if
    its uid-level usage is not zero. *)
Definition make_record (p : string * uid_io_usage) : option uid_record :=
  if is_zero (uid_ios p.2) then None
  else Some {| rec_name := p.1;
               ios := {| uid_ios := uid_ios p.2;
                         task_ios := filter (λ p_task, is_zero p_task.2 = false)
                                       (task_ios p.2) |} |}.

(** [while (overflow > 0 && records.size() > 0)], each round erasing
    [records.begin()]; [overflow -= size] is computed on [size_t] and
    converted back to [int]. *)
Fixpoint make_room (overflow : Z) (records : store.t) : store.t :=
  match records with
  | [] => []
  | del_it :: rest =>
      if 0 <? overflow
      then make_room (to_int (wrap64 (overflow - Z.of_nat (length (entries del_it.2))))) rest
      else records
  end.

(** ** The query *)

(** The sum that [dump] compares with the threshold, on [uint64_t]. *)
Definition usage_sum (uid_usage : io_usage) : Z :=
  wrap64 (cell uid_usage READ FOREGROUND CHARGER_ON +
          cell uid_usage READ FOREGROUND CHARGER_OFF +
          cell uid_usage READ BACKGROUND CHARGER_ON +
          cell uid_usage READ BACKGROUND CHARGER_OFF +
          cell uid_usage WRITE FOREGROUND CHARGER_ON +
          cell uid_usage WRITE FOREGROUND CHARGER_OFF +
          cell uid_usage WRITE BACKGROUND CHARGER_ON +
          cell uid_usage WRITE BACKGROUND CHARGER_OFF).

Definition over_threshold (threshold : Z) (rec : uid_record) : bool :=
  threshold <? usage_sum (uid_ios (ios rec)).

(** One round of the loop of [dump] over the stored buckets. *)
Definition dump_bucket (threshold : Z) (dump_records : store.t)
    (it : Z * uid_records) : store.t :=
  let filtered := filter (λ rec, over_threshold threshold rec = true) (entries it.2) in
  match filtered with
  | [] => dump_records
  | _ => store.insert_new it.1 {| start_ts := start_ts it.2; entries := filtered |}
           dump_records
  end.

(** ** The monitor *)
Module uid_monitor.

Record state := {
  (** last dump of the stats file, uid -> uid_info *)
  last_uid_io_stats : gmap Z uid_info;
  (** usage since the last flush, name -> uid_io_usage *)
  curr_io_stats : gmap string uid_io_usage;
  (** end timestamp -> {start timestamp, records} *)
  records : store.t;
  charger_stat : charger_stat_t;
  (** start time of the usage in [curr_io_stats] *)
  start_ts : Z;
  (** the file-scope [static bool refresh_uid_names] *)
  refresh_uid_names : bool
}.

(** A monitor as its constructor leaves it, before [init]. *)
Definition fresh (stat : charger_stat_t) (ts : Z) : state :=
  {| last_uid_io_stats := ∅; curr_io_stats := ∅; records := [];
     charger_stat := stat; start_ts := ts; refresh_uid_names := false |}.

(** *** Reading a snapshot *)

(** The locals of [get_uid_io_stats_locked] that live across rows.  The
    vector [uids] is a [vector<int>]: it holds each [u.uid], a [uint32_t],
    converted to [int].  The vector [uid_names] holds, for each element of
    [uids], a pointer to the name stored in [uid_io_stats] under that uid;
    it is kept as the list of these keys and read through the map. *)
Record scan := {
  u_uid : Z;
  uid_io_stats : gmap Z uid_info;
  uids : list Z;
  uid_names : list Z;
  refresh : bool
}.

Definition set_name (s : string) (u : uid_info) : uid_info :=
  {| uid := uid u; name := s; io := io u; tasks := tasks u |}.

Definition add_task (key : Z) (t : task_info) (u : uid_info) : uid_info :=
  {| uid := uid u; name := name u; io := io u; tasks := <[key := t]> (tasks u) |}.

(** The body of the loop over the lines of the file. *)
Definition scan_row (last : gmap Z uid_info) (s : scan) (r : stats_row) : scan :=
  match r with
  | row_empty => s
  | row_uid n counters =>
      let known := last !! n in
      {| u_uid := n;
         uid_io_stats :=
           <[n := {| uid := n;
                     name := match known with
                             | Some l => name l
                             | None => pretty n
                             end;
                     io := counters;
                     tasks := ∅ |}]> (uid_io_stats s);
         uids := uids s ++ [to_int n];
         uid_names := uid_names s ++ [n];
         refresh := match known with
                    | Some _ => refresh s
                    | None => true
                    end |}
  | row_uid_invalid seen =>
      {| u_uid := default (u_uid s) seen;
         uid_io_stats := uid_io_stats s;
         uids := uids s;
         uid_names := uid_names s;
         refresh := refresh s |}
  | row_task t =>
      let owner := default uid_info_zero (uid_io_stats s !! u_uid s) in
      {| u_uid := u_uid s;
         uid_io_stats := <[u_uid s := add_task (wrap32 (pid t)) t owner]> (uid_io_stats s);
         uids := uids s;
         uid_names := uid_names s;
         refresh := refresh s |}
  | row_task_invalid => s
  end.

(** The assignment loop of [get_uid_names], for an answer [names]:
    [*uid_names[i] = names[i]] when [names[i]] is not empty, [i] running
    over [uid_names].  The package manager answers with one name per uid
    asked; the loop is taken over the pairs that exist. *)
Definition store_names (stats : gmap Z uid_info) (uid_names : list Z)
    (names : list string) : gmap Z uid_info :=
  foldl (λ m p, if decide (p.2 = EmptyString) then m
                else alter (set_name p.2) p.1 m)
        stats (zip uid_names names).

Record snapshot := {
  stats : gmap Z uid_info;
  (** the flag as the call leaves it *)
  refresh_after : bool;
  (** the uids sent to the package manager, as [int], if it was called *)
  asked : option (list Z)
}.

Definition get_uid_io_stats_locked (r : reading) (st : state) : snapshot :=
  match file r with
  | None => {| stats := ∅; refresh_after := refresh_uid_names st; asked := None |}
  | Some io_stats =>
      let s := foldl (scan_row (last_uid_io_stats st))
                 {| u_uid := stack_uid r; uid_io_stats := ∅; uids := [];
                    uid_names := []; refresh := refresh_uid_names st |} io_stats in
      if bool_decide (uids s ≠ []) && refresh s then
        match names_reply r with
        | None =>
            {| stats := uid_io_stats s; refresh_after := refresh s;
               asked := Some (uids s) |}
        | Some names =>
            {| stats := store_names (uid_io_stats s) (uid_names s) names;
               refresh_after := false;
               asked := Some (uids s) |}
        end
      else {| stats := uid_io_stats s; refresh_after := refresh s; asked := None |}
  end.

(** *** The delta step *)

Definition update_curr_io_stats_locked (r : reading) (st : state) : state :=
  let snap := get_uid_io_stats_locked r st in
  if decide (stats snap = ∅) then
    {| last_uid_io_stats := last_uid_io_stats st;
       curr_io_stats := curr_io_stats st;
       records := records st;
       charger_stat := charger_stat st;
       start_ts := start_ts st;
       refresh_uid_names := refresh_after snap |}
  else
    {| last_uid_io_stats := stats snap;
       curr_io_stats :=
         foldl (account_uid (charger_stat st) (last_uid_io_stats st))
           (curr_io_stats st) (map_to_list (stats snap)).*2;
       records := records st;
       charger_stat := charger_stat st;
       start_ts := start_ts st;
       refresh_uid_names := refresh_after snap |}.

(** *** The flush *)

(** Step 1: [records.erase(records.begin(), records.lower_bound(..))]; the
    guard keeps the subtraction from wrapping. *)
Definition prune (curr_ts : Z) (records : store.t) : store.t :=
  if 5 * DAY_TO_SEC <? curr_ts
  then store.lower_bound (curr_ts - 5 * DAY_TO_SEC) records
  else records.

(** Step 2: the entries of [new_records]. *)
Definition new_entries (curr : gmap string uid_io_usage) : list uid_record :=
  omap make_record (map_to_list curr).

(** Step 3: the eviction and the insertion; [int + size_t - int] is
    computed on [size_t] and converted to [int]. *)
Definition insert_records (curr_ts : Z) (new_records : uid_records)
    (records : store.t) : store.t :=
  let overflow :=
    to_int (wrap64 (records_size records +
                    Z.of_nat (length (entries new_records)) -
                    MAX_UID_RECORDS_SIZE)) in
  store.assign curr_ts new_records (make_room overflow records).

Definition add_records_locked (curr_ts : Z) (st : state) : state :=
  let pruned := prune curr_ts (records st) in
  let new_records :=
    mk_uid_records (start_ts st) (new_entries (curr_io_stats st)) in
  {| last_uid_io_stats := last_uid_io_stats st;
     curr_io_stats := ∅;
     records := match entries new_records with
                | [] => pruned
                | _ => insert_records curr_ts new_records pruned
                end;
     charger_stat := charger_stat st;
     start_ts := curr_ts;
     refresh_uid_names := refresh_uid_names st |}.

(** *** The public operations, one caller at a time *)

(** [now] is what [time(NULL)] returns. *)
Definition report (r : reading) (now : Z) (st : state) : state :=
  add_records_locked now (update_curr_io_stats_locked r st).

Definition set_charger_state (stat : charger_stat_t) (r : reading)
    (st : state) : state :=
  if decide (charger_stat st = stat) then st
  else
    let st' := update_curr_io_stats_locked r st in
    {| last_uid_io_stats := last_uid_io_stats st';
       curr_io_stats := curr_io_stats st';
       records := records st';
       charger_stat := stat;
       start_ts := start_ts st';
       refresh_uid_names := refresh_uid_names st' |}.

Definition init (stat : charger_stat_t) (r : reading) (now : Z)
    (st : state) : state :=
  let snap := get_uid_io_stats_locked r st in
  {| last_uid_io_stats := stats snap;
     curr_io_stats := curr_io_stats st;
     records := records st;
     charger_stat := stat;
     start_ts := now;
     refresh_uid_names := refresh_after snap |}.

(** The three assignments of [init], one at a time, and
    [get_uid_io_stats_locked] as a step on the members: the flag is the only
    member it writes, and the snapshot is handed to the caller. *)
Definition set_charger_stat (stat : charger_stat_t) (st : state) : state :=
  {| last_uid_io_stats := last_uid_io_stats st;
     curr_io_stats := curr_io_stats st;
     records := records st;
     charger_stat := stat;
     start_ts := start_ts st;
     refresh_uid_names := refresh_uid_names st |}.

Definition set_start_ts (now : Z) (st : state) : state :=
  {| last_uid_io_stats := last_uid_io_stats st;
     curr_io_stats := curr_io_stats st;
     records := records st;
     charger_stat := charger_stat st;
     start_ts := now;
     refresh_uid_names := refresh_uid_names st |}.

Definition set_last_uid_io_stats (uid_io_stats : gmap Z uid_info) (st : state) : state :=
  {| last_uid_io_stats := uid_io_stats;
     curr_io_stats := curr_io_stats st;
     records := records st;
     charger_stat := charger_stat st;
     start_ts := start_ts st;
     refresh_uid_names := refresh_uid_names st |}.

Definition read_uid_io_stats (r : reading) (st : state) : gmap Z uid_info * state :=
  let snap := get_uid_io_stats_locked r st in
  (stats snap,
   {| last_uid_io_stats := last_uid_io_stats st;
      curr_io_stats := curr_io_stats st;
      records := records st;
      charger_stat := charger_stat st;
      start_ts := start_ts st;
      refresh_uid_names := refresh_after snap |}).

(** The part of [dump] after the lock is taken. *)
Definition dump_locked (hours : hours_t) (threshold : Z) (st : state) : store.t :=
  let first_ts := match hours with
                  | hours_zero => 0
                  | hours_from ts => ts
                  end in
  foldl (dump_bucket threshold) [] (store.lower_bound first_ts (records st)).

Definition dump (hours : hours_t) (threshold : Z) (force_report : bool)
    (r : reading) (now : Z) (st : state) : store.t * state :=
  let st' := if force_report then report r now st else st in
  (dump_locked hours threshold st', st').

End uid_monitor.

(** ** Callers on several threads

    Modelled from the spec: [lock_t] is declared in storaged.h, which is not
    among the sources; it is the scoped guard of the single exclusive lock:
    constructing it waits on the semaphore [um_lock], which the constructor
    of [uid_monitor] initialises to 1, and the end of the enclosing function
    posts it.

    A public operation is the list of its steps in program order; a machine
    runs the steps of several callers in the order a schedule gives. *)
Module threads.

Inductive instr :=
  | sem_wait
  | sem_post
  (** a step on the members of the monitor *)
  | member (f : uid_monitor.state → uid_monitor.state)
  (** the value the call returns, computed from the members *)
  | answer (g : uid_monitor.state → store.t)
  (** a step on the members that hands a snapshot to the caller, which
      keeps it in a temporary *)
  | fetch (g : uid_monitor.state → gmap Z uid_info * uid_monitor.state)
  (** a step on the members that uses the temporary of the caller *)
  | assign (h : gmap Z uid_info → uid_monitor.state → uid_monitor.state).

Definition report (r : reading) (now : Z) : list instr :=
  [ sem_wait;
    member (uid_monitor.update_curr_io_stats_locked r);
    member (uid_monitor.add_records_locked now);
    sem_post ].

(** [report()] is called before the guard of [dump] is constructed. *)
Definition dump (hours : hours_t) (threshold : Z) (force_report : bool)
    (r : reading) (now : Z) : list instr :=
  (if force_report then report r now else []) ++
  [ sem_wait;
    answer (uid_monitor.dump_locked hours threshold);
    sem_post ].

Definition set_charger_state (stat : charger_stat_t) (r : reading) : list instr :=
  [ sem_wait;
    member (uid_monitor.set_charger_state stat r);
    sem_post ].

(** The guard of [get_uid_io_stats] ends when the function returns its
    snapshot. *)
Definition get_uid_io_stats (r : reading) : list instr :=
  [ sem_wait;
    fetch (uid_monitor.read_uid_io_stats r);
    sem_post ].

(** [init] constructs no guard of its own: it assigns [charger_stat] and
    [start_ts], calls [get_uid_io_stats()], and assigns what the call
    returned to [last_uid_io_stats]. *)
Definition init (stat : charger_stat_t) (r : reading) (now : Z) : list instr :=
  [ member (uid_monitor.set_charger_stat stat);
    member (uid_monitor.set_start_ts now) ] ++
  get_uid_io_stats r ++
  [ assign uid_monitor.set_last_uid_io_stats ].

(** The operations of the monitor that a caller can run. *)
Inductive operation :=
  | op_report (r : reading) (now : Z)
  | op_dump (hours : hours_t) (threshold : Z) (force_report : bool)
      (r : reading) (now : Z)
  | op_set_charger_state (stat : charger_stat_t) (r : reading)
  | op_get_uid_io_stats (r : reading)
  | op_init (stat : charger_stat_t) (r : reading) (now : Z).

Definition program (o : operation) : list instr :=
  match o with
  | op_report r now => report r now
  | op_dump hours threshold force_report r now =>
      dump hours threshold force_report r now
  | op_set_charger_state stat r => set_charger_state stat r
  | op_get_uid_io_stats r => get_uid_io_stats r
  | op_init stat r now => init stat r now
  end.

Record machine := {
  um_lock : Z;
  monitor : uid_monitor.state;
  (** what each caller has still to run *)
  pool : list (list instr);
  (** the values returned so far, with the caller they went to *)
  results : list (nat * store.t);
  (** the snapshot that [get_uid_io_stats()] returned to a caller *)
  returned : gmap nat (gmap Z uid_info)
}.

Definition boot (st : uid_monitor.state) (callers : list (list instr)) : machine :=
  {| um_lock := 1; monitor := st; pool := callers; results := [];
     returned := ∅ |}.

(** Caller [t] runs its next step; [None] if it has none or must wait. *)
Definition next (t : nat) (m : machine) : option machine :=
  match pool m !! t with
  | Some (i :: rest) =>
      let pool' := <[t := rest]> (pool m) in
      match i with
      | sem_wait =>
          if 0 <? um_lock m
          then Some {| um_lock := um_lock m - 1; monitor := monitor m;
                       pool := pool'; results := results m;
                       returned := returned m |}
          else None
      | sem_post =>
          Some {| um_lock := um_lock m + 1; monitor := monitor m;
                  pool := pool'; results := results m;
                  returned := returned m |}
      | member f =>
          Some {| um_lock := um_lock m; monitor := f (monitor m);
                  pool := pool'; results := results m;
                  returned := returned m |}
      | answer g =>
          Some {| um_lock := um_lock m; monitor := monitor m;
                  pool := pool'; results := results m ++ [(t, g (monitor m))];
                  returned := returned m |}
      | fetch g =>
          Some {| um_lock := um_lock m; monitor := (g (monitor m)).2;
                  pool := pool'; results := results m;
                  returned := <[t := (g (monitor m)).1]> (returned m) |}
      | assign h =>
          Some {| um_lock := um_lock m;
                  monitor := h (default ∅ (returned m !! t)) (monitor m);
                  pool := pool'; results := results m;
                  returned := returned m |}
      end
  | _ => None
  end.

Fixpoint exec (schedule : list nat) (m : machine) : option machine :=
  match schedule with
  | [] => Some m
  | t :: rest =>
      match next t m with
      | Some m' => exec rest m'
      | None => None
      end
  end.

(** The value of the semaphore before the first step and after each step
    of a schedule, up to the first step that cannot run. *)
Fixpoint lock_trace (schedule : list nat) (m : machine) : list Z :=
  um_lock m ::
  match schedule with
  | [] => []
  | t :: rest =>
      match next t m with
      | Some m' => lock_trace rest m'
      | None => []
      end
  end.

(** Whether a caller holds the lock, read off what it has still to run: its
    next operation on the semaphore is a post. *)
Fixpoint inside (code : list instr) : bool :=
  match code with
  | [] => false
  | sem_wait :: _ => false
  | sem_post :: _ => true
  | _ :: rest => inside rest
  end.

(** Code that waits and posts in turn and ends with the lock released;
    [held] tells whether the lock is held where the code starts. *)
Fixpoint balanced (held : bool) (code : list instr) : bool :=
  match code with
  | [] => negb held
  | sem_wait :: rest => negb held && balanced true rest
  | sem_post :: rest => held && balanced false rest
  | _ :: rest => balanced held rest
  end.

(** Code that waits and posts in turn, touches the members only in between,
    and ends with the lock released; [held] tells whether the lock is held
    where the code starts. *)
Fixpoint well_locked (held : bool) (code : list instr) : bool :=
  match code with
  | [] => negb held
  | sem_wait :: rest => negb held && well_locked true rest
  | sem_post :: rest => held && well_locked false rest
  | _ :: rest => held && well_locked held rest
  end.

(** The number of callers that hold the lock. *)
Fixpoint holders (callers : list (list instr)) : nat :=
  match callers with
  | [] => 0
  | code :: rest => (if inside code then 1 else 0) + holders rest
  end.

(** What every schedule keeps true of a machine whose callers all touch the
    members inside the lock only. *)
Definition exclusive (m : machine) : Prop :=
  Forall (λ code, well_locked (inside code) code = true) (pool m) ∧
  0 ≤ um_lock m ∧
  um_lock m + Z.of_nat (holders (pool m)) = 1.

(** What every schedule keeps true of the semaphore, whatever the callers
    do to the members. *)
Definition counted (m : machine) : Prop :=
  Forall (λ code, balanced (inside code) code = true) (pool m) ∧
  0 ≤ um_lock m ∧
  um_lock m + Z.of_nat (holders (pool m)) = 1.

(** No step of another caller falls between two steps of caller [t]. *)
Definition uninterrupted (t : nat) (schedule : list nat) : Prop :=
  ∀ (i j k : nat) (t' : nat),
    (i < j)%nat → (j < k)%nat →
    schedule !! i = Some t → schedule !! k = Some t →
    schedule !! j = Some t' → t' = t.

End threads.

(** ** Names used by the statements *)

(** The counter of an [io_stats] that feeds direction [i]: the delta engine
    reads [read_bytes] and [write_bytes] only. *)
Definition counter (i : io_type_t) (s : io_stats) : Z :=
  match i with
  | READ => read_bytes s
  | WRITE => write_bytes s
  end.

(** The clamped delta of direction [i] and priority [j] between two rows. *)
Definition clamped_delta (i : io_type_t) (j : uid_stat_t)
    (current previous : arr2 io_stats) : Z :=
  clamp (delta (counter i (at2 current j)) (counter i (at2 previous j))).

(** The clamped delta of one task, against the task the last snapshot holds
    under the same pid. *)
Definition task_delta (i : io_type_t) (j : uid_stat_t)
    (last_tasks : gmap Z task_info) (task_it : Z * task_info) : Z :=
  clamped_delta i j (task_io task_it.2)
    (task_io (default task_info_zero (last_tasks !! wrap32 (to_int task_it.1)))).

Definition total {A} (f : A → Z) (l : list A) : Z :=
  foldr (λ x s, f x + s) 0 l.

(** The sum of the eight cells as a mathematical integer. *)
Definition cells_total (u : io_usage) : Z :=
  total (λ i, total (λ j, total (λ k, cell u i j k) CHARGER_STATS) UID_STATS) IO_TYPES.

Definition cells_nonneg (u : io_usage) : Prop :=
  ∀ i j k, 0 ≤ cell u i j k.

(** The uids of the well-formed uid rows of a file, in file order. *)
Definition uid_rows (rows : list stats_row) : list Z :=
  omap (λ r, match r with row_uid n _ => Some n | _ => None end) rows.

(** The calls that change the monitor, and a history of them. *)
Inductive call :=
  | call_report (r : reading) (now : Z)
  | call_set_charger_state (stat : charger_stat_t) (r : reading)
  | call_dump (hours : hours_t) (threshold : Z) (force_report : bool)
      (r : reading) (now : Z).

Definition step (st : uid_monitor.state) (c : call) : uid_monitor.state :=
  match c with
  | call_report r now => uid_monitor.report r now st
  | call_set_charger_state stat r => uid_monitor.set_charger_state stat r st
  | call_dump hours threshold force_report r now =>
      (uid_monitor.dump hours threshold force_report r now st).2
  end.

Definition run (st : uid_monitor.state) (calls : list call) : uid_monitor.state :=
  foldl step st calls.

(** The number of records a flush would put in its candidate bucket, after
    the delta step on reading [r]. *)
Definition candidate_size (r : reading) (st : uid_monitor.state) : Z :=
  Z.of_nat (length (uid_monitor.new_entries
    (uid_monitor.curr_io_stats (uid_monitor.update_curr_io_stats_locked r st)))).

(** Every flush of the history has a candidate that fits the cap alone. *)
Fixpoint flushes_fit (st : uid_monitor.state) (calls : list call) : Prop :=
  match calls with
  | [] => True
  | c :: rest =>
      match c with
      | call_report r _ | call_dump _ _ true r _ =>
          candidate_size r st ≤ MAX_UID_RECORDS_SIZE
      | _ => True
      end ∧ flushes_fit (step st c) rest
  end.

(** What [dump] returns for one stored bucket, if anything. *)
Definition dump_one (threshold : Z) (it : Z * uid_records) : option (Z * uid_records) :=
  match filter (λ rec, over_threshold threshold rec = true) (entries it.2) with
  | [] => None
  | filtered => Some (it.1, {| start_ts := start_ts it.2; entries := filtered |})
  end.

(** The name a uid row starts with: the one of the last snapshot, or the
    uid in decimal. *)
Definition carried_name (last : gmap Z uid_info) (n : Z) : string :=
  match last !! n with
  | Some l => name l
  | None => pretty n
  end.

(** The names that an answer has for uid [n] and that are not empty:
    [names[i]] for each position [i] at which the request holds [n], in the
    order of the request. *)
Definition own_answers (uid_names : list Z) (names : list string) (n : Z) :
    list string :=
  (filter (λ p, p.1 = n ∧ p.2 ≠ EmptyString) (zip uid_names names)).*2.

(** The one of them that the loop of [get_uid_names] assigns last. *)
Definition own_answer (uid_names : list Z) (names : list string) (n : Z) :
    option string :=
  last (own_answers uid_names names n).

(** Every uid sent for lookup has an entry, under the name it started
    with. *)
Definition scan_named (last : gmap Z uid_info) (s : uid_monitor.scan) : Prop :=
  ∀ n, n ∈ uid_monitor.uid_names s →
    ∃ info, uid_monitor.uid_io_stats s !! n = Some info ∧
            name info = carried_name last n.

(** Whether a reading of [rows] calls the package manager. *)
Definition looks_up (st : uid_monitor.state) (rows : list stats_row) : bool :=
  bool_decide (uid_rows rows ≠ []) &&
  (uid_monitor.refresh_uid_names st ||
   existsb (λ n, bool_decide (uid_monitor.last_uid_io_stats st !! n = None))
     (uid_rows rows)).

(** ** Concrete readings and states *)
Module sample.

Definition counters (rd wr : Z) : io_stats :=
  {| rchar := 0; wchar := 0; read_bytes := rd; write_bytes := wr; fsync := 0 |}.

(** A uid row with the given foreground and background byte counters. *)
Definition uid_line (n rd_fg wr_fg rd_bg wr_bg : Z) : stats_row :=
  row_uid n (counters rd_fg wr_fg, counters rd_bg wr_bg).

Definition task_line (c : string) (p rd_fg wr_fg : Z) : stats_row :=
  row_task {| comm := c; pid := p;
              task_io := (counters rd_fg wr_fg, counters 0 0) |}.

Definition read_of (rows : list stats_row) (names : option (list string)) : reading :=
  {| file := Some rows; stack_uid := 0; names_reply := names |}.

Definition read_failed : reading :=
  {| file := None; stack_uid := 0; names_reply := None |}.

(** Uid 1000 having read [rd] bytes in the foreground so far. *)
Definition grown (rd : Z) : reading :=
  read_of [uid_line 1000 rd 0 0 0] None.

(** A monitor initialised on-charger at time 10 while the stats file
    cannot be read. *)
Definition cold : uid_monitor.state :=
  uid_monitor.init CHARGER_ON read_failed 10 (uid_monitor.fresh CHARGER_OFF 0).

(** A monitor initialised on-charger at time 10, uid 1000 having read 100
    bytes in the foreground; the package manager does not answer. *)
Definition booted : uid_monitor.state :=
  uid_monitor.init CHARGER_ON (grown 100) 10 (uid_monitor.fresh CHARGER_OFF 0).

(** The same, the package manager naming uid 1000 "com.a". *)
Definition named : uid_monitor.state :=
  uid_monitor.init CHARGER_ON
    (read_of [uid_line 1000 100 0 0 0] (Some ["com.a"%string])) 10
    (uid_monitor.fresh CHARGER_OFF 0).

(** [booted] after the charger was unplugged, uid 1000 having read 50 more
    bytes: the accumulator holds them. *)
Definition unplugged : uid_monitor.state :=
  uid_monitor.set_charger_state CHARGER_OFF (grown 150) booted.

(** A monitor whose last snapshot has uid 1000 at the top of the 64-bit
    range. *)
Definition saturated : uid_monitor.state :=
  uid_monitor.init CHARGER_ON
    (read_of [uid_line 1000 (2 ^ 64 - 1) 0 0 0] None) 10
    (uid_monitor.fresh CHARGER_OFF 0).

(** A reading in which uid 1000 is back at 0. *)
Definition wrapped : reading := read_of [uid_line 1000 0 0 0 0] None.

(** A reading whose four counters of uid 1000 add up to 2^64. *)
Definition huge : reading :=
  read_of [uid_line 1000 (2 ^ 63 - 1) (2 ^ 63 - 1) 1 1] None.

(** Two uids that the package manager gives the same name. *)
Definition twins : reading :=
  read_of [uid_line 10 5 0 0 0; uid_line 20 7 0 0 0]
    (Some ["shared"%string; "shared"%string]).

(** Uid 1000 again and a new uid 2000; the package manager answers for
    both. *)
Definition newcomer : reading :=
  read_of [uid_line 1000 100 0 0 0; uid_line 2000 1 0 0 0]
    (Some ["com.b"%string; "com.c"%string]).

Definition one_cell (d : Z) : io_usage :=
  add_cell io_usage_zero READ FOREGROUND CHARGER_ON d.

Definition one_record (n : string) (d : Z) : uid_record :=
  {| rec_name := n; ios := {| uid_ios := one_cell d; task_ios := ∅ |} |}.

Definition sh5 : task_info :=
  {| comm := "sh"; pid := 5; task_io := (counters 7 0, counters 0 0) |}.

Definition sh6 : task_info :=
  {| comm := "sh"; pid := 6; task_io := (counters 3 0, counters 0 0) |}.

(** Uid 1000 with two tasks named "sh", pids 5 and 6. *)
Definition two_tasks : uid_info :=
  {| uid := 1000; name := "1000";
     io := (counters 10 0, counters 0 4);
     tasks := {[ 5 := sh5; 6 := sh6 ]} |}.

(** [booted] after a report at time 20, uid 1000 having read 50 more
    bytes. *)
Definition reported : uid_monitor.state :=
  uid_monitor.report (grown 150) 20 booted.

(** A report, a change of charger state and a query that forces a
    report. *)
Definition history : list call :=
  [ call_report (grown 150) 20;
    call_set_charger_state CHARGER_OFF (grown 160);
    call_dump hours_zero 0 true (grown 175) 30 ].

Definition idle_usage : uid_io_usage :=
  {| uid_ios := io_usage_zero; task_ios := {[ "sh"%string := one_cell 9 ]} |}.

(** A last snapshot in which uid 1000 had read 30 bytes in the
    foreground. *)
Definition earlier : gmap Z uid_info :=
  {[ 1000 := {| uid := 1000; name := "1000";
                io := (counters 30 0, counters 0 0); tasks := ∅ |} ]}.

(** A monitor with two stored buckets and an accumulator holding an entry
    without uid-level usage but with task usage, and an entry with both. *)
Definition stocked : uid_monitor.state :=
  {| uid_monitor.last_uid_io_stats := ∅;
     uid_monitor.curr_io_stats :=
       {[ "idle"%string := idle_usage;
          "busy"%string :=
            {| uid_ios := one_cell 4;
               task_ios := {[ "sh"%string := one_cell 4;
                              "cat"%string := io_usage_zero ]} |} ]};
     uid_monitor.records :=
       [ (100, mk_uid_records 40 [one_record "a" 1]);
         (450000, mk_uid_records 100 [one_record "a" 2; one_record "b" 3]) ];
     uid_monitor.charger_stat := CHARGER_ON;
     uid_monitor.start_ts := 450000;
     uid_monitor.refresh_uid_names := false |}.

(** Uids 0 to [n - 1], each having read one byte in the foreground; the
    package manager does not answer. *)
Definition crowd (n : Z) : reading :=
  read_of ((λ i, uid_line i 1 0 0 0) <$> seqZ 0 n) None.

End sample.

(** ** Names used by the further properties *)

(** What a record of the store looks like: it has uid-level usage, and each
    task it lists has usage. *)
Definition record_wf (rec : uid_record) : Prop :=
  is_zero (uid_ios (ios rec)) = false ∧
  ∀ c t, task_ios (ios rec) !! c = Some t → is_zero t = false.

(** What a bucket of the store looks like: it is not empty and no two of its
    records have the same name. *)
Definition bucket_wf (b : uid_records) : Prop :=
  entries b ≠ [] ∧ NoDup (rec_name <$> entries b) ∧ Forall record_wf (entries b).

Definition store_wf (m : store.t) : Prop :=
  Forall (λ kb, bucket_wf kb.2) m.

(** The rows that leave [u.uid] as it is. *)
Definition keeps_uid (r : stats_row) : Prop :=
  match r with
  | row_uid _ _ | row_uid_invalid (Some _) => False
  | _ => True
  end.

(** The task map that the task rows of [rows] build, pid by pid, from
    [tasks0]. *)
Definition attached (tasks0 : gmap Z task_info) (rows : list stats_row) :
    gmap Z task_info :=
  foldl (λ m r, match r with
                | row_task t => <[wrap32 (pid t) := t]> m
                | _ => m
                end) tasks0 rows.

(** The lower end of the window of [dump]. *)
Definition first_ts (hours : hours_t) : Z :=
  match hours with
  | hours_zero => 0
  | hours_from ts => ts
  end.

(** A machine whose callers have all returned. *)
Definition finished (m : threads.machine) : Prop :=
  Forall (λ code, code = []) (threads.pool m).

(** ** More concrete readings and states *)
Module sample_more.

(** [sample.stocked] with an accumulator that holds task usage only. *)
Definition idle_only : uid_monitor.state :=
  {| uid_monitor.last_uid_io_stats := ∅;
     uid_monitor.curr_io_stats := {[ "idle"%string := sample.idle_usage ]};
     uid_monitor.records := uid_monitor.records sample.stocked;
     uid_monitor.charger_stat := CHARGER_ON;
     uid_monitor.start_ts := 450000;
     uid_monitor.refresh_uid_names := false |}.

(** Uid 1000, asked for and answered with an empty name. *)
Definition unanswered : reading :=
  sample.read_of [sample.uid_line 1000 100 0 0 0] (Some [EmptyString]).

(** Uid 1000 twice, with a task after each row. *)
Definition repeated : reading :=
  sample.read_of
    [ sample.uid_line 1000 1 0 0 0; sample.task_line "a" 5 1 0;
      sample.uid_line 1000 2 0 0 0; sample.task_line "sh" 6 3 0 ]
    None.

(** A bucket of one record. *)
Definition small_bucket : uid_records :=
  mk_uid_records 450000 [sample.one_record "c" 7].

(** A forced dump and a report, each on a thread of its own. *)
Definition two_callers : list (list threads.instr) :=
  [ threads.dump hours_zero 0 true (sample.grown 150) 20;
    threads.report (sample.grown 175) 30 ].

(** A report and an [init], to run beside a forced dump. *)
Definition two_others : list threads.operation :=
  [ threads.op_report (sample.grown 175) 30;
    threads.op_init CHARGER_OFF (sample.grown 160) 25 ].

(** Caller 0 flushes, caller 2 assigning [charger_stat] meanwhile; then
    caller 1 takes the lock and runs its delta step, caller 2 assigning
    [start_ts] meanwhile. *)
Definition crossing : list nat := [0; 0; 2; 0; 0; 1; 2; 1]%nat.

End sample_more.

(** Goals that a concrete state decides by evaluation. *)
Ltac evaluate :=
  vm_compute;
  first [ reflexivity
        | let H := fresh in intros H; discriminate H ].

(** ** Machine integers: facts *)

Lemma to_int_small z : - 2 ^ 31 ≤ z < 2 ^ 31 → to_int z = z.
Proof. intros Hz. unfold to_int. rewrite Z.mod_small; lia. Qed.

Lemma to_int_wrap64 z : to_int (wrap64 z) = to_int z.
Proof.
  unfold to_int, wrap64. f_equal.
  rewrite (Z.mod_eq z (2 ^ 64)) by lia.
  replace (z - 2 ^ 64 * (z / 2 ^ 64) + 2 ^ 31)
    with (z + 2 ^ 31 + (- 2 ^ 32 * (z / 2 ^ 64)) * 2 ^ 32) by lia.
  apply Z.mod_add. lia.
Qed.

Lemma wrap64_small z : 0 ≤ z < 2 ^ 64 → wrap64 z = z.
Proof. intros. unfold wrap64. rewrite Z.mod_small; lia. Qed.

Lemma wrap64_add_l a b : wrap64 (wrap64 a + b) = wrap64 (a + b).
Proof. unfold wrap64. apply Zplus_mod_idemp_l. Qed.

Lemma wrap64_range z : 0 ≤ wrap64 z < 2 ^ 64.
Proof. unfold wrap64. apply Z.mod_pos_bound. lia. Qed.

Lemma wrap64_le z : 0 ≤ z → wrap64 z ≤ z.
Proof. intros. unfold wrap64. apply Z.mod_le; lia. Qed.

(** A counter that went down by at most 2^63 has a negative delta. *)
Lemma clamp_delta_down c p :
  0 ≤ c → c < p → p < 2 ^ 64 → p - c ≤ 2 ^ 63 → clamp (delta c p) = 0.
Proof.
  intros Hc Hcp Hp Hd. unfold clamp, delta, to_int64, wrap64.
  assert ((c - p) mod 2 ^ 64 = c - p + 2 ^ 64) as ->.
  { symmetry. apply (Z.mod_unique _ _ (-1)); lia. }
  destruct (decide (p - c = 2 ^ 63)) as [Heq|Hne].
  - replace (c - p + 2 ^ 64 + 2 ^ 63) with (2 ^ 64) by lia.
    rewrite Z.mod_same by lia. reflexivity.
  - assert ((c - p + 2 ^ 64 + 2 ^ 63) mod 2 ^ 64 = c - p + 2 ^ 63) as ->.
    { symmetry. apply (Z.mod_unique _ _ 1); lia. }
    case_match eqn:Hlt; [done|]. apply Z.ltb_ge in Hlt. lia.
Qed.

(** A counter that went up by less than 2^63 has its difference as delta. *)
Lemma clamp_delta_up c p :
  0 ≤ p → p ≤ c → c < 2 ^ 64 → c - p < 2 ^ 63 → clamp (delta c p) = c - p.
Proof.
  intros Hp Hpc Hc Hd. unfold clamp, delta, to_int64, wrap64.
  rewrite (Z.mod_small (c - p)) by lia.
  rewrite Z.mod_small by lia.
  case_match eqn:Hlt; [|lia]. apply Z.ltb_lt in Hlt. lia.
Qed.

Lemma clamp_nonneg d : 0 ≤ clamp d.
Proof. unfold clamp. case_match eqn:Hlt; [done|]. apply Z.ltb_ge in Hlt. lia. Qed.

(** ** The cells of a usage matrix *)

Lemma cell_add_cell u i j k d i' j' k' :
  cell (add_cell u i j k d) i' j' k' =
    if decide (i' = i ∧ j' = j ∧ k' = k)
    then wrap64 (cell u i j k + d) else cell u i' j' k'.
Proof.
  destruct u as [[[[a0 a1] [a2 a3]] [[a4 a5] [a6 a7]]]].
  destruct i, j, k, i', j', k'; case_decide as Hc; try reflexivity;
    first [ by destruct Hc as (? & ? & ?) | by exfalso; apply Hc ].
Qed.

Lemma cell_add_cell_eq u i j k d :
  cell (add_cell u i j k d) i j k = wrap64 (cell u i j k + d).
Proof. rewrite cell_add_cell. case_decide as Hc; [done|]. by exfalso; apply Hc. Qed.

Lemma cell_add_cell_ne u i j k d i' j' k' :
  ¬ (i' = i ∧ j' = j ∧ k' = k) →
  cell (add_cell u i j k d) i' j' k' = cell u i' j' k'.
Proof. intros Hne. rewrite cell_add_cell. by case_decide. Qed.

(** [add_deltas] adds, to each cell of the current charger state, the
    clamped delta of its direction and priority, and touches no other cell. *)
Lemma cell_add_deltas k current previous usage i j k' :
  cell (add_deltas k current previous usage) i j k' =
    if decide (k' = k)
    then wrap64 (cell usage i j k + clamped_delta i j current previous)
    else cell usage i j k'.
Proof.
  unfold add_deltas, clamped_delta.
  destruct (decide (k' = k)) as [->|Hk].
  - destruct i, j;
      repeat first [ rewrite cell_add_cell_eq
                   | rewrite cell_add_cell_ne by (intros (? & ? & ?); discriminate) ];
      reflexivity.
  - rewrite !cell_add_cell_ne; [done|..]; by intros (? & ? & ?).
Qed.

Lemma is_zero_spec u : is_zero u = true ↔ ∀ i j k, cell u i j k = 0.
Proof.
  unfold is_zero, IO_TYPES, UID_STATS, CHARGER_STATS. simpl.
  rewrite !andb_true_iff, !bool_decide_eq_true. split.
  - intros H i j k. destruct i, j, k; tauto.
  - intros H. repeat split; apply H.
Qed.

(** ** Sums *)

Lemma total_app {A} (f : A → Z) l1 l2 : total f (l1 ++ l2) = total f l1 + total f l2.
Proof. induction l1 as [|x l1 IH]; simpl; [done|]. rewrite IH. lia. Qed.

Lemma total_perm {A} (f : A → Z) l1 l2 : l1 ≡ₚ l2 → total f l1 = total f l2.
Proof. induction 1; simpl; lia. Qed.

(** A run of wrapping additions is one wrapping addition of the sum. *)
Lemma foldl_wrap64_total {A} (f : A → Z) l x :
  l ≠ [] → foldl (λ acc t, wrap64 (acc + f t)) x l = wrap64 (x + total f l).
Proof.
  revert x. induction l as [|a l IH]; intros x Hne; [done|]. simpl.
  destruct l as [|b l].
  - simpl. f_equal. lia.
  - rewrite IH by done. rewrite wrap64_add_l. f_equal. simpl. lia.
Qed.

(** ** The delta engine: one uid *)

Lemma account_uid_lookup k last curr u :
  account_uid k last curr u !! name u =
    Some {| uid_ios := add_deltas k (io u)
                         (io (default uid_info_zero (last !! uid u)))
                         (uid_ios (default uid_io_usage_zero (curr !! name u)));
            task_ios := foldl (account_task k (tasks (default uid_info_zero (last !! uid u))))
                          (task_ios (default uid_io_usage_zero (curr !! name u)))
                          (map_to_list (tasks u)) |}.
Proof. unfold account_uid. by rewrite lookup_insert_eq. Qed.

Lemma account_uid_lookup_ne k last curr u n :
  n ≠ name u → account_uid k last curr u !! n = curr !! n.
Proof. intros Hne. unfold account_uid. by rewrite lookup_insert_ne. Qed.

(** The task loop, seen from one command name: the cell of the current
    charger state receives the clamped deltas of the tasks that carry the
    name, in the order of the loop. *)
Lemma account_tasks_cell k last_tasks c i j l :
  ∀ m : gmap string io_usage,
    cell (default io_usage_zero (foldl (account_task k last_tasks) m l !! c)) i j k =
    foldl (λ acc t, wrap64 (acc + task_delta i j last_tasks t))
      (cell (default io_usage_zero (m !! c)) i j k)
      (filter (λ t : Z * task_info, comm t.2 = c) l).
Proof.
  induction l as [|a l IH]; intros m; [done|]. simpl. rewrite IH.
  destruct (decide (comm a.2 = c)) as [Hc|Hc].
  - rewrite filter_cons_True by done. simpl. f_equal.
    unfold account_task. rewrite Hc, lookup_insert_eq. simpl.
    rewrite cell_add_deltas. by case_decide.
  - rewrite filter_cons_False by done. f_equal.
    unfold account_task. by rewrite lookup_insert_ne.
Qed.

Lemma account_tasks_cell_other k last_tasks c i j k' l :
  k' ≠ k →
  ∀ m : gmap string io_usage,
    cell (default io_usage_zero (foldl (account_task k last_tasks) m l !! c)) i j k' =
    cell (default io_usage_zero (m !! c)) i j k'.
Proof.
  intros Hk. induction l as [|a l IH]; intros m; [done|]. simpl. rewrite IH.
  unfold account_task. destruct (decide (comm a.2 = c)) as [Hc|Hc].
  - rewrite Hc, lookup_insert_eq. simpl. rewrite cell_add_deltas. by case_decide.
  - by rewrite lookup_insert_ne.
Qed.

Lemma account_tasks_is_Some k last_tasks l :
  ∀ (m : gmap string io_usage) c,
    (is_Some (m !! c) ∨ ∃ t, t ∈ l ∧ comm t.2 = c) →
    is_Some (foldl (account_task k last_tasks) m l !! c).
Proof.
  induction l as [|a l IH]; intros m c H; simpl.
  - destruct H as [H|(t & Ht & _)]; [done|]. by apply elem_of_nil in Ht.
  - apply IH. unfold account_task.
    destruct (decide (comm a.2 = c)) as [Hc|Hc].
    + left. rewrite Hc, lookup_insert_eq. eauto.
    + rewrite lookup_insert_ne by done.
      destruct H as [H|(t & Ht & Htc)]; [by left|].
      apply elem_of_cons in Ht as [->|Ht]; [done|]. right. eauto.
Qed.

(** ** The delta engine: the whole sample *)

(** The entry of a name depends only on the uids that carry that name. *)
Lemma account_uids_local k last n l :
  Forall (λ u, name u = n) l →
  ∀ m1 m2 : gmap string uid_io_usage,
    m1 !! n = m2 !! n →
    foldl (account_uid k last) m1 l !! n = foldl (account_uid k last) m2 l !! n.
Proof.
  induction 1 as [|u l Hu _ IH]; intros m1 m2 Hm; [done|]. simpl.
  apply IH. rewrite <- Hu, !account_uid_lookup. rewrite Hu. by rewrite Hm.
Qed.

Lemma account_uids_by_name k last n us :
  ∀ curr : gmap string uid_io_usage,
    foldl (account_uid k last) curr us !! n =
    foldl (account_uid k last) curr (filter (λ u, name u = n) us) !! n.
Proof.
  induction us as [|u us IH]; intros curr; [done|]. simpl. rewrite IH.
  destruct (decide (name u = n)) as [Hn|Hn].
  - by rewrite filter_cons_True by done.
  - rewrite filter_cons_False by done.
    apply account_uids_local.
    + apply Forall_forall. by intros x [? _]%list_elem_of_filter.
    + by apply account_uid_lookup_ne.
Qed.

Lemma account_uids_is_Some k last us :
  ∀ (curr : gmap string uid_io_usage) n,
    (is_Some (curr !! n) ∨ ∃ u, u ∈ us ∧ name u = n) →
    is_Some (foldl (account_uid k last) curr us !! n).
Proof.
  induction us as [|a us IH]; intros curr n H; simpl.
  - destruct H as [H|(u & Hu & _)]; [done|]. by apply elem_of_nil in Hu.
  - apply IH. destruct (decide (name a = n)) as [Hn|Hn].
    + left. rewrite <- Hn, account_uid_lookup. eauto.
    + rewrite account_uid_lookup_ne by done.
      destruct H as [H|(u & Hu & Hun)]; [by left|].
      apply elem_of_cons in Hu as [->|Hu]; [done|]. right. eauto.
Qed.

(** ** The ordered store: facts *)

Lemma lower_bound_drop k (m : store.t) : ∃ n, store.lower_bound k m = drop n m.
Proof.
  induction m as [|b m [n IH]]; simpl.
  - by exists 0%nat.
  - destruct (b.1 <? k); [by exists (S n)|by exists 0%nat].
Qed.

Lemma lower_bound_ge k (m : store.t) kb :
  store.ordered m → kb ∈ store.lower_bound k m → k ≤ kb.1.
Proof.
  unfold store.ordered, store.keys.
  induction m as [|b m IH]; simpl; intros Hord Hin.
  - by apply elem_of_nil in Hin.
  - apply StronglySorted_inv in Hord as [Hm Hb].
    destruct (b.1 <? k) eqn:Hlt; [by apply IH|].
    apply Z.ltb_ge in Hlt.
    apply elem_of_cons in Hin as [->|Hin]; [done|].
    rewrite Forall_forall in Hb.
    assert (b.1 < kb.1) by (apply Hb; by apply list_elem_of_fmap_2). lia.
Qed.

Lemma lower_bound_all k (m : store.t) :
  (∀ kb, kb ∈ m → k ≤ kb.1) → store.lower_bound k m = m.
Proof.
  destruct m as [|b m]; simpl; intros H; [done|].
  destruct (b.1 <? k) eqn:Hlt; [|done].
  apply Z.ltb_lt in Hlt. specialize (H b (list_elem_of_here _ _)). lia.
Qed.

Lemma ordered_drop n (m : store.t) : store.ordered m → store.ordered (drop n m).
Proof.
  unfold store.ordered, store.keys. revert n.
  induction m as [|b m IH]; intros [|n] Hord; simpl; try done.
  apply StronglySorted_inv in Hord as [Hm _]. by apply IH.
Qed.

Lemma elem_of_assign k v (m : store.t) kb :
  kb ∈ store.assign k v m → kb = (k, v) ∨ kb ∈ m.
Proof.
  induction m as [|b m IH]; simpl.
  - intros ->%list_elem_of_singleton. by left.
  - destruct (k <? b.1); [|destruct (k =? b.1)].
    + intros [->|H]%elem_of_cons; [by left|by right].
    + intros [->|H]%elem_of_cons; [by left|]. right. by apply list_elem_of_further.
    + intros [->|H]%elem_of_cons; [right; apply list_elem_of_here|].
      destruct (IH H) as [->|?]; [by left|]. right. by apply list_elem_of_further.
Qed.

Lemma ordered_assign k v (m : store.t) :
  store.ordered m → store.ordered (store.assign k v m).
Proof.
  unfold store.ordered, store.keys.
  induction m as [|b m IH]; simpl; intros Hord.
  - repeat constructor.
  - pose proof Hord as [Hm Hb]%StronglySorted_inv.
    destruct (k <? b.1) eqn:Hlt; [|destruct (k =? b.1) eqn:Heq].
    + apply Z.ltb_lt in Hlt. simpl. constructor; [done|].
      constructor; [done|]. eapply Forall_impl; [exact Hb|]. simpl. lia.
    + apply Z.eqb_eq in Heq. subst k. simpl. by constructor.
    + apply Z.ltb_ge in Hlt. apply Z.eqb_neq in Heq. simpl.
      constructor; [by apply IH|].
      apply Forall_forall. intros x (kb & -> & Hkb)%list_elem_of_fmap.
      destruct (elem_of_assign _ _ _ _ Hkb) as [->|Hin]; [simpl; lia|].
      rewrite Forall_forall in Hb. apply Hb. by apply list_elem_of_fmap_2.
Qed.

Lemma stored_records_drop n (m : store.t) :
  (stored_records (drop n m) ≤ stored_records m)%nat.
Proof.
  revert n. induction m as [|b m IH]; intros [|n]; simpl; try lia.
  specialize (IH n). lia.
Qed.

Lemma stored_records_assign k v (m : store.t) :
  (stored_records (store.assign k v m) ≤ stored_records m + length (entries v))%nat.
Proof.
  induction m as [|b m IH]; simpl; [lia|].
  destruct (k <? b.1); [|destruct (k =? b.1)]; simpl; lia.
Qed.

(** While the count fits an [int], [records_size] counts the records. *)
Lemma records_size_from_stored (m : store.t) :
  ∀ count, 0 ≤ count → count + Z.of_nat (stored_records m) < 2 ^ 31 →
    records_size_from count m = count + Z.of_nat (stored_records m).
Proof.
  induction m as [|b m IH]; intros count H0 Hlt; simpl in *; [lia|].
  rewrite to_int_small by lia. rewrite IH; lia.
Qed.

Lemma records_size_stored (m : store.t) :
  Z.of_nat (stored_records m) < 2 ^ 31 →
  records_size m = Z.of_nat (stored_records m).
Proof. intros H. unfold records_size. rewrite records_size_from_stored; lia. Qed.

(** ** The flush: eviction *)

Lemma make_room_drop overflow (m : store.t) : ∃ n, make_room overflow m = drop n m.
Proof.
  revert overflow. induction m as [|b m IH]; intros overflow; simpl.
  - by exists 0%nat.
  - destruct (0 <? overflow); [|by exists 0%nat].
    destruct (IH (to_int (wrap64 (overflow - Z.of_nat (length (entries b.2))))))
      as [n Hn]. by exists (S n).
Qed.

(** The loop stops as soon as what is left and the candidate fit. *)
Lemma make_room_fits (c : Z) (m : store.t) :
  ∀ overflow,
    0 ≤ c ≤ MAX_UID_RECORDS_SIZE →
    Z.of_nat (stored_records m) ≤ MAX_UID_RECORDS_SIZE →
    overflow = Z.of_nat (stored_records m) + c - MAX_UID_RECORDS_SIZE →
    Z.of_nat (stored_records (make_room overflow m)) + c ≤ MAX_UID_RECORDS_SIZE.
Proof.
  unfold MAX_UID_RECORDS_SIZE.
  induction m as [|b m IH]; intros overflow Hc Hm Ho; simpl in *; [lia|].
  destruct (0 <? overflow) eqn:Hpos.
  - apply IH; [done|lia|].
    rewrite to_int_wrap64, to_int_small; lia.
  - apply Z.ltb_ge in Hpos. simpl. lia.
Qed.

Lemma insert_records_cap curr_ts new_records (m : store.t) :
  Z.of_nat (length (entries new_records)) ≤ MAX_UID_RECORDS_SIZE →
  Z.of_nat (stored_records m) ≤ MAX_UID_RECORDS_SIZE →
  Z.of_nat (stored_records (uid_monitor.insert_records curr_ts new_records m))
    ≤ MAX_UID_RECORDS_SIZE.
Proof.
  intros Hc Hm. unfold uid_monitor.insert_records.
  pose proof (stored_records_assign curr_ts new_records
    (make_room (to_int (wrap64 (records_size m +
       Z.of_nat (length (entries new_records)) - MAX_UID_RECORDS_SIZE))) m)) as Ha.
  pose proof (make_room_fits (Z.of_nat (length (entries new_records))) m
    (to_int (wrap64 (records_size m +
       Z.of_nat (length (entries new_records)) - MAX_UID_RECORDS_SIZE)))) as Hf.
  unfold MAX_UID_RECORDS_SIZE in *.
  rewrite records_size_stored in * by lia.
  rewrite to_int_wrap64, to_int_small in * by lia.
  lia.
Qed.

(** ** The flush: the store before and after *)

Lemma update_records r st :
  uid_monitor.records (uid_monitor.update_curr_io_stats_locked r st) =
  uid_monitor.records st.
Proof. unfold uid_monitor.update_curr_io_stats_locked. by case_decide. Qed.

Lemma update_start_ts r st :
  uid_monitor.start_ts (uid_monitor.update_curr_io_stats_locked r st) =
  uid_monitor.start_ts st.
Proof. unfold uid_monitor.update_curr_io_stats_locked. by case_decide. Qed.

Lemma set_charger_state_records stat r st :
  uid_monitor.records (uid_monitor.set_charger_state stat r st) =
  uid_monitor.records st.
Proof.
  unfold uid_monitor.set_charger_state. case_decide; [done|]. simpl.
  apply update_records.
Qed.

Lemma prune_drop curr_ts (m : store.t) : ∃ n, uid_monitor.prune curr_ts m = drop n m.
Proof.
  unfold uid_monitor.prune. case_match.
  - apply lower_bound_drop.
  - by exists 0%nat.
Qed.

(** What a flush leaves of the old store is the old store without its first
    [n] buckets, for some [n]. *)
Lemma flush_shape curr_ts st :
  ∃ n, uid_monitor.records (uid_monitor.add_records_locked curr_ts st) =
    match uid_monitor.new_entries (uid_monitor.curr_io_stats st) with
    | [] => drop n (uid_monitor.records st)
    | entries =>
        store.assign curr_ts (mk_uid_records (uid_monitor.start_ts st) entries)
          (drop n (uid_monitor.records st))
    end.
Proof.
  unfold uid_monitor.add_records_locked. simpl.
  destruct (prune_drop curr_ts (uid_monitor.records st)) as [n1 ->].
  destruct (uid_monitor.new_entries (uid_monitor.curr_io_stats st)) as [|e es].
  - by exists n1.
  - unfold uid_monitor.insert_records.
    match goal with
    | |- context [make_room ?o ?m] => destruct (make_room_drop o m) as [n2 ->]
    end.
    rewrite drop_drop. by exists (n1 + n2)%nat.
Qed.

Lemma flush_ordered curr_ts st :
  store.ordered (uid_monitor.records st) →
  store.ordered (uid_monitor.records (uid_monitor.add_records_locked curr_ts st)).
Proof.
  intros Hord. destruct (flush_shape curr_ts st) as [n ->].
  case_match; [by apply ordered_drop|].
  by apply ordered_assign, ordered_drop.
Qed.

Lemma flush_cap curr_ts st :
  Z.of_nat (stored_records (uid_monitor.records st)) ≤ MAX_UID_RECORDS_SIZE →
  Z.of_nat (length (uid_monitor.new_entries (uid_monitor.curr_io_stats st)))
    ≤ MAX_UID_RECORDS_SIZE →
  Z.of_nat (stored_records
    (uid_monitor.records (uid_monitor.add_records_locked curr_ts st)))
    ≤ MAX_UID_RECORDS_SIZE.
Proof.
  intros Hm Hc. unfold uid_monitor.add_records_locked. simpl.
  destruct (prune_drop curr_ts (uid_monitor.records st)) as [n1 Hn1].
  pose proof (stored_records_drop n1 (uid_monitor.records st)) as Hd.
  rewrite <- Hn1 in Hd.
  destruct (uid_monitor.new_entries (uid_monitor.curr_io_stats st)) as [|e es] eqn:He;
    [lia|].
  apply insert_records_cap; simpl; [done|lia].
Qed.

Lemma step_keeps_store st c :
  store.ordered (uid_monitor.records st) →
  Z.of_nat (stored_records (uid_monitor.records st)) ≤ MAX_UID_RECORDS_SIZE →
  flushes_fit st [c] →
  store.ordered (uid_monitor.records (step st c)) ∧
  Z.of_nat (stored_records (uid_monitor.records (step st c))) ≤ MAX_UID_RECORDS_SIZE.
Proof.
  intros Hord Hcap [Hfit _].
  assert (∀ r now, candidate_size r st ≤ MAX_UID_RECORDS_SIZE →
    store.ordered (uid_monitor.records (uid_monitor.report r now st)) ∧
    Z.of_nat (stored_records (uid_monitor.records (uid_monitor.report r now st)))
      ≤ MAX_UID_RECORDS_SIZE) as Hreport.
  { intros r now Hr. unfold uid_monitor.report. split.
    - apply flush_ordered. by rewrite update_records.
    - apply flush_cap; [by rewrite update_records|done]. }
  destruct c as [r now|stat r|hours threshold [|] r now]; simpl.
  - by apply Hreport.
  - by rewrite set_charger_state_records.
  - by apply Hreport.
  - done.
Qed.

(** ** The query: facts *)

Lemma usage_sum_total u : usage_sum u = wrap64 (cells_total u).
Proof.
  cbv [usage_sum cells_total total foldr IO_TYPES UID_STATS CHARGER_STATS].
  f_equal. lia.
Qed.

Lemma usage_sum_le_total u : cells_nonneg u → usage_sum u ≤ cells_total u.
Proof.
  intros Hu. rewrite usage_sum_total. apply wrap64_le.
  cbv [cells_total total foldr IO_TYPES UID_STATS CHARGER_STATS].
  pose proof (Hu READ FOREGROUND CHARGER_OFF). pose proof (Hu READ FOREGROUND CHARGER_ON).
  pose proof (Hu READ BACKGROUND CHARGER_OFF). pose proof (Hu READ BACKGROUND CHARGER_ON).
  pose proof (Hu WRITE FOREGROUND CHARGER_OFF). pose proof (Hu WRITE FOREGROUND CHARGER_ON).
  pose proof (Hu WRITE BACKGROUND CHARGER_OFF). pose proof (Hu WRITE BACKGROUND CHARGER_ON).
  lia.
Qed.

Lemma insert_new_last k v (m : store.t) :
  (∀ kb, kb ∈ m → kb.1 < k) → store.insert_new k v m = m ++ [(k, v)].
Proof.
  induction m as [|b m IH]; intros Hlt; simpl; [done|].
  assert (b.1 < k) as Hb by (apply Hlt; left).
  destruct (k <? b.1) eqn:H1; [apply Z.ltb_lt in H1; lia|].
  destruct (k =? b.1) eqn:H2; [apply Z.eqb_eq in H2; lia|].
  rewrite IH; [done|]. intros kb Hkb. apply Hlt. by right.
Qed.

Lemma dump_bucket_one threshold out it :
  dump_bucket threshold out it =
    match dump_one threshold it with
    | None => out
    | Some kb => store.insert_new kb.1 kb.2 out
    end.
Proof. unfold dump_bucket, dump_one. by case_match. Qed.

Lemma dump_one_Some threshold it kb :
  dump_one threshold it = Some kb →
  kb.1 = it.1 ∧ start_ts kb.2 = start_ts it.2 ∧ entries kb.2 ≠ [] ∧
  entries kb.2 = filter (λ rec, over_threshold threshold rec = true) (entries it.2).
Proof.
  unfold dump_one.
  destruct (filter (λ rec, over_threshold threshold rec = true) (entries it.2))
    as [|e es] eqn:Hf; [done|].
  intros [= <-]. by simpl.
Qed.

(** Over an ordered store the loop of [dump] appends, bucket by bucket. *)
Lemma dump_fold threshold (l : store.t) :
  ∀ out : store.t,
    store.ordered (out ++ l) →
    foldl (dump_bucket threshold) out l = out ++ omap (dump_one threshold) l.
Proof.
  unfold store.ordered, store.keys.
  induction l as [|it l IH]; intros out Hs; simpl; [by rewrite app_nil_r|].
  rewrite dump_bucket_one.
  rewrite fmap_app, fmap_cons in Hs.
  pose proof Hs as (Hlt & Hout & [Hit Hl]%StronglySorted_cons)%StronglySorted_app.
  destruct (dump_one threshold it) as [kb|] eqn:Hone.
  - destruct (dump_one_Some _ _ _ Hone) as (Hk & _).
    destruct kb as [k' b']. simpl in Hk. subst k'. simpl.
    rewrite insert_new_last.
    2:{ intros x Hx. apply Hlt; [by apply list_elem_of_fmap_2|left]. }
    rewrite IH.
    + by rewrite <- app_assoc.
    + by rewrite !fmap_app, <- app_assoc.
  - apply IH. rewrite fmap_app. apply StronglySorted_app_2; [|done..].
    intros x1 x2 Hx1 Hx2. apply Hlt; [done|by right].
Qed.

Lemma lower_bound_subset k (m : store.t) kb : kb ∈ store.lower_bound k m → kb ∈ m.
Proof.
  destruct (lower_bound_drop k m) as [n ->]. revert n.
  induction m as [|b m IH]; intros [|n]; simpl; try done.
  intros H. right. by apply (IH n).
Qed.

Lemma dump_locked_omap hours threshold st :
  store.ordered (uid_monitor.records st) →
  uid_monitor.dump_locked hours threshold st =
    omap (dump_one threshold)
      (store.lower_bound (match hours with hours_zero => 0 | hours_from ts => ts end)
         (uid_monitor.records st)).
Proof.
  intros Hord. unfold uid_monitor.dump_locked.
  rewrite dump_fold; [done|]. simpl.
  match goal with
  | |- context [store.lower_bound ?k ?m] => destruct (lower_bound_drop k m) as [n ->]
  end.
  by apply ordered_drop.
Qed.

Lemma filter_all {A} (P : A → Prop) `{∀ x, Decision (P x)} (l : list A) :
  Forall P l → filter P l = l.
Proof.
  induction 1 as [|x l Hx _ IH]; [done|].
  rewrite filter_cons_True by done. by rewrite IH.
Qed.

Lemma omap_filter {A} (f : A → option A) (P : A → Prop) `{∀ x, Decision (P x)}
    (l : list A) :
  (∀ x, x ∈ l → f x = if decide (P x) then Some x else None) →
  omap f l = filter P l.
Proof.
  induction l as [|x l IH]; intros Hf; [done|].
  change (omap f (x :: l)) with (match f x with Some y => y :: omap f l | None => omap f l end).
  rewrite Hf by left. rewrite IH by (intros y Hy; apply Hf; by right).
  case_decide; [by rewrite filter_cons_True|by rewrite filter_cons_False].
Qed.

(** With threshold 0 a bucket none of whose records sums to 0 modulo 2^64
    passes [dump] unchanged, unless it is empty. *)
Lemma dump_one_zero it :
  Forall (λ rec, usage_sum (uid_ios (ios rec)) ≠ 0) (entries it.2) →
  dump_one 0 it = if decide (entries it.2 ≠ []) then Some it else None.
Proof.
  intros Hall. unfold dump_one. rewrite filter_all.
  - destruct it as [k [s e]]. simpl. destruct e; by case_decide.
  - eapply Forall_impl; [exact Hall|]. intros rec Hrec. simpl in Hrec.
    unfold over_threshold. apply Z.ltb_lt.
    pose proof (wrap64_range (cells_total (uid_ios (ios rec)))) as Hr.
    rewrite <- usage_sum_total in Hr. lia.
Qed.

(** ** Reading a snapshot: facts *)

Section scan.
Variable last : gmap Z uid_info.

Lemma scan_uids rows :
  ∀ s, uid_monitor.uids (foldl (uid_monitor.scan_row last) s rows) =
       uid_monitor.uids s ++ (to_int <$> uid_rows rows).
Proof.
  induction rows as [|r rows IH]; intros s; simpl; [by rewrite app_nil_r|].
  rewrite IH. destruct r; simpl; try done.
  by rewrite <- app_assoc.
Qed.

Lemma scan_uid_names rows :
  ∀ s, uid_monitor.uid_names (foldl (uid_monitor.scan_row last) s rows) =
       uid_monitor.uid_names s ++ uid_rows rows.
Proof.
  induction rows as [|r rows IH]; intros s; simpl; [by rewrite app_nil_r|].
  rewrite IH. destruct r; simpl; try done.
  by rewrite <- app_assoc.
Qed.

Lemma scan_refresh rows :
  ∀ s, uid_monitor.refresh (foldl (uid_monitor.scan_row last) s rows) =
       uid_monitor.refresh s ||
       existsb (λ n, bool_decide (last !! n = None)) (uid_rows rows).
Proof.
  induction rows as [|r rows IH]; intros s; simpl; [by rewrite orb_false_r|].
  rewrite IH. destruct r as [|n c|seen|t|]; simpl; try done.
  destruct (last !! n) eqn:Hn; simpl; [done|by rewrite orb_true_r].
Qed.

Lemma scan_row_named s r :
  scan_named last s → scan_named last (uid_monitor.scan_row last s r).
Proof.
  intros Hs. destruct r as [|m c|seen|t|]; simpl; try done.
  - intros n [Hn|Hn%list_elem_of_singleton]%elem_of_app; simpl in *.
    + destruct (decide (n = m)) as [->|Hne].
      * rewrite lookup_insert_eq. eexists. split; [done|]. simpl.
        unfold carried_name. by destruct (last !! m).
      * rewrite lookup_insert_ne by done. by apply Hs.
    + subst n. rewrite lookup_insert_eq. eexists. split; [done|]. simpl.
      unfold carried_name. by destruct (last !! m).
  - intros n Hn. simpl in *. destruct (Hs n Hn) as (info & Hi & Hname).
    destruct (decide (n = uid_monitor.u_uid s)) as [->|Hne].
    + rewrite lookup_insert_eq, Hi. eexists. split; [done|]. done.
    + rewrite lookup_insert_ne by done. eauto.
Qed.

Lemma scan_named_fold rows :
  ∀ s, scan_named last s →
       scan_named last (foldl (uid_monitor.scan_row last) s rows).
Proof.
  induction rows as [|r rows IH]; intros s Hs; simpl; [done|].
  by apply IH, scan_row_named.
Qed.

End scan.

(** The request is empty exactly when the file has no well-formed uid
    row. *)
Lemma request_empty (ns : list Z) :
  bool_decide (to_int <$> ns ≠ []) = bool_decide (ns ≠ []).
Proof. by destruct ns. Qed.

(** [get_uid_names] renames entries and does nothing else. *)
Lemma store_names_lookup asked names :
  ∀ (stats : gmap Z uid_info) n,
    match uid_monitor.store_names stats asked names !! n, stats !! n with
    | Some info, Some info0 =>
        uid info = uid info0 ∧ io info = io info0 ∧ tasks info = tasks info0 ∧
        (name info = name info0 ∨ (name info ∈ names ∧ name info ≠ EmptyString))
    | None, None => True
    | _, _ => False
    end.
Proof.
  unfold uid_monitor.store_names.
  assert (∀ p, p ∈ zip asked names → p.2 ∈ names) as Hzip.
  { intros [x1 x2]. apply elem_of_zip_r. }
  revert Hzip. generalize (zip asked names).
  intros l. induction l as [|p l IH] using rev_ind; intros Hl stats n.
  - simpl. destruct (stats !! n) as [info|]; [|done].
    split_and!; [done..|by left].
  - rewrite foldl_app. simpl.
    assert (p.2 ∈ names) as Hp.
    { apply Hl, elem_of_app. right. left. }
    assert (∀ q, q ∈ l → q.2 ∈ names) as Hl'.
    { intros q Hq. apply Hl, elem_of_app. by left. }
    specialize (IH Hl' stats n).
    set (m' := foldl _ stats l) in *.
    case_decide as Hempty; [done|].
    destruct (decide (p.1 = n)) as [Heq|Hne].
    + rewrite Heq, lookup_alter_eq.
      destruct (m' !! n) as [info|], (stats !! n) as [info0|]; simpl; try done.
      destruct IH as (? & ? & ? & _). split_and!; [done..|by right].
    + by rewrite lookup_alter_ne.
Qed.

(** [get_uid_names] gives a uid the last name that the answer has for it
    and that is not empty, and leaves the others their names. *)
Lemma store_names_exact uid_names names :
  ∀ (stats : gmap Z uid_info) n,
    uid_monitor.store_names stats uid_names names !! n =
    (λ info, match own_answer uid_names names n with
             | Some s => uid_monitor.set_name s info
             | None => info
             end) <$> stats !! n.
Proof.
  unfold uid_monitor.store_names, own_answer, own_answers.
  generalize (zip uid_names names).
  intros l. induction l as [|p l IH] using rev_ind; intros stats n.
  - simpl. by destruct (stats !! n).
  - rewrite foldl_app, filter_app, fmap_app. simpl.
    case_decide as Hempty.
    + rewrite filter_cons_False by (by intros [_ ?]).
      rewrite filter_nil, app_nil_r. apply IH.
    + destruct (decide (p.1 = n)) as [Heq|Hne].
      * rewrite filter_cons_True by done. rewrite filter_nil. simpl.
        rewrite last_snoc. rewrite <- Heq, lookup_alter_eq, Heq, IH.
        destruct (stats !! n) as [info|]; [|done]. simpl.
        by destruct (last _).
      * rewrite filter_cons_False by (by intros [? _]).
        rewrite filter_nil, app_nil_r, lookup_alter_ne by done. apply IH.
Qed.

Lemma own_answers_absent (ks : list Z) :
  ∀ names n, n ∉ ks → own_answers ks names n = [].
Proof.
  unfold own_answers.
  induction ks as [|k ks IH]; intros [|s names] n Hn; try done. simpl.
  apply not_elem_of_cons in Hn as [Hne Hn].
  rewrite filter_cons_False by (simpl; by intros [? _]).
  by apply IH.
Qed.

Lemma own_answers_cons k s0 (ks : list Z) names n :
  own_answers (k :: ks) (s0 :: names) n =
    (if decide (k = n ∧ s0 ≠ EmptyString) then [s0] else []) ++ own_answers ks names n.
Proof.
  unfold own_answers. simpl zip.
  case_decide as H.
  - by rewrite filter_cons_True by done.
  - by rewrite filter_cons_False by done.
Qed.

(** In a request without repetition, the answer for a uid is the name at
    its own position. *)
Lemma own_answers_position (ks : list Z) :
  ∀ names (i : nat) n s,
    NoDup ks → ks !! i = Some n → names !! i = Some s →
    own_answers ks names n = if decide (s = EmptyString) then [] else [s].
Proof.
  induction ks as [|k ks IH]; intros [|s0 names] i n s Hnd Hk Hs; try done.
  apply NoDup_cons in Hnd as [Hk0 Hnd]. rewrite own_answers_cons.
  destruct i as [|i]; simpl in Hk, Hs.
  - injection Hk as ->. injection Hs as ->.
    rewrite (own_answers_absent ks names n Hk0), app_nil_r.
    repeat case_decide; try done.
    + by destruct H as [_ ?].
    + exfalso. by apply H.
  - assert (k ≠ n) as Hne.
    { intros ->. apply Hk0. by eapply list_elem_of_lookup_2. }
    rewrite decide_False by (by intros [? _]).
    by apply (IH names i).
Qed.

Lemma store_names_empty asked names (stats : gmap Z uid_info) :
  uid_monitor.store_names stats asked names = ∅ → stats = ∅.
Proof.
  intros H. apply map_eq. intros n. rewrite lookup_empty.
  pose proof (store_names_lookup asked names stats n) as Hn.
  rewrite H, lookup_empty in Hn. by destruct (stats !! n).
Qed.

(** A snapshot is empty only when the file had no well-formed uid row; the
    package manager is then not called and the flag stays. *)
Lemma empty_snapshot r st :
  uid_monitor.stats (uid_monitor.get_uid_io_stats_locked r st) = ∅ →
  uid_monitor.refresh_after (uid_monitor.get_uid_io_stats_locked r st) =
    uid_monitor.refresh_uid_names st ∧
  uid_monitor.asked (uid_monitor.get_uid_io_stats_locked r st) = None.
Proof.
  unfold uid_monitor.get_uid_io_stats_locked.
  destruct (file r) as [rows|]; [|done].
  set (s0 := {| uid_monitor.u_uid := stack_uid r; uid_monitor.uid_io_stats := ∅;
                uid_monitor.uids := []; uid_monitor.uid_names := [];
                uid_monitor.refresh := _ |}).
  pose proof (scan_named_fold (uid_monitor.last_uid_io_stats st) rows s0) as Hnamed.
  pose proof (scan_uids (uid_monitor.last_uid_io_stats st) rows s0) as Huids.
  pose proof (scan_uid_names (uid_monitor.last_uid_io_stats st) rows s0) as Hkeys.
  pose proof (scan_refresh (uid_monitor.last_uid_io_stats st) rows s0) as Href.
  set (s := foldl _ s0 rows) in *. simpl in Huids, Hkeys, Href.
  assert (uid_monitor.uid_io_stats s = ∅ → uid_rows rows = []) as Hnil.
  { intros Hs. destruct (uid_rows rows) as [|n ns] eqn:Hrows; [done|].
    destruct (Hnamed (λ n Hn, False_ind _ (proj1 (elem_of_nil n) Hn)) n) as (info & Hi & _).
    - rewrite Hkeys. left.
    - by rewrite Hs, lookup_empty in Hi. }
  intros Hempty.
  assert (uid_rows rows = []) as Hrows.
  { apply Hnil. repeat case_match; simpl in Hempty; try done.
    by apply store_names_empty in Hempty. }
  rewrite Huids, Hrows. rewrite bool_decide_eq_false_2 by (by intros []). simpl.
  by rewrite Href, Hrows, orb_false_r.
Qed.

(** ** The delta step and an empty snapshot *)

Lemma update_empty r st :
  uid_monitor.stats (uid_monitor.get_uid_io_stats_locked r st) = ∅ →
  uid_monitor.update_curr_io_stats_locked r st = st.
Proof.
  intros Hempty. destruct (empty_snapshot r st Hempty) as [Hflag _].
  unfold uid_monitor.update_curr_io_stats_locked.
  case_decide; [|done]. rewrite Hflag. by destruct st.
Qed.

Lemma failed_read_empty r st :
  file r = None →
  uid_monitor.stats (uid_monitor.get_uid_io_stats_locked r st) = ∅.
Proof. intros Hfile. unfold uid_monitor.get_uid_io_stats_locked. by rewrite Hfile. Qed.

(** ** A crowded sample *)

(** The snapshot that uid rows [ns], all with the counters of
    [sample.crowd], give against an empty last snapshot. *)
Lemma crowd_scan (ns : list Z) :
  ∀ s,
    uid_monitor.uid_io_stats
      (foldl (uid_monitor.scan_row ∅) s ((λ n, sample.uid_line n 1 0 0 0) <$> ns)) =
    foldl (λ m n, <[n := {| uid := n; name := pretty n;
                            io := (sample.counters 1 0, sample.counters 0 0);
                            tasks := ∅ |}]> m)
      (uid_monitor.uid_io_stats s) ns.
Proof.
  induction ns as [|n ns IH]; intros s; [done|].
  simpl. rewrite IH. simpl. by rewrite lookup_empty.
Qed.

Lemma crowd_entries (ns : list Z) :
  NoDup ns →
  let m := foldl (λ m n, <[n := {| uid := n; name := pretty n;
                                   io := (sample.counters 1 0, sample.counters 0 0);
                                   tasks := ∅ |}]> m) (∅ : gmap Z uid_info) ns in
  size m = length ns ∧
  ∀ n v, m !! n = Some v →
    n ∈ ns ∧ v = {| uid := n; name := pretty n;
                    io := (sample.counters 1 0, sample.counters 0 0); tasks := ∅ |}.
Proof.
  induction ns as [|x ns IH] using rev_ind; intros Hnd; simpl.
  - split; [done|]. intros n v. by rewrite lookup_empty.
  - apply NoDup_app in Hnd as (Hns & Hx & _).
    destruct (IH Hns) as [Hsize Hin]. rewrite foldl_app. simpl. split.
    + rewrite map_size_insert_None.
      * rewrite Hsize, length_app. simpl. lia.
      * destruct (foldl _ ∅ ns !! x) as [v|] eqn:Hv; [|done].
        destruct (Hin x v Hv) as [Hxin _]. destruct (Hx x Hxin). left.
    + intros n v. destruct (decide (x = n)) as [->|Hne].
      * rewrite lookup_insert_eq. intros [= <-]. split; [|done].
        apply elem_of_app. right. left.
      * rewrite lookup_insert_ne by done. intros Hv.
        destruct (Hin n v Hv) as [Hnin ->]. split; [|done].
        apply elem_of_app. by left.
Qed.

(** Uids met for the first time, under names of their own and without
    tasks, each open an entry of the accumulator. *)
Lemma account_fresh_uids k (us : list uid_info) :
  ∀ curr : gmap string uid_io_usage,
    NoDup (name <$> us) →
    (∀ u, u ∈ us →
       curr !! name u = None ∧ tasks u = ∅ ∧
       io u = (sample.counters 1 0, sample.counters 0 0)) →
    size (foldl (account_uid k ∅) curr us) = (size curr + length us)%nat ∧
    ∀ n usage,
      foldl (account_uid k ∅) curr us !! n = Some usage →
      curr !! n = Some usage ∨ is_zero (uid_ios usage) = false.
Proof.
  induction us as [|u us IH]; intros curr Hnd Hus; simpl.
  - split; [lia|]. intros n usage Hn. by left.
  - rewrite fmap_cons in Hnd. apply NoDup_cons in Hnd as [Hu Hnd].
    destruct (Hus u) as (Hfresh & Htasks & Hio); [left|].
    assert (account_uid k ∅ curr u =
            <[name u := {| uid_ios := add_deltas k (io u)
                                        (io uid_info_zero) io_usage_zero;
                           task_ios := ∅ |}]> curr) as Hstep.
    { unfold account_uid. rewrite Hfresh, lookup_empty, Htasks, map_to_list_empty.
      done. }
    destruct (IH (account_uid k ∅ curr u) Hnd) as [Hsize Hin].
    { intros v Hv. destruct (Hus v) as (Hv1 & Hv2 & Hv3); [by right|].
      split_and!; [|done..]. rewrite Hstep, lookup_insert_ne; [done|].
      intros Heq. apply Hu. rewrite Heq. by apply list_elem_of_fmap_2. }
    split.
    + rewrite Hsize, Hstep, map_size_insert_None by done. lia.
    + intros n usage Hn. destruct (Hin n usage Hn) as [Hcur|Hnz]; [|by right].
      rewrite Hstep in Hcur. destruct (decide (name u = n)) as [<-|Hne].
      * rewrite lookup_insert_eq in Hcur. injection Hcur as <-. right.
        rewrite Hio. by destruct k.
      * rewrite lookup_insert_ne in Hcur by done. by left.
Qed.

Lemma length_omap_all {A B} (f : A → option B) (l : list A) :
  (∀ x, x ∈ l → is_Some (f x)) → length (omap f l) = length l.
Proof.
  induction l as [|x l IH]; intros H; [done|].
  change (omap f (x :: l)) with (match f x with Some y => y :: omap f l | None => omap f l end).
  destruct (H x) as [y ->]; [left|]. simpl. rewrite IH; [done|].
  intros z Hz. apply H. by right.
Qed.

(** A report on [sample.crowd n] from [sample.cold] stores one bucket of
    [n] records. *)
Lemma crowd_flush (n now : Z) :
  0 < n →
  Z.of_nat (stored_records
    (uid_monitor.records (uid_monitor.report (sample.crowd n) now sample.cold))) = n.
Proof.
  intros Hn.
  set (ns := seqZ 0 n).
  assert (NoDup ns) as Hnd by apply NoDup_seqZ.
  assert (length ns = Z.to_nat n) as Hlen by apply length_seqZ.
  destruct (crowd_entries ns Hnd) as [Hsize Hentries].
  set (m := foldl _ ∅ ns) in *.
  assert (uid_monitor.stats
            (uid_monitor.get_uid_io_stats_locked (sample.crowd n) sample.cold) = m)
    as Hstats.
  { unfold uid_monitor.get_uid_io_stats_locked, sample.crowd, sample.read_of.
    cbn [file names_reply stack_uid].
    change (uid_monitor.last_uid_io_stats sample.cold) with (∅ : gmap Z uid_info).
    fold ns. by case_match; simpl; rewrite crowd_scan. }
  assert (m ≠ ∅) as Hne.
  { intros Hm. apply map_size_empty_iff in Hm. lia. }
  set (us := (map_to_list m).*2).
  assert (uid_monitor.curr_io_stats
            (uid_monitor.update_curr_io_stats_locked (sample.crowd n) sample.cold) =
          foldl (account_uid CHARGER_ON ∅) ∅ us) as Hcurr.
  { unfold uid_monitor.update_curr_io_stats_locked. rewrite Hstats.
    by case_decide. }
  assert (∀ kv, kv ∈ map_to_list m →
            kv.2 = {| uid := kv.1; name := pretty kv.1;
                      io := (sample.counters 1 0, sample.counters 0 0);
                      tasks := ∅ |}) as Hkv.
  { intros [k v] Hin. apply elem_of_map_to_list in Hin.
    by destruct (Hentries k v Hin) as [_ ->]. }
  destruct (account_fresh_uids CHARGER_ON us ∅) as [Hacc Hnz].
  { unfold us. rewrite <- list_fmap_compose.
    rewrite (list_fmap_ext _ (pretty ∘ fst) (map_to_list m)).
    - rewrite list_fmap_compose. apply NoDup_fmap_2; [apply _|].
      apply NoDup_fst_map_to_list.
    - intros i kv Hi. simpl. rewrite (Hkv kv); [done|].
      by eapply list_elem_of_lookup_2. }
  { intros u (kv & -> & Hin)%list_elem_of_fmap. rewrite (Hkv kv Hin). simpl.
    by rewrite lookup_empty. }
  rewrite map_size_empty in Hacc. simpl in Hacc.
  assert (length us = Z.to_nat n) as Hus.
  { unfold us. by rewrite length_fmap, length_map_to_list, Hsize. }
  unfold uid_monitor.report, uid_monitor.add_records_locked. simpl.
  rewrite update_records, Hcurr.
  change (uid_monitor.records sample.cold) with (@nil (Z * uid_records)).
  assert (length (uid_monitor.new_entries (foldl (account_uid CHARGER_ON ∅) ∅ us)) =
          Z.to_nat n) as Hcand.
  { unfold uid_monitor.new_entries. rewrite length_omap_all.
    - rewrite length_map_to_list. lia.
    - intros [name usage] Hin%elem_of_map_to_list.
      destruct (Hnz name usage Hin) as [Hempty|Hz]; [by rewrite lookup_empty in Hempty|].
      unfold make_record. simpl. rewrite Hz. eauto. }
  destruct (uid_monitor.new_entries _) as [|e es] eqn:Hent; [simpl in Hcand; lia|].
  unfold uid_monitor.prune, uid_monitor.insert_records. simpl in Hcand.
  case_match; simpl; lia.
Qed.

(** ** Callers on several threads: mutual exclusion *)

Lemma balanced_inside held code :
  threads.balanced held code = true → threads.inside code = held.
Proof.
  revert held. induction code as [|i code IH]; intros held; simpl.
  - by destruct held.
  - destruct i; try apply IH; intros H; apply andb_true_iff in H as [Hh Hrest].
    + by destruct held.
    + done.
Qed.

Lemma well_locked_balanced held code :
  threads.well_locked held code = true → threads.balanced held code = true.
Proof.
  revert held. induction code as [|i code IH]; intros held; simpl; [done|].
  destruct i, held; simpl; try done; apply IH.
Qed.

Lemma well_locked_inside held code :
  threads.well_locked held code = true → threads.inside code = held.
Proof. intros H. by apply balanced_inside, well_locked_balanced. Qed.

(** One step of well-locked code leaves well-locked code. *)
Lemma well_locked_tail i rest :
  threads.well_locked (threads.inside (i :: rest)) (i :: rest) = true →
  threads.well_locked (threads.inside rest) rest = true.
Proof.
  simpl. destruct i; intros H; apply andb_true_iff in H as [Hh Hrest];
    try done; by rewrite (well_locked_inside _ _ Hrest).
Qed.

Lemma balanced_tail i rest :
  threads.balanced (threads.inside (i :: rest)) (i :: rest) = true →
  threads.balanced (threads.inside rest) rest = true.
Proof.
  simpl. destruct i; try done; intros H; apply andb_true_iff in H as [Hh Hrest];
    by rewrite (balanced_inside _ _ Hrest).
Qed.

Lemma holders_insert (callers : list (list threads.instr)) :
  ∀ (t : nat) code rest,
    callers !! t = Some code →
    (threads.holders (<[t := rest]> callers) + (if threads.inside code then 1 else 0) =
     threads.holders callers + (if threads.inside rest then 1 else 0))%nat.
Proof.
  induction callers as [|c callers IH]; intros [|t] code rest Hlook; simpl in *;
    try done.
  - injection Hlook as ->. lia.
  - specialize (IH t code rest Hlook). lia.
Qed.

Lemma holders_outside (callers : list (list threads.instr)) :
  Forall (λ code, threads.inside code = false) callers →
  threads.holders callers = 0%nat.
Proof. induction 1 as [|code callers Hc _ IH]; simpl; [done|]. by rewrite Hc, IH. Qed.

Lemma boot_exclusive st callers :
  Forall (λ code, threads.well_locked false code = true) callers →
  threads.exclusive (threads.boot st callers).
Proof.
  intros Hall. unfold threads.exclusive. simpl.
  assert (Forall (λ code, threads.inside code = false) callers) as Hout.
  { eapply Forall_impl; [exact Hall|]. intros code. apply well_locked_inside. }
  split_and!; [|lia|].
  - rewrite Forall_forall in Hall, Hout. apply Forall_forall. intros code Hin.
    rewrite (Hout code Hin). by apply Hall.
  - rewrite (holders_outside _ Hout). lia.
Qed.

Lemma boot_counted st callers :
  Forall (λ code, threads.balanced false code = true) callers →
  threads.counted (threads.boot st callers).
Proof.
  intros Hall. unfold threads.counted. simpl.
  assert (Forall (λ code, threads.inside code = false) callers) as Hout.
  { eapply Forall_impl; [exact Hall|]. intros code. apply balanced_inside. }
  split_and!; [|lia|].
  - rewrite Forall_forall in Hall, Hout. apply Forall_forall. intros code Hin.
    rewrite (Hout code Hin). by apply Hall.
  - rewrite (holders_outside _ Hout). lia.
Qed.

(** What a step does to the semaphore and to the code of the callers. *)
Lemma next_pool t m m' :
  threads.next t m = Some m' →
  ∃ i rest,
    threads.pool m !! t = Some (i :: rest) ∧
    threads.pool m' = <[t := rest]> (threads.pool m) ∧
    threads.um_lock m' =
      match i with
      | threads.sem_wait => threads.um_lock m - 1
      | threads.sem_post => threads.um_lock m + 1
      | _ => threads.um_lock m
      end ∧
    (i = threads.sem_wait → 0 < threads.um_lock m).
Proof.
  unfold threads.next.
  destruct (threads.pool m !! t) as [[|i rest]|] eqn:Hlook; try done.
  intros H. exists i, rest. split; [done|].
  destruct i; try (injection H as <-; by split_and!).
  destruct (0 <? threads.um_lock m) eqn:Hfree; [|done].
  apply Z.ltb_lt in Hfree. injection H as <-. by split_and!.
Qed.

Lemma next_exclusive t m m' :
  threads.exclusive m → threads.next t m = Some m' → threads.exclusive m'.
Proof.
  intros (Hall & Hpos & Hsum) (i & rest & Hlook & Hpool & Hlock & Hfree)%next_pool.
  assert (threads.well_locked (threads.inside (i :: rest)) (i :: rest) = true) as Hcode.
  { rewrite Forall_forall in Hall. apply Hall. by eapply list_elem_of_lookup_2. }
  pose proof (holders_insert _ _ _ rest Hlook) as Hcount.
  pose proof (well_locked_tail _ _ Hcode) as Htail.
  unfold threads.exclusive. rewrite Hpool, Hlock. split.
  { by apply Forall_insert. }
  destruct i; simpl in Hcode, Hcount;
    try specialize (Hfree eq_refl);
    try (pose proof (well_locked_inside _ _ Hcode) as Hin; rewrite Hin in Hcount);
    lia.
Qed.

Lemma next_counted t m m' :
  threads.counted m → threads.next t m = Some m' → threads.counted m'.
Proof.
  intros (Hall & Hpos & Hsum) (i & rest & Hlook & Hpool & Hlock & Hfree)%next_pool.
  assert (threads.balanced (threads.inside (i :: rest)) (i :: rest) = true) as Hcode.
  { rewrite Forall_forall in Hall. apply Hall. by eapply list_elem_of_lookup_2. }
  pose proof (holders_insert _ _ _ rest Hlook) as Hcount.
  pose proof (balanced_tail _ _ Hcode) as Htail.
  unfold threads.counted. rewrite Hpool, Hlock. split.
  { by apply Forall_insert. }
  destruct i; simpl in Hcode, Hcount;
    try specialize (Hfree eq_refl);
    try (pose proof (balanced_inside _ _ Hcode) as Hin; rewrite Hin in Hcount);
    lia.
Qed.

Lemma exec_exclusive schedule :
  ∀ m m', threads.exclusive m → threads.exec schedule m = Some m' →
          threads.exclusive m'.
Proof.
  induction schedule as [|t schedule IH]; intros m m' Hm; simpl.
  - by intros [= <-].
  - destruct (threads.next t m) as [m1|] eqn:Hnext; [|done].
    apply IH. by eapply next_exclusive.
Qed.

Lemma exec_counted schedule :
  ∀ m m', threads.counted m → threads.exec schedule m = Some m' →
          threads.counted m'.
Proof.
  induction schedule as [|t schedule IH]; intros m m' Hm; simpl.
  - by intros [= <-].
  - destruct (threads.next t m) as [m1|] eqn:Hnext; [|done].
    apply IH. by eapply next_counted.
Qed.

(** A caller whose code is well locked keeps well-locked code, whatever the
    other callers run. *)
Lemma exec_well_locked t schedule :
  ∀ m m' code,
    threads.exec schedule m = Some m' →
    threads.pool m !! t = Some code →
    threads.well_locked (threads.inside code) code = true →
    ∃ code', threads.pool m' !! t = Some code' ∧
             threads.well_locked (threads.inside code') code' = true.
Proof.
  induction schedule as [|t' schedule IH]; intros m m' code; simpl.
  - intros [= <-]. eauto.
  - destruct (threads.next t' m) as [m1|] eqn:Hnext; [|done].
    intros Hexec Hlook Hcode.
    apply next_pool in Hnext as (i & rest & Hlook' & Hpool & _).
    destruct (decide (t' = t)) as [->|Hne].
    + rewrite Hlook in Hlook'. injection Hlook' as ->.
      apply (IH m1 m' rest Hexec).
      * rewrite Hpool. apply list_lookup_insert_eq. by eapply lookup_lt_Some.
      * by eapply well_locked_tail.
    + apply (IH m1 m' code Hexec); [|done].
      rewrite Hpool. by rewrite list_lookup_insert_ne.
Qed.

(** A caller whose next step is not a wait holds the lock. *)
Lemma exclusive_holder m t i rest :
  threads.exclusive m →
  threads.pool m !! t = Some (i :: rest) →
  i ≠ threads.sem_wait →
  threads.um_lock m = 0 ∧ threads.holders (threads.pool m) = 1%nat.
Proof.
  intros (Hall & Hpos & Hsum) Hlook Hi.
  assert (threads.inside (i :: rest) = true) as Hin.
  { rewrite Forall_forall in Hall.
    assert (threads.well_locked (threads.inside (i :: rest)) (i :: rest) = true)
      as Hcode by (apply Hall; by eapply list_elem_of_lookup_2).
    destruct i; [by destruct Hi|done|..]; simpl in *;
      by apply andb_true_iff in Hcode as [-> _]. }
  pose proof (holders_insert _ _ _ [] Hlook) as Hcount.
  rewrite Hin in Hcount. simpl in Hcount. lia.
Qed.

(** The same of one caller with well-locked code among callers that only
    wait and post in turn. *)
Lemma counted_holder m t i rest :
  threads.counted m →
  threads.pool m !! t = Some (i :: rest) →
  threads.well_locked (threads.inside (i :: rest)) (i :: rest) = true →
  i ≠ threads.sem_wait →
  threads.inside (i :: rest) = true ∧
  threads.um_lock m = 0 ∧ threads.holders (threads.pool m) = 1%nat.
Proof.
  intros (Hall & Hpos & Hsum) Hlook Hcode Hi.
  assert (threads.inside (i :: rest) = true) as Hin.
  { destruct i; [by destruct Hi|done|..]; simpl in *;
      by apply andb_true_iff in Hcode as [-> _]. }
  pose proof (holders_insert _ _ _ [] Hlook) as Hcount.
  rewrite Hin in Hcount. simpl in Hcount. split; [done|lia].
Qed.

(** The public operations wait and post in turn. *)
Lemma operations_well_locked hours threshold force_report stat r now :
  threads.well_locked false (threads.report r now) = true ∧
  threads.well_locked false (threads.dump hours threshold force_report r now) = true ∧
  threads.well_locked false (threads.set_charger_state stat r) = true.
Proof. by destruct force_report. Qed.

(** Every operation waits and posts in turn; all but [init] touch the
    members inside the lock only. *)
Lemma programs_balanced (o : threads.operation) :
  threads.balanced false (threads.program o) = true.
Proof. destruct o as [| ? ? [] ? ?| | |]; reflexivity. Qed.

Lemma programs_well_locked (o : threads.operation) :
  threads.well_locked false (threads.program o) =
    match o with
    | threads.op_init _ _ _ => false
    | _ => true
    end.
Proof. destruct o as [| ? ? [] ? ?| | |]; reflexivity. Qed.

(** The steps of [init], run alone from a free lock, make
    [uid_monitor.init]. *)
Lemma init_run_alone stat r now st :
  threads.exec (replicate 6 0%nat) (threads.boot st [threads.init stat r now]) =
    Some {| threads.um_lock := 1;
            threads.monitor := uid_monitor.init stat r now st;
            threads.pool := [[]];
            threads.results := [];
            threads.returned :=
              <[0%nat := uid_monitor.stats (uid_monitor.get_uid_io_stats_locked r st)]> ∅ |}.
Proof. reflexivity. Qed.

(** * The properties *)

(** C4 (amended). In the delta step of one uid, for each of the 4
    direction x priority counters: the cell of the current charger state
    receives the clamped delta of the counter, modulo 2^64, and the cell of
    the other charger state is left as it was; the clamped delta is exactly 0
    when the current value is below the previous one by at most 2^63, and it
    is the difference current - previous when the current value is not below
    the previous one and above it by less than 2^63, whatever the other
    counters of the uid do. *)
Theorem C4_clamped_delta_per_counter
    (k : charger_stat_t) (last : gmap Z uid_info)
    (curr : gmap string uid_io_usage) (u : uid_info) :
  let previous := default uid_info_zero (last !! uid u) in
  let before := uid_ios (default uid_io_usage_zero (curr !! name u)) in
  ∃ usage,
    account_uid k last curr u !! name u = Some usage ∧
    ∀ (i : io_type_t) (j : uid_stat_t),
      let c := counter i (at2 (io u) j) in
      let p := counter i (at2 (io previous) j) in
      cell (uid_ios usage) i j k =
        wrap64 (cell before i j k + clamped_delta i j (io u) (io previous)) ∧
      (∀ k', k' ≠ k → cell (uid_ios usage) i j k' = cell before i j k') ∧
      (0 ≤ c → c < p → p < 2 ^ 64 → p - c ≤ 2 ^ 63 →
       clamped_delta i j (io u) (io previous) = 0) ∧
      (0 ≤ p → p ≤ c → c < 2 ^ 64 → c - p < 2 ^ 63 →
       clamped_delta i j (io u) (io previous) = c - p).
Proof.
  intros previous before.
  eexists. split; [apply account_uid_lookup|]. simpl.
  intros i j. split_and!.
  - rewrite cell_add_deltas. by case_decide.
  - intros k' Hk. rewrite cell_add_deltas. by case_decide.
  - apply clamp_delta_down.
  - apply clamp_delta_up.
Qed.

(** C8. In the delta step of one uid, two tasks with distinct pids and the
    same command name are summed into one entry of the uid's map of task
    usages, the one under that name: its cell of the current charger state
    grows by the clamped deltas of both, and of the other tasks of that
    name, modulo 2^64. *)
Theorem C8_tasks_merged_by_command_name
    (k : charger_stat_t) (last : gmap Z uid_info)
    (curr : gmap string uid_io_usage) (u : uid_info)
    (pid1 pid2 : Z) (t1 t2 : task_info) (i : io_type_t) (j : uid_stat_t) :
  let previous := default uid_info_zero (last !! uid u) in
  let before :=
    default io_usage_zero
      (task_ios (default uid_io_usage_zero (curr !! name u)) !! comm t1) in
  let others :=
    filter (λ t : Z * task_info, comm t.2 = comm t1)
      (map_to_list (delete pid1 (delete pid2 (tasks u)))) in
  pid1 ≠ pid2 →
  tasks u !! pid1 = Some t1 →
  tasks u !! pid2 = Some t2 →
  comm t1 = comm t2 →
  ∃ usage entry,
    account_uid k last curr u !! name u = Some usage ∧
    task_ios usage !! comm t1 = Some entry ∧
    cell entry i j k =
      wrap64 (cell before i j k +
              task_delta i j (tasks previous) (pid1, t1) +
              task_delta i j (tasks previous) (pid2, t2) +
              total (task_delta i j (tasks previous)) others).
Proof.
  intros previous before others Hne H1 H2 Hcomm.
  assert (map_to_list (tasks u) ≡ₚ
          (pid1, t1) :: (pid2, t2) :: map_to_list (delete pid1 (delete pid2 (tasks u))))
    as Hperm.
  { rewrite <- (map_to_list_delete (tasks u) pid2 t2 H2).
    rewrite <- (map_to_list_delete (delete pid2 (tasks u)) pid1 t1)
      by (by rewrite lookup_delete_ne).
    apply perm_swap. }
  assert (is_Some (foldl (account_task k (tasks previous))
            (task_ios (default uid_io_usage_zero (curr !! name u)))
            (map_to_list (tasks u)) !! comm t1)) as [entry Hentry].
  { apply account_tasks_is_Some. right. exists (pid1, t1).
    split; [by apply elem_of_map_to_list|done]. }
  eexists _, entry. split; [apply account_uid_lookup|]. simpl.
  split; [done|].
  pose proof (account_tasks_cell k (tasks previous) (comm t1) i j
    (map_to_list (tasks u))
    (task_ios (default uid_io_usage_zero (curr !! name u)))) as Hcell.
  rewrite Hentry in Hcell. simpl in Hcell. rewrite Hcell.
  rewrite foldl_wrap64_total.
  - f_equal. fold before.
    rewrite (total_perm _ _ _ (filter_Permutation _ _ _ Hperm)).
    rewrite filter_cons_True by done.
    rewrite filter_cons_True by (by simpl).
    fold others. simpl. lia.
  - intros Hnil.
    eapply (filter_nil_not_elem_of _ _ (pid1, t1)); [exact Hnil|done|].
    by apply elem_of_map_to_list.
Qed.

(** C9 (amended). The accumulator keeps its running totals per display
    name, not per uid: after a delta step on a non-empty snapshot, the entry
    under a name is what the uids of the sample that carry this name have
    accrued into the entry the name had before, and it exists as soon as one
    uid carries the name; a name that no uid of the sample carries keeps its
    entry untouched.  Two uids share an entry exactly when they have the same
    name. *)
Theorem C9_accumulator_keyed_by_name (r : reading) (st : uid_monitor.state) (n : string) :
  let snap := uid_monitor.get_uid_io_stats_locked r st in
  let sample := (map_to_list (uid_monitor.stats snap)).*2 in
  let step := account_uid (uid_monitor.charger_stat st)
                (uid_monitor.last_uid_io_stats st) in
  let after := uid_monitor.curr_io_stats
                 (uid_monitor.update_curr_io_stats_locked r st) in
  uid_monitor.stats snap ≠ ∅ →
  after !! n =
    foldl step (uid_monitor.curr_io_stats st) (filter (λ u, name u = n) sample) !! n ∧
  ((∃ u, u ∈ sample ∧ name u = n) → is_Some (after !! n)) ∧
  ((∀ u, u ∈ sample → name u ≠ n) → after !! n = uid_monitor.curr_io_stats st !! n).
Proof.
  intros snap sample step after Hne.
  assert (after = foldl step (uid_monitor.curr_io_stats st) sample) as ->.
  { unfold after, uid_monitor.update_curr_io_stats_locked. by case_decide. }
  split; [apply account_uids_by_name|]. split.
  - intros Hu. apply account_uids_is_Some. by right.
  - intros Hnone. unfold step. rewrite account_uids_by_name.
    destruct (filter (λ u, name u = n) sample) as [|x l] eqn:Hf; [done|].
    assert (x ∈ filter (λ u, name u = n) sample) as [Hx Hin]%list_elem_of_filter
      by (rewrite Hf; left).
    by destruct (Hnone x Hin).
Qed.

(** C10. A flush decides on the uid-level usage alone whether an entry of
    the accumulator becomes a record: an entry whose uid-level usage is all
    zero gives no record under its name in the candidate bucket, whatever its
    task usages are, and since the flush empties the accumulator and every
    bucket of the store afterwards is a bucket held before or the candidate,
    those task usages are stored nowhere; an entry with non-zero uid-level
    usage gives a record with that usage, whose task map holds exactly the
    tasks of the entry with non-zero usage. *)
Theorem C10_record_built_from_uid_usage
    (st : uid_monitor.state) (curr_ts : Z) (n : string) (usage : uid_io_usage) :
  let candidate := uid_monitor.new_entries (uid_monitor.curr_io_stats st) in
  let st' := uid_monitor.add_records_locked curr_ts st in
  uid_monitor.curr_io_stats st !! n = Some usage →
  (is_zero (uid_ios usage) = true → ∀ rec, rec ∈ candidate → rec_name rec ≠ n) ∧
  (is_zero (uid_ios usage) = false →
     ∃ rec, rec ∈ candidate ∧ rec_name rec = n ∧
            uid_ios (ios rec) = uid_ios usage ∧
            ∀ c, task_ios (ios rec) !! c =
                 match task_ios usage !! c with
                 | Some t => if is_zero t then None else Some t
                 | None => None
                 end) ∧
  uid_monitor.curr_io_stats st' = ∅ ∧
  (∀ kb, kb ∈ uid_monitor.records st' →
     kb ∈ uid_monitor.records st ∨
     kb = (curr_ts, mk_uid_records (uid_monitor.start_ts st) candidate)).
Proof.
  intros candidate st' Hn. split_and!.
  - intros Hz rec (p & Hp & Hrec)%list_elem_of_omap Hname.
    destruct p as [n' usage']. apply elem_of_map_to_list in Hp.
    unfold make_record in Hrec. simpl in Hrec.
    destruct (is_zero (uid_ios usage')) eqn:Hz'; [done|].
    injection Hrec as <-. simpl in Hname. subst n'. congruence.
  - intros Hz. eexists. split_and!.
    + apply list_elem_of_omap. exists (n, usage).
      split; [by apply elem_of_map_to_list|].
      unfold make_record. simpl. by rewrite Hz.
    + done.
    + done.
    + intros c. simpl. rewrite map_lookup_filter.
      destruct (task_ios usage !! c) as [t|]; simpl; [|done].
      destruct (is_zero t) eqn:Ht.
      * by rewrite option_guard_False by (simpl; congruence).
      * by rewrite option_guard_True.
  - done.
  - intros kb Hkb. destruct (flush_shape curr_ts st) as [m Hm].
    fold st' in Hm. rewrite Hm in Hkb. fold candidate in Hkb.
    assert (∀ x, x ∈ drop m (uid_monitor.records st) → x ∈ uid_monitor.records st)
      as Hdrop.
    { intros x. apply subseteq_drop. }
    destruct candidate as [|e es] eqn:Hc.
    + left. by apply Hdrop.
    + apply elem_of_assign in Hkb as [->|Hkb]; [by right|]. left. by apply Hdrop.
Qed.

(** C5. After a report at a timestamp above 432000, every bucket of the
    record store has a key of at least the timestamp less 432000; at a
    timestamp of at most 432000 the pruning step leaves the store as it is,
    so that the report changes the store by the flush of the candidate
    alone. *)
Theorem C5_retention_window (r : reading) (now : Z) (st : uid_monitor.state) :
  store.ordered (uid_monitor.records st) →
  (432000 < now →
     ∀ kb, kb ∈ uid_monitor.records (uid_monitor.report r now st) →
           now - 432000 ≤ kb.1) ∧
  (now ≤ 432000 →
     uid_monitor.prune now (uid_monitor.records st) = uid_monitor.records st ∧
     uid_monitor.records (uid_monitor.report r now st) =
       let st1 := uid_monitor.update_curr_io_stats_locked r st in
       match uid_monitor.new_entries (uid_monitor.curr_io_stats st1) with
       | [] => uid_monitor.records st
       | entries =>
           uid_monitor.insert_records now
             (mk_uid_records (uid_monitor.start_ts st) entries)
             (uid_monitor.records st)
       end).
Proof.
  intros Hord. split.
  - intros Hnow kb. unfold uid_monitor.report, uid_monitor.add_records_locked.
    simpl. rewrite update_records.
    assert (∀ x, x ∈ uid_monitor.prune now (uid_monitor.records st) →
                 now - 432000 ≤ x.1) as Hpruned.
    { intros x. unfold uid_monitor.prune, DAY_TO_SEC.
      destruct (5 * 86400 <? now) eqn:Hlt; [|apply Z.ltb_ge in Hlt; lia].
      intros Hx. apply (lower_bound_ge _ _ _ Hord) in Hx. lia. }
    destruct (uid_monitor.new_entries _) as [|e es]; [apply Hpruned|].
    unfold uid_monitor.insert_records.
    intros [->|Hkb]%elem_of_assign; [simpl; lia|].
    match type of Hkb with
    | _ ∈ make_room ?o ?m => destruct (make_room_drop o m) as [n Hn]
    end.
    rewrite Hn in Hkb. by apply Hpruned, (subseteq_drop n).
  - intros Hnow.
    assert (uid_monitor.prune now (uid_monitor.records st) = uid_monitor.records st)
      as Hprune.
    { unfold uid_monitor.prune, DAY_TO_SEC.
      destruct (5 * 86400 <? now) eqn:Hlt; [apply Z.ltb_lt in Hlt; lia|done]. }
    split; [done|].
    unfold uid_monitor.report, uid_monitor.add_records_locked. simpl.
    rewrite update_records, update_start_ts, Hprune. by case_match.
Qed.


(** C1 (amended). Along any history of calls in which every flush has a
    candidate bucket of at most 1000 x 48 records, the record store never
    holds more than 1000 x 48 records and stays ordered by timestamp; and a
    flush removes whole buckets only, from the oldest on: the store after a
    report is the store before without its first [n] buckets, for some [n],
    with the candidate assigned under the report's timestamp if it is not
    empty. *)
Theorem C1_cap_while_candidates_fit (calls : list call) (st : uid_monitor.state) :
  store.ordered (uid_monitor.records st) →
  Z.of_nat (stored_records (uid_monitor.records st)) ≤ MAX_UID_RECORDS_SIZE →
  flushes_fit st calls →
  let st' := run st calls in
  store.ordered (uid_monitor.records st') ∧
  Z.of_nat (stored_records (uid_monitor.records st')) ≤ MAX_UID_RECORDS_SIZE ∧
  ∀ r now, ∃ n,
    uid_monitor.records (uid_monitor.report r now st') =
      match uid_monitor.new_entries
              (uid_monitor.curr_io_stats
                 (uid_monitor.update_curr_io_stats_locked r st')) with
      | [] => drop n (uid_monitor.records st')
      | entries =>
          store.assign now (mk_uid_records (uid_monitor.start_ts st') entries)
            (drop n (uid_monitor.records st'))
      end.
Proof.
  revert st. induction calls as [|c calls IH]; intros st Hord Hcap Hfit.
  - change (run st []) with st. cbv zeta. split_and!; [done..|].
    intros r now. unfold uid_monitor.report.
    destruct (flush_shape now (uid_monitor.update_curr_io_stats_locked r st))
      as [n Hn].
    exists n. by rewrite Hn, update_records, update_start_ts.
  - destruct Hfit as [Hc Hrest].
    destruct (step_keeps_store st c Hord Hcap) as [Hord' Hcap']; [by split|].
    apply (IH (step st c) Hord' Hcap' Hrest).
Qed.

(** C6 (amended). Every bucket that [dump] returns stands for a stored
    bucket of the same key, with its start_ts, holding exactly the records of
    that bucket whose eight cells sum, modulo 2^64, to more than the
    threshold, and at least one of them; such a record's eight cells sum to
    more than the threshold as integers too.  With hours = 0, threshold = 0
    and no forced report, [dump] returns every stored bucket that is not
    empty, as it is, provided that no stored record has cells that sum to 0
    modulo 2^64. *)
Theorem C6_dump_filter
    (st : uid_monitor.state) (r : reading) (now : Z) :
  store.ordered (uid_monitor.records st) →
  (∀ kb, kb ∈ uid_monitor.records st → 0 ≤ kb.1) →
  (∀ hours threshold kb,
     kb ∈ uid_monitor.dump_locked hours threshold st →
     entries kb.2 ≠ [] ∧
     (∀ rec, rec ∈ entries kb.2 →
        threshold < usage_sum (uid_ios (ios rec)) ∧
        (cells_nonneg (uid_ios (ios rec)) →
         threshold < cells_total (uid_ios (ios rec)))) ∧
     ∃ stored,
       (kb.1, stored) ∈ uid_monitor.records st ∧
       start_ts kb.2 = start_ts stored ∧
       entries kb.2 =
         filter (λ rec, over_threshold threshold rec = true) (entries stored)) ∧
  ((∀ kb, kb ∈ uid_monitor.records st →
      Forall (λ rec, usage_sum (uid_ios (ios rec)) ≠ 0) (entries kb.2)) →
   (uid_monitor.dump hours_zero 0 false r now st).1 =
     filter (λ kb, entries kb.2 ≠ []) (uid_monitor.records st)).
Proof.
  intros Hord Hkeys. split.
  - intros hours threshold kb. rewrite dump_locked_omap by done.
    intros (it & Hit%lower_bound_subset & Hone)%list_elem_of_omap.
    destruct (dump_one_Some _ _ _ Hone) as (Hk & Hs & Hne & Hf).
    split_and!; [done| |].
    + intros rec Hrec. rewrite Hf in Hrec.
      apply list_elem_of_filter in Hrec as [Hover _].
      unfold over_threshold in Hover. apply Z.ltb_lt in Hover.
      split; [done|]. intros Hcells.
      pose proof (usage_sum_le_total _ Hcells). lia.
    + exists it.2. rewrite Hk. by destruct it.
  - intros Hall. simpl. rewrite dump_locked_omap by done.
    rewrite lower_bound_all by done.
    apply omap_filter. intros it Hit. by apply dump_one_zero, Hall.
Qed.

(** C3 (amended). When the read of the raw stats fails or yields an empty
    snapshot, the delta step is a no-op: it leaves the last snapshot, the
    accumulator, the record store, the start time and the refresh flag as
    they were.  The report cycle is not skipped: it still runs the flush on
    that state, and keeps the last snapshot.  When the snapshot is not empty,
    the last snapshot is replaced wholesale by it. *)
Theorem C3_empty_snapshot_skips_delta_step
    (r : reading) (now : Z) (st : uid_monitor.state) :
  let snap := uid_monitor.get_uid_io_stats_locked r st in
  (file r = None → uid_monitor.stats snap = ∅) ∧
  (uid_monitor.stats snap = ∅ →
     uid_monitor.update_curr_io_stats_locked r st = st ∧
     uid_monitor.report r now st = uid_monitor.add_records_locked now st ∧
     uid_monitor.last_uid_io_stats (uid_monitor.report r now st) =
       uid_monitor.last_uid_io_stats st) ∧
  (uid_monitor.stats snap ≠ ∅ →
     uid_monitor.last_uid_io_stats (uid_monitor.report r now st) =
       uid_monitor.stats snap).
Proof.
  intros snap. split_and!.
  - apply failed_read_empty.
  - intros Hempty. unfold uid_monitor.report.
    rewrite (update_empty r st Hempty). done.
  - intros Hne. unfold uid_monitor.report, uid_monitor.add_records_locked,
      uid_monitor.update_curr_io_stats_locked. simpl. by case_decide.
Qed.

(** C7 (amended). A sample asks the package manager for names exactly when
    it has a well-formed uid row and the refresh flag is set, by a uid of the
    sample that the last snapshot does not hold or by an earlier sample whose
    lookup failed; it then asks for every uid of the sample, named or not,
    one entry per well-formed uid row in file order, each uid converted to
    [int].  A uid of the sample has the name the last snapshot kept for it
    (its number in decimal if it is new) whenever no lookup is made or the
    lookup fails.  After a lookup answered with a name for every entry of
    the request, a uid has the last name that the answer gives at one of its
    own positions and that is not empty, and the name carried forward if
    there is none; in a sample that has each uid in one row, the uid of
    row [i] has name [i] of the answer if that is not empty, and the name
    carried forward otherwise. *)
Theorem C7_name_lookup
    (r : reading) (st : uid_monitor.state) (rows : list stats_row) :
  let snap := uid_monitor.get_uid_io_stats_locked r st in
  let last := uid_monitor.last_uid_io_stats st in
  file r = Some rows →
  uid_monitor.asked snap =
    (if looks_up st rows then Some (to_int <$> uid_rows rows) else None) ∧
  (looks_up st rows = false ∨ names_reply r = None →
     ∀ n, n ∈ uid_rows rows →
       ∃ info, uid_monitor.stats snap !! n = Some info ∧
               name info = carried_name last n) ∧
  (∀ names,
     looks_up st rows = true → names_reply r = Some names →
     (length (uid_rows rows) ≤ length names)%nat →
     (∀ n, n ∈ uid_rows rows →
        ∃ info, uid_monitor.stats snap !! n = Some info ∧
                name info =
                  default (carried_name last n) (own_answer (uid_rows rows) names n)) ∧
     (NoDup (uid_rows rows) →
      ∀ (i : nat) n s,
        uid_rows rows !! i = Some n → names !! i = Some s →
        ∃ info, uid_monitor.stats snap !! n = Some info ∧
                name info =
                  if decide (s = EmptyString) then carried_name last n else s)).
Proof.
  intros snap last Hfile. subst snap.
  unfold uid_monitor.get_uid_io_stats_locked. rewrite Hfile.
  set (s0 := {| uid_monitor.u_uid := stack_uid r; uid_monitor.uid_io_stats := ∅;
                uid_monitor.uids := []; uid_monitor.uid_names := [];
                uid_monitor.refresh := _ |}).
  assert (scan_named last s0) as Hs0.
  { intros n Hn. by apply elem_of_nil in Hn. }
  pose proof (scan_named_fold last rows s0 Hs0) as Hnamed.
  pose proof (scan_uids last rows s0) as Huids.
  pose proof (scan_uid_names last rows s0) as Hkeys.
  pose proof (scan_refresh last rows s0) as Href.
  fold last. set (s := foldl _ s0 rows) in *. simpl in Huids, Hkeys, Href.
  unfold scan_named in Hnamed. rewrite Hkeys in Hnamed.
  rewrite Huids, Hkeys, Href, request_empty. unfold looks_up. fold last.
  assert (∀ names n, n ∈ uid_rows rows →
            ∃ info, uid_monitor.store_names (uid_monitor.uid_io_stats s)
                      (uid_rows rows) names !! n = Some info ∧
                    name info =
                      default (carried_name last n)
                        (own_answer (uid_rows rows) names n)) as Hexact.
  { intros names n Hn. destruct (Hnamed n Hn) as (info0 & Hi0 & Hname0).
    rewrite store_names_exact, Hi0. simpl. eexists. split; [done|].
    by destruct (own_answer _ _ _). }
  destruct (bool_decide (uid_rows rows ≠ []) && _) eqn:Hlook;
    destruct (names_reply r) as [names|];
    simpl; (split; [done|]); split.
  - by intros [|].
  - intros names' _ [= <-] _. split; [apply Hexact|].
    intros Hnd i n nm Hi Hnm.
    destruct (Hexact names n (list_elem_of_lookup_2 _ _ _ Hi)) as (info & Hinfo & Hname).
    exists info. split; [done|]. rewrite Hname.
    unfold own_answer. rewrite (own_answers_position _ _ _ _ _ Hnd Hi Hnm).
    by case_decide.
  - intros _ n Hn. by apply Hnamed.
  - by intros names _ [=].
  - intros _ n Hn. by apply Hnamed.
  - by intros names' [=].
  - intros _ n Hn. by apply Hnamed.
  - by intros names [=].
Qed.

(** C2 (amended). [dump] with force_report = true takes the lock twice, one
    time after the other: the flush runs in the critical section of
    [report], which ends before [dump] takes the lock for the filtering.  Run
    alone from a free lock the call never waits on a lock it holds; the lock
    is held during the flush and during the filtering and is free in between;
    the call returns what [uid_monitor.dump] computes.  Run with callers of
    any operations of the monitor under any schedule, at most one caller
    holds the lock at a time, and a caller of an operation that touches the
    members inside its guard only, as [report], [dump], [set_charger_state]
    and [get_uid_io_stats] do, holds the lock whenever its next step is a
    step on the members or the post.  [init] is not such an operation: it
    holds the lock only inside [get_uid_io_stats()], and its assignments can
    run while another caller holds the lock: those of [charger_stat] and
    [start_ts] inside the critical section of the flush, and the one of
    [last_uid_io_stats] inside the critical section of the filtering. *)
Theorem C2_dump_force_two_critical_sections
    (hours : hours_t) (threshold : Z) (r : reading) (now : Z)
    (st : uid_monitor.state) :
  let caller := threads.dump hours threshold true r now in
  threads.lock_trace (replicate 7 0%nat) (threads.boot st [caller]) =
    [1; 0; 0; 0; 1; 0; 0; 1] ∧
  threads.exec (replicate 4 0%nat) (threads.boot st [caller]) =
    Some {| threads.um_lock := 1;
            threads.monitor := uid_monitor.report r now st;
            threads.pool := [threads.dump hours threshold false r now];
            threads.results := [];
            threads.returned := ∅ |} ∧
  threads.exec (replicate 7 0%nat) (threads.boot st [caller]) =
    Some {| threads.um_lock := 1;
            threads.monitor := (uid_monitor.dump hours threshold true r now st).2;
            threads.pool := [[]];
            threads.results :=
              [(0%nat, (uid_monitor.dump hours threshold true r now st).1)];
            threads.returned := ∅ |} ∧
  (∀ (others : list threads.operation) schedule m,
     let callers := caller :: (threads.program <$> others) in
     threads.exec schedule (threads.boot st callers) = Some m →
     (threads.holders (threads.pool m) ≤ 1)%nat ∧
     ∀ (t : nat) code i rest,
       callers !! t = Some code →
       threads.well_locked false code = true →
       threads.pool m !! t = Some (i :: rest) → i ≠ threads.sem_wait →
       threads.inside (i :: rest) = true ∧
       threads.um_lock m = 0 ∧ threads.holders (threads.pool m) = 1%nat) ∧
  (∀ o, threads.well_locked false (threads.program o) =
          match o with
          | threads.op_init _ _ _ => false
          | _ => true
          end) ∧
  (∀ stat r' now',
     threads.exec [0; 1; 1]%nat
       (threads.boot st [caller; threads.init stat r' now']) =
       Some {| threads.um_lock := 0;
               threads.monitor :=
                 uid_monitor.set_start_ts now' (uid_monitor.set_charger_stat stat st);
               threads.pool :=
                 [ [ threads.member (uid_monitor.update_curr_io_stats_locked r);
                     threads.member (uid_monitor.add_records_locked now);
                     threads.sem_post;
                     threads.sem_wait;
                     threads.answer (uid_monitor.dump_locked hours threshold);
                     threads.sem_post ];
                   threads.get_uid_io_stats r' ++
                   [threads.assign uid_monitor.set_last_uid_io_stats] ];
               threads.results := [];
               threads.returned := ∅ |} ∧
     threads.exec [1; 1; 1; 1; 1; 0; 1]%nat
       (threads.boot st [caller; threads.init stat r' now']) =
       Some {| threads.um_lock := 0;
               threads.monitor := uid_monitor.init stat r' now' st;
               threads.pool :=
                 [ [ threads.member (uid_monitor.update_curr_io_stats_locked r);
                     threads.member (uid_monitor.add_records_locked now);
                     threads.sem_post;
                     threads.sem_wait;
                     threads.answer (uid_monitor.dump_locked hours threshold);
                     threads.sem_post ];
                   [] ];
               threads.results := [];
               threads.returned :=
                 <[1%nat := uid_monitor.stats (uid_monitor.get_uid_io_stats_locked r' st)]> ∅ |}).
Proof.
  intros caller. split_and!; [done..| |apply programs_well_locked|done].
  intros others schedule m callers Hexec.
  assert (threads.counted m) as Hm.
  { eapply exec_counted; [|exact Hexec].
    apply boot_counted. constructor; [done|].
    apply Forall_fmap, Forall_forall. intros o _. apply programs_balanced. }
  split.
  - destruct Hm as (_ & Hpos & Hsum). lia.
  - intros t code i rest Hcode Hwl Hlook Hi.
    destruct (exec_well_locked t schedule _ m code Hexec) as (code' & Hlook' & Hwl').
    + exact Hcode.
    + by rewrite (well_locked_inside _ _ Hwl).
    + rewrite Hlook in Hlook'. injection Hlook' as <-.
      by apply (counted_holder m t).
Qed.

(** * The properties on concrete readings *)

(** C3, as stated, fails: a report whose read of the raw stats fails is not
    a no-op.  On [sample.unplugged], whose accumulator holds 50 bytes of uid
    1000 accrued since time 10, such a report at time 20 stores a bucket,
    empties the accumulator and moves the start time to 20. *)
Lemma C3_failed_read_still_flushes :
  let st := sample.unplugged in
  let st' := uid_monitor.report sample.read_failed 20 st in
  file sample.read_failed = None ∧
  uid_monitor.start_ts st = 10 ∧ uid_monitor.start_ts st' = 20 ∧
  uid_monitor.records st = [] ∧ store.keys (uid_monitor.records st') = [20] ∧
  size (uid_monitor.curr_io_stats st) = 1%nat ∧
  uid_monitor.curr_io_stats st' = ∅ ∧
  st' ≠ st.
Proof.
  split_and!; try (vm_compute; reflexivity).
  intros H. apply (f_equal uid_monitor.start_ts) in H. vm_compute in H. discriminate H.
Qed.

(** C4, as stated, fails: with 2^64 - 1 as previous value and 0 as current
    value of the foreground read counter, the current value is below the
    previous one and the delta added to the empty accumulator is 1, not 0. *)
Lemma C4_wraparound_adds_one :
  let st := sample.saturated in
  let previous := default uid_info_zero (uid_monitor.last_uid_io_stats st !! 1000) in
  let current :=
    default uid_info_zero
      (uid_monitor.stats (uid_monitor.get_uid_io_stats_locked sample.wrapped st) !! 1000) in
  let usage :=
    default uid_io_usage_zero
      (uid_monitor.curr_io_stats
         (uid_monitor.update_curr_io_stats_locked sample.wrapped st) !! "1000"%string) in
  uid_monitor.curr_io_stats st = ∅ ∧
  counter READ (at2 (io previous) FOREGROUND) = 2 ^ 64 - 1 ∧
  counter READ (at2 (io current) FOREGROUND) = 0 ∧
  cell (uid_ios usage) READ FOREGROUND CHARGER_ON = 1.
Proof. split_and!; vm_compute; reflexivity. Qed.

(** C6, as stated, fails: a report on [sample.huge] stores a bucket with one
    record, whose cells are 2^63 - 1, 1, 2^63 - 1 and 1; their sum is 0
    modulo 2^64, and [dump] with hours = 0 and threshold = 0 returns
    nothing. *)
Lemma C6_record_summing_to_2_64_dropped :
  let st := uid_monitor.report sample.huge 20 sample.cold in
  store.keys (uid_monitor.records st) = [20] ∧
  stored_records (uid_monitor.records st) = 1%nat ∧
  (uid_monitor.dump hours_zero 0 false sample.read_failed 30 st).1 = [].
Proof. split_and!; vm_compute; reflexivity. Qed.

(** C7, as stated, fails: uid 1000 was named "com.a" by a lookup that
    succeeded; in a sample that also has the new uid 2000 it is sent to the
    package manager again, and the answer "com.b" replaces its name. *)
Lemma C7_named_uid_asked_again :
  let st := sample.named in
  let snap := uid_monitor.get_uid_io_stats_locked sample.newcomer st in
  name <$> uid_monitor.last_uid_io_stats st !! 1000 = Some "com.a"%string ∧
  uid_monitor.refresh_uid_names st = false ∧
  uid_monitor.asked snap = Some [1000; 2000] ∧
  name <$> uid_monitor.stats snap !! 1000 = Some "com.b"%string.
Proof. split_and!; vm_compute; reflexivity. Qed.

(** C9, as stated, fails: uids 10 and 20, which the package manager names
    alike, accrue into one accumulator entry, 5 + 7 bytes, and a flush makes
    one record of them. *)
Lemma C9_two_uids_one_entry :
  let snap := uid_monitor.get_uid_io_stats_locked sample.twins sample.cold in
  let st' := uid_monitor.update_curr_io_stats_locked sample.twins sample.cold in
  uid <$> uid_monitor.stats snap !! 10 = Some 10 ∧
  uid <$> uid_monitor.stats snap !! 20 = Some 20 ∧
  size (uid_monitor.curr_io_stats st') = 1%nat ∧
  (λ u, cell (uid_ios u) READ FOREGROUND CHARGER_ON) <$>
    uid_monitor.curr_io_stats st' !! "shared"%string = Some 12 ∧
  length (uid_monitor.new_entries (uid_monitor.curr_io_stats st')) = 1%nat.
Proof. split_and!; vm_compute; reflexivity. Qed.

(** C2, as stated, fails: a second caller's [report] runs between the flush
    and the filtering of a [dump] with force_report = true.  The schedule
    below runs the four steps of the flush of caller 0, the whole [report] of
    caller 1, then the filtering of caller 0; no step waits, and caller 0 is
    returned the bucket that caller 1 stored as well. *)
Lemma C2_report_between_flush_and_filter :
  let dumping := threads.dump hours_zero 0 true (sample.grown 150) 20 in
  let reporting := threads.report (sample.grown 175) 30 in
  let schedule := [0; 0; 0; 0; 1; 1; 1; 1; 0; 0; 0]%nat in
  match threads.exec schedule (threads.boot sample.booted [dumping; reporting]) with
  | Some m =>
      threads.pool m = [[]; []] ∧
      (λ res, (res.1, store.keys res.2)) <$> threads.results m = [(0%nat, [20; 30])] ∧
      store.keys
        (uid_monitor.dump hours_zero 0 true (sample.grown 150) 20 sample.booted).1
        = [20]
  | None => False
  end ∧
  ¬ threads.uninterrupted 0 schedule.
Proof.
  split.
  - vm_compute. by split_and!.
  - intros H. specialize (H 3 4 8 1)%nat. simpl in H.
    assert (1 = 0)%nat as Hfalse by (apply H; [lia|lia|done..]). discriminate Hfalse.
Qed.

(** C1, as stated, fails: one report on a sample of 48001 uids, each with
    one byte read since the last snapshot, stores a bucket of 48001 records
    in an empty store, above the cap of 1000 x 48. *)
Lemma C1_one_flush_over_the_cap :
  stored_records (uid_monitor.records sample.cold) = 0%nat ∧
  MAX_UID_RECORDS_SIZE <
    Z.of_nat (stored_records
      (uid_monitor.records
         (uid_monitor.report (sample.crowd 48001) 20 sample.cold))).
Proof.
  split; [done|]. rewrite crowd_flush by lia. unfold MAX_UID_RECORDS_SIZE. lia.
Qed.

(** * The properties at work *)

(** C1 on [sample.history], from [sample.booted]: every flush fits, and the
    store ends ordered and under the cap. *)
Lemma C1_history_under_cap :
  flushes_fit sample.booted sample.history ∧
  store.ordered (uid_monitor.records (run sample.booted sample.history)) ∧
  Z.of_nat (stored_records (uid_monitor.records (run sample.booted sample.history)))
    ≤ MAX_UID_RECORDS_SIZE.
Proof.
  assert (flushes_fit sample.booted sample.history) as Hfit.
  { simpl. split_and!; try exact I; evaluate. }
  split; [exact Hfit|].
  destruct (C1_cap_while_candidates_fit sample.history sample.booted)
    as (Hord & Hcap & _).
  - constructor.
  - evaluate.
  - exact Hfit.
  - split; [exact Hord|exact Hcap].
Defined.

(** C3 on a failed read from [sample.unplugged]: the delta step changes
    nothing and the report is the flush. *)
Lemma C3_failed_read_on_unplugged :
  uid_monitor.update_curr_io_stats_locked sample.read_failed sample.unplugged =
    sample.unplugged ∧
  uid_monitor.report sample.read_failed 20 sample.unplugged =
    uid_monitor.add_records_locked 20 sample.unplugged.
Proof.
  destruct (C3_empty_snapshot_skips_delta_step sample.read_failed 20 sample.unplugged)
    as (Hfail & Hempty & _).
  destruct (Hempty (Hfail eq_refl)) as (Hupdate & Hreport & _).
  split; [exact Hupdate|exact Hreport].
Defined.

(** What the callers of [sample_more.two_others] and a forced dump have
    still to run after the schedule [sample_more.crossing]. *)
Lemma crossing_pool :
  threads.pool <$>
    threads.exec sample_more.crossing
      (threads.boot sample.booted
         (threads.dump hours_zero 0 true (sample.grown 150) 20 ::
          (threads.program <$> sample_more.two_others))) =
  Some [ [ threads.sem_wait;
           threads.answer (uid_monitor.dump_locked hours_zero 0);
           threads.sem_post ];
         [ threads.member (uid_monitor.add_records_locked 30);
           threads.sem_post ];
         threads.get_uid_io_stats (sample.grown 160) ++
         [ threads.assign uid_monitor.set_last_uid_io_stats ] ].
Proof. reflexivity. Qed.

(** C2 on a [dump] that forces a report, a [report] of a second caller and
    an [init] of a third, under the schedule [sample_more.crossing]: the
    second caller, in the middle of its [report], is the one holder of the
    lock. *)
Lemma C2_one_holder_at_a_time :
  ∃ m,
    threads.exec sample_more.crossing
      (threads.boot sample.booted
         (threads.dump hours_zero 0 true (sample.grown 150) 20 ::
          (threads.program <$> sample_more.two_others))) = Some m ∧
    (threads.holders (threads.pool m) ≤ 1)%nat ∧
    threads.um_lock m = 0 ∧
    threads.holders (threads.pool m) = 1%nat.
Proof.
  pose proof crossing_pool as Hpool.
  destruct (threads.exec _ _) as [m|] eqn:Hexec; [|discriminate Hpool].
  injection Hpool as Hpool.
  exists m. split; [reflexivity|].
  destruct (C2_dump_force_two_critical_sections hours_zero 0 (sample.grown 150) 20
              sample.booted) as (_ & _ & _ & Hany & _).
  destruct (Hany sample_more.two_others sample_more.crossing m Hexec)
    as [Hone Hheld].
  split; [exact Hone|].
  destruct (Hheld 1%nat (threads.report (sample.grown 175) 30)
              (threads.member (uid_monitor.add_records_locked 30))
              [threads.sem_post]) as (_ & Hlock & Hcount).
  - reflexivity.
  - reflexivity.
  - rewrite Hpool. reflexivity.
  - discriminate.
  - split; [exact Hlock|exact Hcount].
Defined.

(** C4 on [sample.two_tasks] against [sample.earlier]: the foreground read
    counter went from 30 down to 10 and adds 0, the background write counter
    went from 0 up to 4 and adds 4. *)
Lemma C4_down_and_up :
  clamped_delta READ FOREGROUND (io sample.two_tasks)
    (io (default uid_info_zero (sample.earlier !! 1000))) = 0 ∧
  clamped_delta WRITE BACKGROUND (io sample.two_tasks)
    (io (default uid_info_zero (sample.earlier !! 1000))) = 4.
Proof.
  destruct (C4_clamped_delta_per_counter CHARGER_ON sample.earlier ∅ sample.two_tasks)
    as (usage & _ & Hcells).
  destruct (Hcells READ FOREGROUND) as (_ & _ & Hdown & _).
  destruct (Hcells WRITE BACKGROUND) as (_ & _ & _ & Hup).
  split.
  - apply Hdown; evaluate.
  - apply Hup; evaluate.
Defined.

(** C5 on [sample.stocked] at time 500000: the bucket of key 100 is older
    than 5 days and goes, the bucket of key 450000 stays. *)
Lemma C5_report_at_500000 :
  store.ordered (uid_monitor.records sample.stocked) ∧
  store.keys (uid_monitor.records sample.stocked) = [100; 450000] ∧
  Forall (λ kb, 500000 - 432000 ≤ kb.1)
    (uid_monitor.records (uid_monitor.report sample.read_failed 500000 sample.stocked)).
Proof.
  assert (store.ordered (uid_monitor.records sample.stocked)) as Hord.
  { repeat constructor. }
  split; [exact Hord|]. split; [reflexivity|].
  destruct (C5_retention_window sample.read_failed 500000 sample.stocked Hord)
    as [Hnew _].
  apply Forall_forall. apply Hnew. lia.
Defined.

(** The store of [sample.reported], evaluated. *)
Lemma reported_records :
  uid_monitor.records sample.reported =
    [(20, mk_uid_records 10 [sample.one_record "1000" 50])].
Proof. vm_compute. reflexivity. Qed.

(** C6 on [sample.reported]: the one stored bucket comes back as it is. *)
Lemma C6_dump_of_reported :
  store.keys (uid_monitor.records sample.reported) = [20] ∧
  (uid_monitor.dump hours_zero 0 false sample.read_failed 30 sample.reported).1 =
    filter (λ kb, entries kb.2 ≠ []) (uid_monitor.records sample.reported) ∧
  filter (λ kb : Z * uid_records, entries kb.2 ≠ [])
    (uid_monitor.records sample.reported) = uid_monitor.records sample.reported.
Proof.
  split; [by rewrite reported_records|].
  split; [|by rewrite reported_records].
  destruct (C6_dump_filter sample.reported sample.read_failed 30) as [_ Hall].
  - rewrite reported_records. repeat constructor.
  - intros kb Hkb. rewrite reported_records in Hkb.
    apply list_elem_of_singleton in Hkb. subst kb. simpl. lia.
  - apply Hall. intros kb Hkb. rewrite reported_records in Hkb.
    apply list_elem_of_singleton in Hkb. subst kb.
    repeat constructor. evaluate.
Defined.

Lemma newcomer_rows_distinct :
  NoDup (uid_rows [sample.uid_line 1000 100 0 0 0; sample.uid_line 2000 1 0 0 0]).
Proof. apply (bool_decide_unpack _). vm_compute. reflexivity. Qed.

(** C7 on [sample.newcomer] from [sample.named]: the new uid 2000 sets the
    flag, both uids are sent to the package manager, and uid 2000, the
    second of the request, gets the second name of the answer. *)
Lemma C7_lookup_for_newcomer :
  looks_up sample.named [sample.uid_line 1000 100 0 0 0; sample.uid_line 2000 1 0 0 0]
    = true ∧
  uid_monitor.asked
    (uid_monitor.get_uid_io_stats_locked sample.newcomer sample.named) =
    Some [1000; 2000] ∧
  ∃ info,
    uid_monitor.stats
      (uid_monitor.get_uid_io_stats_locked sample.newcomer sample.named) !! 2000
      = Some info ∧
    name info = "com.c"%string.
Proof.
  split; [reflexivity|].
  destruct (C7_name_lookup sample.newcomer sample.named
              [sample.uid_line 1000 100 0 0 0; sample.uid_line 2000 1 0 0 0] eq_refl)
    as (Hasked & _ & Hnames).
  split; [exact Hasked|].
  destruct (Hnames ["com.b"%string; "com.c"%string]) as [_ Hown].
  - reflexivity.
  - reflexivity.
  - simpl. lia.
  - exact (Hown newcomer_rows_distinct 1%nat 2000 "com.c"%string eq_refl eq_refl).
Defined.

(** C8 on [sample.two_tasks]: pids 5 and 6 are both named "sh"; against an
    empty last snapshot their 7 and 3 bytes make one entry of 10. *)
Lemma C8_two_pids_one_name :
  ∃ usage entry,
    account_uid CHARGER_ON ∅ ∅ sample.two_tasks !! "1000"%string = Some usage ∧
    task_ios usage !! "sh"%string = Some entry ∧
    cell entry READ FOREGROUND CHARGER_ON = 10.
Proof.
  destruct (C8_tasks_merged_by_command_name CHARGER_ON ∅ ∅ sample.two_tasks
              5 6 sample.sh5 sample.sh6 READ FOREGROUND)
    as (usage & entry & Husage & Hentry & Hcell); try evaluate.
  exists usage, entry. split; [exact Husage|]. split; [exact Hentry|].
  rewrite Hcell. evaluate.
Defined.

(** C9 on [sample.twins] from [sample.cold]: the entry "shared" is what the
    uids named "shared" accrue, and nobody else. *)
Lemma C9_entry_of_shared_name :
  size (uid_monitor.stats
          (uid_monitor.get_uid_io_stats_locked sample.twins sample.cold)) = 2%nat ∧
  uid_monitor.curr_io_stats
    (uid_monitor.update_curr_io_stats_locked sample.twins sample.cold)
    !! "shared"%string =
  foldl (account_uid (uid_monitor.charger_stat sample.cold)
           (uid_monitor.last_uid_io_stats sample.cold))
    (uid_monitor.curr_io_stats sample.cold)
    (filter (λ u, name u = "shared"%string)
       (map_to_list
          (uid_monitor.stats
             (uid_monitor.get_uid_io_stats_locked sample.twins sample.cold))).*2)
    !! "shared"%string.
Proof.
  split; [reflexivity|].
  destruct (C9_accumulator_keyed_by_name sample.twins sample.cold "shared")
    as [Hentry _].
  - intros Hempty. apply (f_equal size) in Hempty. vm_compute in Hempty.
    discriminate Hempty.
  - exact Hentry.
Defined.

(** C10 on [sample.stocked]: the entry "idle" has task usage but no uid-level
    usage; the flush makes no record of it and empties the accumulator. *)
Lemma C10_idle_entry_dropped :
  uid_monitor.curr_io_stats sample.stocked !! "idle"%string = Some sample.idle_usage ∧
  Forall (λ rec, rec_name rec ≠ "idle"%string)
    (uid_monitor.new_entries (uid_monitor.curr_io_stats sample.stocked)) ∧
  uid_monitor.curr_io_stats (uid_monitor.add_records_locked 450600 sample.stocked) = ∅.
Proof.
  assert (uid_monitor.curr_io_stats sample.stocked !! "idle"%string =
          Some sample.idle_usage) as Hidle by evaluate.
  split; [exact Hidle|].
  destruct (C10_record_built_from_uid_usage sample.stocked 450600 "idle"
              sample.idle_usage Hidle) as (Hzero & _ & Hcleared & _).
  split; [|exact Hcleared].
  apply Forall_forall. apply Hzero. reflexivity.
Defined.

(** * Further properties *)

(** ** The cells and [is_zero] *)

Lemma cells_total_zero u :
  cells_nonneg u → cells_total u = 0 → ∀ i j k, cell u i j k = 0.
Proof.
  intros Hu Hsum.
  cbv [cells_total total foldr IO_TYPES UID_STATS CHARGER_STATS] in Hsum.
  pose proof (Hu READ FOREGROUND CHARGER_OFF). pose proof (Hu READ FOREGROUND CHARGER_ON).
  pose proof (Hu READ BACKGROUND CHARGER_OFF). pose proof (Hu READ BACKGROUND CHARGER_ON).
  pose proof (Hu WRITE FOREGROUND CHARGER_OFF). pose proof (Hu WRITE FOREGROUND CHARGER_ON).
  pose proof (Hu WRITE BACKGROUND CHARGER_OFF). pose proof (Hu WRITE BACKGROUND CHARGER_ON).
  intros [] [] []; lia.
Qed.

(** X1. [is_zero] holds exactly when each of the eight cells is 0; over
    cells that are not negative this is when the cells sum to 0, and then the
    64-bit sum that [dump] compares with its threshold is 0 as well. *)
Theorem X1_is_zero_all_cells (u : io_usage) :
  (is_zero u = true ↔ ∀ i j k, cell u i j k = 0) ∧
  (cells_nonneg u → (is_zero u = true ↔ cells_total u = 0)) ∧
  (is_zero u = true → usage_sum u = 0).
Proof.
  assert (is_zero u = true → cells_total u = 0) as Hsum.
  { intros Hz. pose proof (proj1 (is_zero_spec u) Hz) as Hcells.
    cbv [cells_total total foldr IO_TYPES UID_STATS CHARGER_STATS].
    rewrite !Hcells. reflexivity. }
  split_and!.
  - apply is_zero_spec.
  - intros Hu. split; [apply Hsum|].
    intros Hz. apply is_zero_spec. by apply cells_total_zero.
  - intros Hz. rewrite usage_sum_total, (Hsum Hz). reflexivity.
Qed.

(** ** [records_size] *)

Lemma to_int_add_l a b : to_int (to_int a + b) = to_int (a + b).
Proof.
  unfold to_int. f_equal.
  replace ((a + 2 ^ 31) mod 2 ^ 32 - 2 ^ 31 + b + 2 ^ 31)
    with ((a + 2 ^ 31) mod 2 ^ 32 + b) by lia.
  rewrite Zplus_mod_idemp_l. f_equal. lia.
Qed.

Lemma to_int_range z : - 2 ^ 31 ≤ to_int z < 2 ^ 31.
Proof.
  unfold to_int. pose proof (Z.mod_pos_bound (z + 2 ^ 31) (2 ^ 32)). lia.
Qed.

Lemma records_size_from_to_int (m : store.t) :
  ∀ a, records_size_from (to_int a) m = to_int (a + Z.of_nat (stored_records m)).
Proof.
  induction m as [|b m IH]; intros a; simpl.
  - f_equal. lia.
  - rewrite to_int_add_l, IH. f_equal. lia.
Qed.

(** X2. [records_size] returns the number of stored records converted to
    [int]: the number itself below 2^31, and in any case a value of the
    [int] range that differs from it by a multiple of 2^32. *)
Theorem X2_records_size_counts (m : store.t) :
  records_size m = to_int (Z.of_nat (stored_records m)) ∧
  - 2 ^ 31 ≤ records_size m < 2 ^ 31 ∧
  (Z.of_nat (stored_records m) < 2 ^ 31 →
   records_size m = Z.of_nat (stored_records m)).
Proof.
  assert (records_size m = to_int (Z.of_nat (stored_records m))) as Hsize.
  { unfold records_size. change 0 with (to_int 0) at 1.
    by rewrite records_size_from_to_int. }
  split; [done|]. split.
  - rewrite Hsize. apply to_int_range.
  - intros Hlt. rewrite Hsize. apply to_int_small. lia.
Qed.

(** ** The flush, further *)

Lemma omap_none {A B} (f : A → option B) (l : list A) :
  (∀ x, x ∈ l → f x = None) → omap f l = [].
Proof.
  induction l as [|x l IH]; intros H; [done|].
  change (omap f (x :: l)) with (match f x with Some y => y :: omap f l | None => omap f l end).
  rewrite H by left. apply IH. intros y Hy. apply H. by right.
Qed.

Lemma new_entries_zero (curr : gmap string uid_io_usage) :
  (∀ n usage, curr !! n = Some usage → is_zero (uid_ios usage) = true) →
  uid_monitor.new_entries curr = [].
Proof.
  intros Hzero. unfold uid_monitor.new_entries. apply omap_none.
  intros [n usage] Hin%elem_of_map_to_list. unfold make_record. simpl.
  by rewrite (Hzero n usage Hin).
Qed.

Lemma flush_zero curr_ts st :
  (∀ n usage, uid_monitor.curr_io_stats st !! n = Some usage →
              is_zero (uid_ios usage) = true) →
  uid_monitor.add_records_locked curr_ts st =
    {| uid_monitor.last_uid_io_stats := uid_monitor.last_uid_io_stats st;
       uid_monitor.curr_io_stats := ∅;
       uid_monitor.records := uid_monitor.prune curr_ts (uid_monitor.records st);
       uid_monitor.charger_stat := uid_monitor.charger_stat st;
       uid_monitor.start_ts := curr_ts;
       uid_monitor.refresh_uid_names := uid_monitor.refresh_uid_names st |}.
Proof.
  intros Hzero. unfold uid_monitor.add_records_locked. simpl.
  by rewrite (new_entries_zero _ Hzero).
Qed.

(** X3. A flush of an accumulator whose entries all have zero uid-level
    usage stores no bucket, whatever their task usages are: the store is
    pruned by age and nothing else, the accumulator is emptied and the start
    time moves to the flush timestamp. *)
Theorem X3_flush_of_zero_usage_stores_nothing
    (curr_ts : Z) (st : uid_monitor.state) :
  (∀ n usage, uid_monitor.curr_io_stats st !! n = Some usage →
              is_zero (uid_ios usage) = true) →
  uid_monitor.add_records_locked curr_ts st =
    {| uid_monitor.last_uid_io_stats := uid_monitor.last_uid_io_stats st;
       uid_monitor.curr_io_stats := ∅;
       uid_monitor.records := uid_monitor.prune curr_ts (uid_monitor.records st);
       uid_monitor.charger_stat := uid_monitor.charger_stat st;
       uid_monitor.start_ts := curr_ts;
       uid_monitor.refresh_uid_names := uid_monitor.refresh_uid_names st |}.
Proof. apply flush_zero. Qed.

(** A delta step in which no uid-level counter moved keeps an accumulator
    without uid-level usage without uid-level usage. *)
Lemma delta_same c : clamp (delta c c) = 0.
Proof.
  unfold delta, to_int64, wrap64. rewrite Z.sub_diag. reflexivity.
Qed.

Lemma add_deltas_same k (current previous : arr2 io_stats) usage :
  (∀ i (j : uid_stat_t), counter i (at2 current j) = counter i (at2 previous j)) →
  is_zero usage = true →
  is_zero (add_deltas k current previous usage) = true.
Proof.
  intros Hsame Hz. apply is_zero_spec. intros i j k'.
  pose proof (proj1 (is_zero_spec usage) Hz) as Hcells.
  rewrite cell_add_deltas. case_decide; [|apply Hcells].
  unfold clamped_delta. rewrite Hsame, delta_same, Hcells. reflexivity.
Qed.

Lemma account_uids_same k last us :
  ∀ curr : gmap string uid_io_usage,
    (∀ u, u ∈ us → ∀ i (j : uid_stat_t), counter i (at2 (io u) j) =
        counter i (at2 (io (default uid_info_zero (last !! uid u))) j)) →
    (∀ n usage, curr !! n = Some usage → is_zero (uid_ios usage) = true) →
    ∀ n usage, foldl (account_uid k last) curr us !! n = Some usage →
               is_zero (uid_ios usage) = true.
Proof.
  induction us as [|u us IH]; intros curr Hsame Hzero; [done|]. simpl.
  apply IH.
  - intros v Hv. apply Hsame. by right.
  - intros n usage. destruct (decide (n = name u)) as [->|Hne].
    + rewrite account_uid_lookup. intros [= <-]. simpl.
      apply add_deltas_same; [apply Hsame; left|].
      destruct (curr !! name u) as [usage|] eqn:Hu; simpl; [by eapply Hzero|done].
    + rewrite account_uid_lookup_ne by done. apply Hzero.
Qed.

(** X4. A report on a snapshot in which every uid has the read and write
    byte counters it had in the last snapshot, made while the accumulator
    holds no uid-level usage, stores no bucket: the store is pruned by age
    and nothing else. *)
Theorem X4_report_without_new_io_stores_nothing
    (r : reading) (now : Z) (st : uid_monitor.state) :
  let snap := uid_monitor.get_uid_io_stats_locked r st in
  (∀ key u, uid_monitor.stats snap !! key = Some u →
     ∀ (i : io_type_t) (j : uid_stat_t),
       counter i (at2 (io u) j) =
            counter i (at2 (io (default uid_info_zero
                                  (uid_monitor.last_uid_io_stats st !! uid u))) j)) →
  (∀ n usage, uid_monitor.curr_io_stats st !! n = Some usage →
              is_zero (uid_ios usage) = true) →
  uid_monitor.records (uid_monitor.report r now st) =
    uid_monitor.prune now (uid_monitor.records st) ∧
  uid_monitor.curr_io_stats (uid_monitor.report r now st) = ∅ ∧
  uid_monitor.start_ts (uid_monitor.report r now st) = now.
Proof.
  intros snap Hsame Hzero. unfold uid_monitor.report.
  rewrite flush_zero.
  - simpl. by rewrite update_records.
  - unfold uid_monitor.update_curr_io_stats_locked. fold snap.
    case_decide; simpl; [exact Hzero|].
    apply account_uids_same; [|exact Hzero].
    intros u (kv & -> & Hkv)%list_elem_of_fmap. destruct kv as [key v].
    apply elem_of_map_to_list in Hkv. by eapply Hsame.
Qed.

(** ** The eviction, further *)

(** The loop of [add_records_locked] erases the fewest oldest buckets that
    make the candidate fit. *)
Lemma make_room_least (c : Z) (m : store.t) :
  ∀ overflow,
    0 ≤ c ≤ MAX_UID_RECORDS_SIZE →
    Z.of_nat (stored_records m) ≤ MAX_UID_RECORDS_SIZE →
    overflow = Z.of_nat (stored_records m) + c - MAX_UID_RECORDS_SIZE →
    ∃ n : nat,
      make_room overflow m = drop n m ∧
      Z.of_nat (stored_records (drop n m)) + c ≤ MAX_UID_RECORDS_SIZE ∧
      ∀ n' : nat, (n' < n)%nat →
        MAX_UID_RECORDS_SIZE < Z.of_nat (stored_records (drop n' m)) + c.
Proof.
  unfold MAX_UID_RECORDS_SIZE.
  induction m as [|b m IH]; intros overflow Hc Hm Ho; simpl in *.
  - exists 0%nat. split_and!; [done|simpl; lia|lia].
  - destruct (0 <? overflow) eqn:Hpos.
    + apply Z.ltb_lt in Hpos.
      destruct (IH (to_int (wrap64 (overflow - Z.of_nat (length (entries b.2))))))
        as (n & Hn & Hfit & Hleast); [done|lia| |].
      { rewrite to_int_wrap64, to_int_small; lia. }
      exists (S n). split_and!; [done|done|].
      intros [|n'] Hlt; simpl; [lia|]. apply Hleast. lia.
    + apply Z.ltb_ge in Hpos. exists 0%nat. split_and!; [done|simpl; lia|lia].
Qed.

(** X5. When the store and the candidate bucket each hold at most
    1000 x 48 records, the flush evicts the fewest oldest buckets that make
    room: what it keeps of the store, with the candidate, fits the cap, any
    shorter eviction would not, and a candidate that fits beside the whole
    store evicts nothing. *)
Theorem X5_eviction_is_least
    (curr_ts : Z) (new_records : uid_records) (m : store.t) :
  Z.of_nat (length (entries new_records)) ≤ MAX_UID_RECORDS_SIZE →
  Z.of_nat (stored_records m) ≤ MAX_UID_RECORDS_SIZE →
  ∃ n : nat,
    uid_monitor.insert_records curr_ts new_records m =
      store.assign curr_ts new_records (drop n m) ∧
    Z.of_nat (stored_records (drop n m)) + Z.of_nat (length (entries new_records))
      ≤ MAX_UID_RECORDS_SIZE ∧
    (∀ n' : nat, (n' < n)%nat →
       MAX_UID_RECORDS_SIZE <
         Z.of_nat (stored_records (drop n' m)) +
         Z.of_nat (length (entries new_records))) ∧
    (Z.of_nat (stored_records m) + Z.of_nat (length (entries new_records))
       ≤ MAX_UID_RECORDS_SIZE → n = 0%nat).
Proof.
  intros Hc Hm. unfold uid_monitor.insert_records.
  destruct (make_room_least (Z.of_nat (length (entries new_records))) m
    (to_int (wrap64 (records_size m +
       Z.of_nat (length (entries new_records)) - MAX_UID_RECORDS_SIZE))))
    as (n & Hn & Hfit & Hleast); [lia|done| |].
  { unfold MAX_UID_RECORDS_SIZE in *.
    rewrite records_size_stored by lia.
    rewrite to_int_wrap64, to_int_small; lia. }
  exists n. rewrite Hn. split_and!; [done..|].
  intros Hall. destruct n as [|n]; [done|].
  specialize (Hleast 0%nat ltac:(lia)). rewrite drop_0 in Hleast. lia.
Qed.

(** ** The bucket of a flush *)

Lemma assign_lookup k v (m : store.t) :
  store.ordered m →
  ∀ b, (k, b) ∈ store.assign k v m ↔ b = v.
Proof.
  unfold store.ordered, store.keys. intros Hord b. split.
  - induction m as [|x m IH]; simpl.
    + intros Hin. apply list_elem_of_singleton in Hin. congruence.
    + apply StronglySorted_inv in Hord as [Hm Hx].
      rewrite Forall_forall in Hx.
      assert (∀ y, (k, y) ∈ m → x.1 < k) as Hlater.
      { intros y Hy. apply (Hx k). by apply (list_elem_of_fmap_2 fst _ (k, y)). }
      destruct (k <? x.1) eqn:Hlt; [|destruct (k =? x.1) eqn:Heq].
      * apply Z.ltb_lt in Hlt. intros Hin.
        apply elem_of_cons in Hin as [Hin|Hin]; [congruence|].
        apply elem_of_cons in Hin as [Hin|Hin].
        -- subst x. simpl in Hlt. lia.
        -- specialize (Hlater _ Hin). lia.
      * apply Z.eqb_eq in Heq. intros Hin.
        apply elem_of_cons in Hin as [Hin|Hin]; [congruence|].
        specialize (Hlater _ Hin). lia.
      * apply Z.eqb_neq in Heq. intros Hin.
        apply elem_of_cons in Hin as [Hin|Hin]; [subst x; by simpl in Heq|].
        by apply IH.
  - intros ->. clear Hord. induction m as [|x m IH]; simpl; [left|].
    destruct (k <? x.1); [left|]. destruct (k =? x.1); [left|by right].
Qed.

(** X6. After a flush with a candidate that is not empty, the bucket under
    the flush timestamp is the candidate and nothing else: its records are
    the records built from the accumulator and its start time is the start
    time of the accumulator, a bucket stored earlier under the same
    timestamp being overwritten; the next interval starts at the flush
    timestamp. *)
Theorem X6_bucket_of_a_flush (curr_ts : Z) (st : uid_monitor.state) :
  let candidate := uid_monitor.new_entries (uid_monitor.curr_io_stats st) in
  let st' := uid_monitor.add_records_locked curr_ts st in
  store.ordered (uid_monitor.records st) →
  candidate ≠ [] →
  (∀ b, (curr_ts, b) ∈ uid_monitor.records st' ↔
        b = mk_uid_records (uid_monitor.start_ts st) candidate) ∧
  uid_monitor.start_ts st' = curr_ts.
Proof.
  intros candidate st' Hord Hne. split; [|done].
  intros b. destruct (flush_shape curr_ts st) as [n Hn].
  fold st' candidate in Hn. rewrite Hn.
  destruct candidate as [|e es] eqn:Hc; [done|].
  apply assign_lookup. by apply ordered_drop.
Qed.

(** X7. Two reports in a row tile the time: if the second has a candidate
    that is not empty, the bucket it stores under its timestamp starts at the
    timestamp of the first. *)
Theorem X7_buckets_tile_time
    (r1 r2 : reading) (t1 t2 : Z) (st : uid_monitor.state) :
  let st1 := uid_monitor.report r1 t1 st in
  let st2 := uid_monitor.report r2 t2 st1 in
  store.ordered (uid_monitor.records st) →
  uid_monitor.new_entries
    (uid_monitor.curr_io_stats (uid_monitor.update_curr_io_stats_locked r2 st1)) ≠ [] →
  ∀ b, (t2, b) ∈ uid_monitor.records st2 → start_ts b = t1.
Proof.
  intros st1 st2 Hord Hne b Hb.
  assert (store.ordered (uid_monitor.records st1)) as Hord1.
  { apply flush_ordered. by rewrite update_records. }
  unfold st2, uid_monitor.report in Hb.
  destruct (flush_shape t2 (uid_monitor.update_curr_io_stats_locked r2 st1))
    as [n Hn].
  rewrite Hn in Hb.
  destruct (uid_monitor.new_entries _) as [|e es] eqn:Hc; [done|].
  apply assign_lookup in Hb.
  - rewrite Hb. simpl. by rewrite update_start_ts.
  - apply ordered_drop. by rewrite update_records.
Qed.

(** ** The query, further *)

Lemma lower_bound_filter k (m : list (Z * uid_records)) :
  store.ordered m →
  store.lower_bound k m = filter (λ kb, k ≤ kb.1) m.
Proof.
  unfold store.ordered, store.keys.
  induction m as [|b m IH]; intros Hord; [done|].
  apply StronglySorted_inv in Hord as [Hm Hb].
  change (store.lower_bound k (b :: m))
    with (if b.1 <? k then store.lower_bound k m else b :: m).
  destruct (b.1 <? k) eqn:Hlt.
  - apply Z.ltb_lt in Hlt. rewrite filter_cons_False by lia. by apply IH.
  - apply Z.ltb_ge in Hlt. symmetry. apply filter_all.
    constructor; [done|]. rewrite Forall_forall in Hb.
    apply Forall_forall. intros x Hx.
    assert (b.1 < x.1) by (apply Hb; by apply list_elem_of_fmap_2). lia.
Qed.

Lemma dump_one_filtered threshold k stored :
  filter (λ rec, over_threshold threshold rec = true) (entries stored) ≠ [] →
  dump_one threshold (k, stored) =
    Some (k, mk_uid_records (start_ts stored)
               (filter (λ rec, over_threshold threshold rec = true) (entries stored))).
Proof. unfold dump_one. simpl. by destruct (filter _ _). Qed.

Lemma dump_locked_elem hours threshold st k b :
  store.ordered (uid_monitor.records st) →
  (k, b) ∈ uid_monitor.dump_locked hours threshold st ↔
  ∃ stored,
    (k, stored) ∈ uid_monitor.records st ∧ first_ts hours ≤ k ∧
    entries b ≠ [] ∧ start_ts b = start_ts stored ∧
    entries b = filter (λ rec, over_threshold threshold rec = true) (entries stored).
Proof.
  intros Hord. rewrite dump_locked_omap by done.
  fold (first_ts hours). rewrite lower_bound_filter by done.
  rewrite list_elem_of_omap. split.
  - intros ([k' stored] & [Hk Hin]%list_elem_of_filter & Hone).
    destruct (dump_one_Some _ _ _ Hone) as (Hkey & Hs & Hne & Hf).
    simpl in *. subst k'. by exists stored.
  - intros (stored & Hin & Hk & Hne & Hs & Hf).
    exists (k, stored). split; [by apply list_elem_of_filter|].
    rewrite dump_one_filtered by (by rewrite <- Hf).
    destruct b as [s e]. simpl in *. by subst.
Qed.

(** X8. [dump] returns a bucket under a key exactly when the store holds a
    bucket under that key, the key is not below the start of the window (0
    when hours is 0), and some record of the stored bucket has a 64-bit sum
    above the threshold; the bucket returned has the start time of the stored
    one and its records above the threshold, in their order. *)
Theorem X8_dump_membership
    (hours : hours_t) (threshold : Z) (st : uid_monitor.state)
    (k : Z) (b : uid_records) :
  store.ordered (uid_monitor.records st) →
  (k, b) ∈ uid_monitor.dump_locked hours threshold st ↔
  ∃ stored,
    (k, stored) ∈ uid_monitor.records st ∧ first_ts hours ≤ k ∧
    entries b ≠ [] ∧ start_ts b = start_ts stored ∧
    entries b = filter (λ rec, over_threshold threshold rec = true) (entries stored).
Proof. apply dump_locked_elem. Qed.

Lemma omap_keys_ordered (f : Z * uid_records → option (Z * uid_records)) (m : store.t) :
  (∀ x y, f x = Some y → y.1 = x.1) →
  store.ordered m → store.ordered (omap f m).
Proof.
  unfold store.ordered, store.keys. intros Hkey.
  induction m as [|x m IH]; intros Hord; [done|].
  apply StronglySorted_inv in Hord as [Hm Hx].
  change (omap f (x :: m)) with (match f x with Some y => y :: omap f m | None => omap f m end).
  destruct (f x) as [y|] eqn:Hfx; [|by apply IH].
  simpl. constructor; [by apply IH|].
  rewrite (Hkey _ _ Hfx). rewrite Forall_forall in Hx.
  apply Forall_forall. intros z (y' & -> & (w & Hw & Hfw)%list_elem_of_omap)%list_elem_of_fmap.
  rewrite (Hkey _ _ Hfw). apply Hx. by apply list_elem_of_fmap_2.
Qed.

(** X9. What [dump] returns is a map of the same kind as the store: its
    keys are strictly increasing, and it holds at most one bucket a key. *)
Theorem X9_dump_result_ordered
    (hours : hours_t) (threshold : Z) (st : uid_monitor.state) :
  store.ordered (uid_monitor.records st) →
  store.ordered (uid_monitor.dump_locked hours threshold st) ∧
  ∀ k b b', (k, b) ∈ uid_monitor.dump_locked hours threshold st →
            (k, b') ∈ uid_monitor.dump_locked hours threshold st → b = b'.
Proof.
  intros Hord.
  assert (store.ordered (uid_monitor.dump_locked hours threshold st)) as Hdump.
  { rewrite dump_locked_omap by done. apply omap_keys_ordered.
    - intros x y Hxy. by destruct (dump_one_Some _ _ _ Hxy).
    - match goal with
      | |- context [store.lower_bound ?k ?m] =>
          destruct (lower_bound_drop k m) as [n ->]
      end.
      by apply ordered_drop. }
  split; [done|].
  intros k b b' Hb Hb'.
  pose proof (assign_lookup k b _ Hdump) as Hassign.
  assert (∀ (m : store.t) x, store.ordered m → (k, x) ∈ m → store.assign k x m = m)
    as Hsame.
  { clear. unfold store.ordered, store.keys.
    induction m as [|y m IH]; intros x Hord Hin; [by apply elem_of_nil in Hin|].
    apply StronglySorted_inv in Hord as [Hm Hy]. rewrite Forall_forall in Hy.
    simpl. apply elem_of_cons in Hin as [<-|Hin]; simpl.
    - by rewrite Z.ltb_irrefl, Z.eqb_refl.
    - assert (y.1 < k) as Hlt by (apply Hy; by apply (list_elem_of_fmap_2 fst _ (k, x))).
      destruct (k <? y.1) eqn:H1; [apply Z.ltb_lt in H1; lia|].
      destruct (k =? y.1) eqn:H2; [apply Z.eqb_eq in H2; lia|].
      by rewrite IH. }
  symmetry. apply Hassign. by rewrite (Hsame _ b Hdump Hb).
Qed.

(** X10. Raising the threshold only removes: every bucket returned at the
    higher threshold is returned, under the same key and with the same start
    time, at the lower one, with every record it has; and at a threshold of
    2^64 - 1 or more nothing is returned. *)
Theorem X10_dump_threshold_monotone
    (hours : hours_t) (low high : Z) (st : uid_monitor.state) :
  store.ordered (uid_monitor.records st) →
  (low ≤ high →
   ∀ k b, (k, b) ∈ uid_monitor.dump_locked hours high st →
     ∃ b', (k, b') ∈ uid_monitor.dump_locked hours low st ∧
           start_ts b' = start_ts b ∧
           ∀ rec, rec ∈ entries b → rec ∈ entries b') ∧
  (2 ^ 64 - 1 ≤ high → uid_monitor.dump_locked hours high st = []).
Proof.
  intros Hord. split.
  - intros Hle k b (stored & Hin & Hk & Hne & Hs & Hf)%dump_locked_elem; [|done].
    assert (∀ rec, rec ∈ entries b →
              rec ∈ filter (λ rec, over_threshold low rec = true) (entries stored))
      as Hsub.
    { intros rec. rewrite Hf, !list_elem_of_filter. intros [Hover Hrec].
      split; [|done]. unfold over_threshold in *.
      apply Z.ltb_lt in Hover. apply Z.ltb_lt. lia. }
    exists (mk_uid_records (start_ts stored)
              (filter (λ rec, over_threshold low rec = true) (entries stored))).
    split_and!; [|done|done].
    apply dump_locked_elem; [done|]. exists stored. split_and!; try done.
    simpl. destruct (entries b) as [|rec recs] eqn:Hb; [done|].
    intros Hnil. specialize (Hsub rec ltac:(left)). rewrite Hnil in Hsub.
    by apply elem_of_nil in Hsub.
  - intros Hhigh.
    destruct (uid_monitor.dump_locked hours high st) as [|[k b] rest] eqn:Hd; [done|].
    assert ((k, b) ∈ uid_monitor.dump_locked hours high st) as Hin
      by (rewrite Hd; left).
    apply dump_locked_elem in Hin as (stored & _ & _ & Hne & _ & Hf); [|done].
    destruct (entries b) as [|rec recs] eqn:Hb; [done|].
    assert (rec ∈ filter (λ rec, over_threshold high rec = true) (entries stored))
      as [Hover _]%list_elem_of_filter by (rewrite <- Hf; left).
    unfold over_threshold in Hover. apply Z.ltb_lt in Hover.
    pose proof (wrap64_range (cells_total (uid_ios (ios rec)))) as Hr.
    rewrite <- usage_sum_total in Hr. lia.
Qed.

(** ** The charger state *)

(** A delta step leaves the cells of the other charger state as they were,
    for every name and every task name. *)
Lemma account_uids_other_charger k k' last us :
  k' ≠ k →
  ∀ (curr : gmap string uid_io_usage) n,
    let before := default uid_io_usage_zero (curr !! n) in
    let after := default uid_io_usage_zero (foldl (account_uid k last) curr us !! n) in
    (∀ i j, cell (uid_ios after) i j k' = cell (uid_ios before) i j k') ∧
    (∀ c i j, cell (default io_usage_zero (task_ios after !! c)) i j k' =
              cell (default io_usage_zero (task_ios before !! c)) i j k').
Proof.
  intros Hk. induction us as [|u us IH]; intros curr n; [done|]. simpl.
  destruct (IH (account_uid k last curr u) n) as [Huid Htask].
  destruct (decide (n = name u)) as [->|Hne].
  - rewrite account_uid_lookup in Huid, Htask. simpl in Huid, Htask. split.
    + intros i j. rewrite Huid, cell_add_deltas. by case_decide.
    + intros c i j. rewrite Htask. by apply account_tasks_cell_other.
  - rewrite account_uid_lookup_ne in Huid, Htask by done. by split.
Qed.

(** A delta step, seen from one name: each cell of the current charger
    state receives the clamped deltas of the uids that carry the name. *)
Lemma account_uids_cell k last n (i : io_type_t) (j : uid_stat_t) us :
  ∀ curr : gmap string uid_io_usage,
    cell (uid_ios (default uid_io_usage_zero
                     (foldl (account_uid k last) curr us !! n))) i j k =
    foldl (λ acc u, wrap64 (acc + clamped_delta i j (io u)
                                    (io (default uid_info_zero (last !! uid u)))))
      (cell (uid_ios (default uid_io_usage_zero (curr !! n))) i j k)
      (filter (λ u, name u = n) us).
Proof.
  induction us as [|u us IH]; intros curr; [done|]. simpl. rewrite IH.
  destruct (decide (name u = n)) as [Hn|Hn].
  - rewrite filter_cons_True by done. simpl. f_equal.
    rewrite <- Hn, account_uid_lookup. simpl.
    rewrite cell_add_deltas. by case_decide.
  - rewrite filter_cons_False by done. f_equal.
    by rewrite account_uid_lookup_ne.
Qed.

(** X11. A change of charger state runs the delta step under the old state
    and does not flush: the store and the start time stay, the new state is
    set and the snapshot read becomes the last snapshot.  What the call
    reads is booked under the state that is left: under each name, every
    cell of the old state receives the clamped deltas of the uids of the
    sample that carry the name, modulo 2^64, and when one uid carries the
    name, the cells of the old state of each of its task names receive the
    clamped deltas of its tasks of that name; a name that no uid of the
    sample carries keeps its entry; no cell of the new state changes, for
    any name and any task.  A call with the state already set changes
    nothing. *)
Theorem X11_charger_change_books_under_old_state
    (stat : charger_stat_t) (r : reading) (st : uid_monitor.state) :
  let old := uid_monitor.charger_stat st in
  let previous :=
    λ u, default uid_info_zero (uid_monitor.last_uid_io_stats st !! uid u) in
  let snap := uid_monitor.get_uid_io_stats_locked r st in
  let sample := (map_to_list (uid_monitor.stats snap)).*2 in
  let st' := uid_monitor.set_charger_state stat r st in
  (old = stat → st' = st) ∧
  (old ≠ stat →
   uid_monitor.charger_stat st' = stat ∧
   uid_monitor.records st' = uid_monitor.records st ∧
   uid_monitor.start_ts st' = uid_monitor.start_ts st ∧
   (uid_monitor.stats snap ≠ ∅ →
    uid_monitor.last_uid_io_stats st' = uid_monitor.stats snap) ∧
   ∀ n,
     let before := default uid_io_usage_zero (uid_monitor.curr_io_stats st !! n) in
     let after := default uid_io_usage_zero (uid_monitor.curr_io_stats st' !! n) in
     let carriers := filter (λ u, name u = n) sample in
     (carriers = [] →
      uid_monitor.curr_io_stats st' !! n = uid_monitor.curr_io_stats st !! n) ∧
     (carriers ≠ [] →
      ∀ (i : io_type_t) (j : uid_stat_t),
        cell (uid_ios after) i j old =
          wrap64 (cell (uid_ios before) i j old +
                  total (λ u, clamped_delta i j (io u) (io (previous u))) carriers)) ∧
     (∀ u c,
        carriers = [u] →
        let named :=
          filter (λ t : Z * task_info, comm t.2 = c) (map_to_list (tasks u)) in
        named ≠ [] →
        ∀ (i : io_type_t) (j : uid_stat_t),
          cell (default io_usage_zero (task_ios after !! c)) i j old =
            wrap64 (cell (default io_usage_zero (task_ios before !! c)) i j old +
                    total (task_delta i j (tasks (previous u))) named)) ∧
     (∀ (i : io_type_t) (j : uid_stat_t),
        cell (uid_ios after) i j stat = cell (uid_ios before) i j stat) ∧
     (∀ c (i : io_type_t) (j : uid_stat_t),
        cell (default io_usage_zero (task_ios after !! c)) i j stat =
        cell (default io_usage_zero (task_ios before !! c)) i j stat)) ∧
  uid_monitor.set_charger_state stat r st' = st'.
Proof.
  intros old previous snap sample st'. subst st'.
  unfold uid_monitor.set_charger_state at 1 2 3 4 5 6 7 8 9 10.
  split_and!.
  - intros Hsame. by case_decide.
  - intros Hne. case_decide as Hc; [done|]. simpl.
    split_and!; [done|apply update_records|apply update_start_ts| |].
    { intros Hsnap. unfold uid_monitor.update_curr_io_stats_locked.
      by case_decide. }
    intros n.
    assert (uid_monitor.curr_io_stats (uid_monitor.update_curr_io_stats_locked r st) !! n =
            foldl (account_uid old (uid_monitor.last_uid_io_stats st))
              (uid_monitor.curr_io_stats st) sample !! n) as Hafter.
    { unfold uid_monitor.update_curr_io_stats_locked. case_decide as Hempty; [|done].
      simpl. unfold sample, snap. by rewrite Hempty, map_to_list_empty. }
    rewrite Hafter. split_and!.
    + intros Hnone. by rewrite account_uids_by_name, Hnone.
    + intros Hsome i j. rewrite account_uids_cell.
      by rewrite foldl_wrap64_total.
    + intros u c Hone Hnamed i j.
      assert (name u = n) as Hu.
      { assert (u ∈ filter (λ u, name u = n) sample) as [Hu _]%list_elem_of_filter
          by (rewrite Hone; left).
        done. }
      rewrite account_uids_by_name, Hone. simpl.
      rewrite <- Hu, account_uid_lookup. simpl.
      rewrite account_tasks_cell. by rewrite foldl_wrap64_total.
    + apply account_uids_other_charger. by intros ->.
    + apply account_uids_other_charger. by intros ->.
  - unfold uid_monitor.set_charger_state.
    case_decide as Hc; [by case_decide|]. simpl. by case_decide.
Qed.

(** ** Names and the refresh flag *)

(** The parts of [get_uid_io_stats_locked] for a file that was read. *)
Lemma snapshot_of_file r st rows :
  file r = Some rows →
  let s := foldl (uid_monitor.scan_row (uid_monitor.last_uid_io_stats st))
             {| uid_monitor.u_uid := stack_uid r; uid_monitor.uid_io_stats := ∅;
                uid_monitor.uids := []; uid_monitor.uid_names := [];
                uid_monitor.refresh := uid_monitor.refresh_uid_names st |} rows in
  uid_monitor.get_uid_io_stats_locked r st =
    if looks_up st rows then
      match names_reply r with
      | None =>
          {| uid_monitor.stats := uid_monitor.uid_io_stats s;
             uid_monitor.refresh_after := true;
             uid_monitor.asked := Some (to_int <$> uid_rows rows) |}
      | Some names =>
          {| uid_monitor.stats :=
               uid_monitor.store_names (uid_monitor.uid_io_stats s) (uid_rows rows) names;
             uid_monitor.refresh_after := false;
             uid_monitor.asked := Some (to_int <$> uid_rows rows) |}
      end
    else
      {| uid_monitor.stats := uid_monitor.uid_io_stats s;
         uid_monitor.refresh_after :=
           uid_monitor.refresh_uid_names st && bool_decide (uid_rows rows = []);
         uid_monitor.asked := None |}.
Proof.
  intros Hfile s. unfold uid_monitor.get_uid_io_stats_locked. rewrite Hfile.
  fold s.
  pose proof (scan_uids (uid_monitor.last_uid_io_stats st) rows
    {| uid_monitor.u_uid := stack_uid r; uid_monitor.uid_io_stats := ∅;
       uid_monitor.uids := []; uid_monitor.uid_names := [];
       uid_monitor.refresh := uid_monitor.refresh_uid_names st |}) as Huids.
  pose proof (scan_uid_names (uid_monitor.last_uid_io_stats st) rows
    {| uid_monitor.u_uid := stack_uid r; uid_monitor.uid_io_stats := ∅;
       uid_monitor.uids := []; uid_monitor.uid_names := [];
       uid_monitor.refresh := uid_monitor.refresh_uid_names st |}) as Hkeys.
  pose proof (scan_refresh (uid_monitor.last_uid_io_stats st) rows
    {| uid_monitor.u_uid := stack_uid r; uid_monitor.uid_io_stats := ∅;
       uid_monitor.uids := []; uid_monitor.uid_names := [];
       uid_monitor.refresh := uid_monitor.refresh_uid_names st |}) as Href.
  fold s in Huids, Hkeys, Href. simpl in Huids, Hkeys, Href.
  rewrite Huids, Hkeys, Href, request_empty.
  unfold looks_up.
  destruct (uid_rows rows) as [|n ns] eqn:Hrows.
  - simpl. by rewrite orb_false_r, andb_true_r.
  - rewrite bool_decide_eq_true_2 by done.
    rewrite (bool_decide_eq_false_2 (n :: ns = [])) by done.
    rewrite andb_false_r. simpl.
    destruct (_ || _) eqn:Hflag; [by destruct (names_reply r)|done].
Qed.

(** X12. The refresh flag stays set until a lookup succeeds.  After a
    sample whose file was read, the flag is set exactly when a lookup was due
    and failed, or when the sample had no well-formed uid row and the flag
    was set before; a lookup that is answered clears it; a sample whose file
    cannot be read leaves it as it was. *)
Theorem X12_refresh_flag (r : reading) (st : uid_monitor.state) :
  let snap := uid_monitor.get_uid_io_stats_locked r st in
  (file r = None →
   uid_monitor.refresh_after snap = uid_monitor.refresh_uid_names st) ∧
  (∀ rows, file r = Some rows →
     uid_monitor.refresh_after snap =
       if looks_up st rows
       then match names_reply r with None => true | Some _ => false end
       else uid_monitor.refresh_uid_names st && bool_decide (uid_rows rows = [])) ∧
  uid_monitor.refresh_uid_names (uid_monitor.update_curr_io_stats_locked r st) =
    uid_monitor.refresh_after snap.
Proof.
  intros snap. subst snap. split_and!.
  - intros Hfile. unfold uid_monitor.get_uid_io_stats_locked. by rewrite Hfile.
  - intros rows Hfile. rewrite (snapshot_of_file r st rows Hfile).
    destruct (looks_up st rows); [by destruct (names_reply r)|done].
  - unfold uid_monitor.update_curr_io_stats_locked. by case_decide.
Qed.

Lemma store_names_blank asked names (stats : gmap Z uid_info) :
  Forall (λ s, s = EmptyString) names →
  uid_monitor.store_names stats asked names = stats.
Proof.
  intros Hblank. unfold uid_monitor.store_names.
  assert (∀ p, p ∈ zip asked names → p.2 = EmptyString) as Hzip.
  { intros [x1 x2] Hin%elem_of_zip_r. rewrite Forall_forall in Hblank.
    by apply Hblank. }
  revert Hzip. generalize (zip asked names). intros l. revert stats.
  induction l as [|p l IH]; intros stats Hl; [done|]. simpl.
  rewrite decide_True by (apply Hl; left). apply IH.
  intros q Hq. apply Hl. by right.
Qed.

(** X13. A lookup answered with empty names only leaves every uid of the
    sample with the name it had without the lookup, the name of the last
    snapshot or the uid in decimal, and yet clears the refresh flag, where a
    lookup that fails leaves the same snapshot and sets the flag. *)
Theorem X13_empty_answer_clears_flag
    (r : reading) (st : uid_monitor.state) (rows : list stats_row)
    (names : list string) :
  let failing := {| file := file r; stack_uid := stack_uid r; names_reply := None |} in
  file r = Some rows →
  names_reply r = Some names →
  Forall (λ s, s = EmptyString) names →
  looks_up st rows = true →
  uid_monitor.stats (uid_monitor.get_uid_io_stats_locked r st) =
    uid_monitor.stats (uid_monitor.get_uid_io_stats_locked failing st) ∧
  uid_monitor.refresh_after (uid_monitor.get_uid_io_stats_locked r st) = false ∧
  uid_monitor.refresh_after (uid_monitor.get_uid_io_stats_locked failing st) = true.
Proof.
  intros failing Hfile Hreply Hblank Hlook.
  rewrite (snapshot_of_file r st rows Hfile).
  rewrite (snapshot_of_file failing st rows Hfile).
  rewrite Hlook, Hreply. simpl. split_and!; [|done..].
  by apply store_names_blank.
Qed.

(** ** Uid rows and task rows *)

(** After a uid row, the rows that leave [u.uid] alone attach their tasks to
    that uid and change nothing else of its entry. *)
Lemma scan_attached last (post : list stats_row) :
  Forall keeps_uid post →
  ∀ s e,
    uid_monitor.uid_io_stats s !! uid_monitor.u_uid s = Some e →
    let s' := foldl (uid_monitor.scan_row last) s post in
    uid_monitor.u_uid s' = uid_monitor.u_uid s ∧
    uid_monitor.uid_io_stats s' !! uid_monitor.u_uid s =
      Some {| uid := uid e; name := name e; io := io e;
              tasks := attached (tasks e) post |}.
Proof.
  induction 1 as [|r post Hr _ IH]; intros s e He; simpl.
  - split; [done|]. rewrite He. by destruct e.
  - destruct r as [|n c|[n|]|t|]; simpl in Hr; try done;
      try (by apply IH).
    + destruct (IH (uid_monitor.scan_row last s (row_uid_invalid None)) e He)
        as [Hu Hs].
      split; [exact Hu|exact Hs].
    + set (s1 := uid_monitor.scan_row last s (row_task t)).
      destruct (IH s1 (uid_monitor.add_task (wrap32 (pid t)) t e)) as [Hu Hs].
      { simpl. by rewrite lookup_insert_eq, He. }
      split; [exact Hu|exact Hs].
Qed.

(** X14. The last well-formed uid row of a uid decides its entry: if after
    it the file has only task rows, empty rows and rows rejected before
    their uid field, the snapshot holds for that uid the counters of that
    row and exactly the tasks of the task rows after it, under their pids as
    [uint32_t], a later task row of a pid replacing an earlier one; counters
    and tasks that earlier rows gave the uid are gone. *)
Theorem X14_last_uid_row_decides
    (r : reading) (st : uid_monitor.state)
    (pre post : list stats_row) (n : Z) (counters : arr2 io_stats) :
  file r = Some (pre ++ row_uid n counters :: post) →
  Forall keeps_uid post →
  ∃ info,
    uid_monitor.stats (uid_monitor.get_uid_io_stats_locked r st) !! n = Some info ∧
    uid info = n ∧ io info = counters ∧ tasks info = attached ∅ post.
Proof.
  intros Hfile Hpost.
  set (last := uid_monitor.last_uid_io_stats st).
  set (s0 := {| uid_monitor.u_uid := stack_uid r; uid_monitor.uid_io_stats := ∅;
                uid_monitor.uids := []; uid_monitor.uid_names := [];
                uid_monitor.refresh := uid_monitor.refresh_uid_names st |}).
  set (s1 := uid_monitor.scan_row last (foldl (uid_monitor.scan_row last) s0 pre)
               (row_uid n counters)).
  destruct (scan_attached last post Hpost s1
              {| uid := n; name := carried_name last n; io := counters; tasks := ∅ |})
    as [_ Hentry].
  { simpl. rewrite lookup_insert_eq. unfold carried_name. by destruct (last !! n). }
  simpl in Hentry.
  assert (foldl (uid_monitor.scan_row last) s1 post =
          foldl (uid_monitor.scan_row last) s0 (pre ++ row_uid n counters :: post))
    as Hfold by (by rewrite foldl_app).
  rewrite Hfold in Hentry.
  rewrite (snapshot_of_file r st _ Hfile). fold last s0.
  destruct (looks_up st _); [destruct (names_reply r) as [names|]|]; simpl;
    try (eexists; split; [exact Hentry|done]).
  match goal with
  | |- context [uid_monitor.store_names ?m ?a names] =>
      pose proof (store_names_lookup a names m n) as Hnames
  end.
  rewrite Hentry in Hnames.
  destruct (uid_monitor.store_names _ _ _ !! n) as [info|]; [|done].
  destruct Hnames as (Huid & Hio & Htasks & _).
  exists info. by rewrite Huid, Hio, Htasks.
Qed.

(** ** What the store holds *)

Lemma candidate_wf (curr : gmap string uid_io_usage) :
  NoDup (rec_name <$> uid_monitor.new_entries curr) ∧
  Forall record_wf (uid_monitor.new_entries curr).
Proof.
  unfold uid_monitor.new_entries. split.
  - pose proof (NoDup_fst_map_to_list curr) as Hnd.
    induction (map_to_list curr) as [|x l IH]; [constructor|].
    change (omap make_record (x :: l))
      with (match make_record x with
            | Some y => y :: omap make_record l
            | None => omap make_record l
            end).
    rewrite fmap_cons in Hnd. apply NoDup_cons in Hnd as [Hx Hl].
    destruct (make_record x) as [y|] eqn:Hy; [|by apply IH].
    rewrite fmap_cons. apply NoDup_cons. split; [|by apply IH].
    intros (z & Hz & (w & Hw & Hwz)%list_elem_of_omap)%list_elem_of_fmap.
    apply Hx. apply list_elem_of_fmap. exists w. split; [|done].
    unfold make_record in Hy, Hwz.
    destruct (is_zero (uid_ios x.2)); [done|].
    destruct (is_zero (uid_ios w.2)); [done|].
    injection Hy as <-. injection Hwz as <-. done.
  - apply Forall_forall.
    intros rec ([n usage] & _ & Hrec)%list_elem_of_omap.
    unfold make_record in Hrec. simpl in Hrec.
    destruct (is_zero (uid_ios usage)) eqn:Hz; [done|].
    injection Hrec as <-. split; [done|]. simpl.
    intros c t [_ Ht]%map_lookup_filter_Some. done.
Qed.

Lemma flush_elem curr_ts st kb :
  kb ∈ uid_monitor.records (uid_monitor.add_records_locked curr_ts st) →
  kb ∈ uid_monitor.records st ∨
  (uid_monitor.new_entries (uid_monitor.curr_io_stats st) ≠ [] ∧
   kb = (curr_ts, mk_uid_records (uid_monitor.start_ts st)
                    (uid_monitor.new_entries (uid_monitor.curr_io_stats st)))).
Proof.
  destruct (flush_shape curr_ts st) as [n ->].
  destruct (uid_monitor.new_entries _) as [|e es] eqn:Hc.
  - intros Hin. left. by apply (subseteq_drop n).
  - intros [->|Hin]%elem_of_assign; [by right|]. left. by apply (subseteq_drop n).
Qed.

Lemma flush_store_wf curr_ts st :
  store_wf (uid_monitor.records st) →
  store_wf (uid_monitor.records (uid_monitor.add_records_locked curr_ts st)).
Proof.
  unfold store_wf. rewrite !Forall_forall. intros Hwf kb Hkb.
  destruct (flush_elem _ _ _ Hkb) as [Hold|[Hne ->]]; [by apply Hwf|].
  destruct (candidate_wf (uid_monitor.curr_io_stats st)) as [Hnd Hrec].
  by split_and!.
Qed.

Lemma step_store_wf st c :
  store_wf (uid_monitor.records st) → store_wf (uid_monitor.records (step st c)).
Proof.
  intros Hwf.
  assert (∀ r now, store_wf (uid_monitor.records (uid_monitor.report r now st)))
    as Hreport.
  { intros r now. apply flush_store_wf. by rewrite update_records. }
  destruct c as [r now|stat r|hours threshold [|] r now]; simpl;
    [apply Hreport|by rewrite set_charger_state_records|apply Hreport|done].
Qed.

(** X15. Whatever calls are made, the store never holds an empty bucket,
    nor a bucket with two records of one name, nor a record without
    uid-level usage, nor a record that lists a task without usage; and what
    [dump] returns is of that kind too. *)
Theorem X15_store_holds_only_usage (calls : list call) (st : uid_monitor.state) :
  store_wf (uid_monitor.records st) →
  store_wf (uid_monitor.records (run st calls)) ∧
  (store.ordered (uid_monitor.records (run st calls)) →
   ∀ hours threshold,
     store_wf (uid_monitor.dump_locked hours threshold (run st calls))).
Proof.
  intros Hwf.
  assert (store_wf (uid_monitor.records (run st calls))) as Hrun.
  { revert st Hwf. induction calls as [|c calls IH]; intros st Hwf; [done|].
    apply (IH (step st c)). by apply step_store_wf. }
  split; [done|].
  intros Hord hours threshold. unfold store_wf in *.
  rewrite Forall_forall in Hrun. apply Forall_forall. intros [k b] Hin.
  apply dump_locked_elem in Hin as (stored & Hstored & _ & Hne & _ & Hf); [|done].
  destruct (Hrun _ Hstored) as (_ & Hnd & Hrec). simpl in *.
  split_and!; [done| |].
  - rewrite Hf. eapply sublist_NoDup; [exact Hnd|].
    apply fmap_sublist, sublist_filter.
  - rewrite Hf. apply Forall_forall. intros rec [_ Hin]%list_elem_of_filter.
    rewrite Forall_forall in Hrec. by apply Hrec.
Qed.

(** ** Callers on several threads: progress *)

Lemma holder_exists (callers : list (list threads.instr)) :
  (0 < threads.holders callers)%nat →
  ∃ (t : nat) i rest, callers !! t = Some (i :: rest) ∧ i ≠ threads.sem_wait.
Proof.
  induction callers as [|code callers IH]; simpl; [lia|].
  destruct (threads.inside code) eqn:Hin.
  - intros _. exists 0%nat. destruct code as [|i rest]; [done|].
    exists i, rest. split; [done|]. by intros ->.
  - intros Hpos. destruct IH as (t & i & rest & Ht & Hi); [lia|].
    by exists (S t), i, rest.
Qed.

Lemma holders_finished (callers : list (list threads.instr)) :
  Forall (λ code, code = []) callers → threads.holders callers = 0%nat.
Proof. induction 1 as [|code callers -> _ IH]; simpl; [done|exact IH]. Qed.

Lemma unfinished_exists (callers : list (list threads.instr)) :
  Forall (λ code, code = []) callers ∨
  ∃ (t : nat) i rest, callers !! t = Some (i :: rest).
Proof.
  induction callers as [|code callers [IH|(t & i & rest & Ht)]].
  - by left.
  - destruct code as [|i rest]; [left; by constructor|].
    right. by exists 0%nat, i, rest.
  - right. by exists (S t), i, rest.
Qed.

Lemma next_runs t m i rest :
  threads.pool m !! t = Some (i :: rest) →
  (i = threads.sem_wait → 0 < threads.um_lock m) →
  is_Some (threads.next t m).
Proof.
  intros Hlook Hfree. unfold threads.next. rewrite Hlook.
  destruct i; try by eexists.
  rewrite (proj2 (Z.ltb_lt _ _) (Hfree eq_refl)). by eexists.
Qed.

(** X16. The callers of [report], [dump] and [set_charger_state] never
    block one another for good: in every state that a schedule reaches,
    either every caller has returned, and then the lock is free, or some
    caller can run its next step. *)
Theorem X16_no_deadlock
    (st : uid_monitor.state) (callers : list (list threads.instr))
    (schedule : list nat) (m : threads.machine) :
  Forall (λ code, threads.well_locked false code = true) callers →
  threads.exec schedule (threads.boot st callers) = Some m →
  (finished m ∧ threads.um_lock m = 1) ∨
  (¬ finished m ∧ ∃ t, is_Some (threads.next t m)).
Proof.
  intros Hcallers Hexec.
  assert (threads.exclusive m) as (Hall & Hpos & Hsum).
  { eapply exec_exclusive; [|exact Hexec]. by apply boot_exclusive. }
  destruct (unfinished_exists (threads.pool m)) as [Hdone|(t & i & rest & Ht)].
  - left. split; [done|]. rewrite (holders_finished _ Hdone) in Hsum. lia.
  - right. split.
    + intros Hdone. unfold finished in Hdone. rewrite Forall_forall in Hdone.
      by specialize (Hdone _ (list_elem_of_lookup_2 _ _ _ Ht)).
    + destruct (decide (0 < threads.um_lock m)) as [Hfree|Hheld].
      * exists t. by eapply next_runs.
      * destruct (holder_exists (threads.pool m)) as (t' & i' & rest' & Ht' & Hi');
          [lia|].
        exists t'. by eapply next_runs.
Qed.

(** ** The first sample of a uid *)

Lemma clamp_delta_zero c : 0 ≤ c → c < 2 ^ 63 → clamp (delta c 0) = c.
Proof. intros H0 Hc. rewrite clamp_delta_up by lia. lia. Qed.

(** X17. [init] takes whatever its read yields as the last snapshot, the
    empty snapshot if the read fails, and leaves the accumulator and the
    store alone.  A uid that the last snapshot does not hold is then charged
    its whole cumulative counters by the next delta step, each counter below
    2^63 being added as it is to the cell of its direction and priority. *)
Theorem X17_new_uid_charged_cumulative_counters
    (stat : charger_stat_t) (r0 : reading) (now0 : Z) (st : uid_monitor.state)
    (u : uid_info) :
  let st0 := uid_monitor.init stat r0 now0 st in
  uid_monitor.last_uid_io_stats st0 =
    uid_monitor.stats (uid_monitor.get_uid_io_stats_locked r0 st) ∧
  uid_monitor.curr_io_stats st0 = uid_monitor.curr_io_stats st ∧
  uid_monitor.records st0 = uid_monitor.records st ∧
  (file r0 = None → uid_monitor.last_uid_io_stats st0 = ∅) ∧
  (uid_monitor.last_uid_io_stats st0 !! uid u = None →
   ∃ usage,
     account_uid stat (uid_monitor.last_uid_io_stats st0)
       (uid_monitor.curr_io_stats st0) u !! name u = Some usage ∧
     ∀ (i : io_type_t) (j : uid_stat_t),
       0 ≤ counter i (at2 (io u) j) → counter i (at2 (io u) j) < 2 ^ 63 →
       cell (uid_ios usage) i j stat =
         wrap64 (cell (uid_ios (default uid_io_usage_zero
                                  (uid_monitor.curr_io_stats st !! name u))) i j stat +
                 counter i (at2 (io u) j))).
Proof.
  intros st0. split_and!; try done.
  - intros Hfile. simpl. by apply failed_read_empty.
  - intros Hnew. eexists. split; [apply account_uid_lookup|].
    intros i j H0 Hc. subst st0. simpl in *.
    rewrite cell_add_deltas, decide_True by done.
    rewrite Hnew. simpl. unfold clamped_delta.
    replace (counter i (at2 (io_stats_zero, io_stats_zero) j)) with 0
      by (by destruct i, j).
    by rewrite clamp_delta_zero.
Qed.

(** ** The retention window, exactly *)

(** X18. A report whose candidate bucket is empty keeps of the store
    exactly the buckets that are not older than 5 days: at a timestamp above
    432000 the buckets with a key of at least the timestamp less 432000, in
    their order, and at a timestamp of at most 432000 all of them. *)
Theorem X18_report_keeps_window
    (r : reading) (now : Z) (st : uid_monitor.state) :
  store.ordered (uid_monitor.records st) →
  uid_monitor.new_entries
    (uid_monitor.curr_io_stats (uid_monitor.update_curr_io_stats_locked r st)) = [] →
  uid_monitor.records (uid_monitor.report r now st) =
    if 432000 <? now
    then filter (λ kb, now - 432000 ≤ kb.1) (uid_monitor.records st)
    else uid_monitor.records st.
Proof.
  intros Hord Hnone. unfold uid_monitor.report, uid_monitor.add_records_locked.
  simpl. rewrite Hnone, update_records. unfold uid_monitor.prune, DAY_TO_SEC.
  change (5 * 86400) with 432000.
  destruct (432000 <? now); [|done]. by apply lower_bound_filter.
Qed.

(** * The further properties at work *)

Lemma idle_only_zero n usage :
  uid_monitor.curr_io_stats sample_more.idle_only !! n = Some usage →
  is_zero (uid_ios usage) = true.
Proof.
  unfold sample_more.idle_only. simpl.
  intros [_ <-]%lookup_singleton_Some. reflexivity.
Qed.

Lemma stocked_ordered : store.ordered (uid_monitor.records sample.stocked).
Proof. repeat constructor. Qed.

(** X3 on [sample_more.idle_only]: the flush at time 450600 stores
    nothing. *)
Lemma X3_idle_only_flush :
  uid_monitor.records (uid_monitor.add_records_locked 450600 sample_more.idle_only) =
    uid_monitor.prune 450600 (uid_monitor.records sample_more.idle_only).
Proof.
  rewrite (X3_flush_of_zero_usage_stores_nothing 450600 sample_more.idle_only
             idle_only_zero).
  reflexivity.
Defined.

Lemma booted_same_snapshot :
  uid_monitor.stats (uid_monitor.get_uid_io_stats_locked (sample.grown 100) sample.booted) =
    uid_monitor.last_uid_io_stats sample.booted.
Proof. vm_compute. reflexivity. Qed.

Lemma booted_last :
  uid_monitor.last_uid_io_stats sample.booted =
    {[ 1000 := {| uid := 1000; name := "1000";
                  io := (sample.counters 100 0, sample.counters 0 0);
                  tasks := ∅ |} ]}.
Proof. vm_compute. reflexivity. Qed.

Lemma booted_accumulator : uid_monitor.curr_io_stats sample.booted = ∅.
Proof. reflexivity. Qed.

Lemma booted_records : uid_monitor.records sample.booted = [].
Proof. reflexivity. Qed.

(** X4 on [sample.booted] and a reading with the counters of its last
    snapshot: the report stores nothing. *)
Lemma X4_report_of_same_counters :
  uid_monitor.records (uid_monitor.report (sample.grown 100) 20 sample.booted) =
    uid_monitor.prune 20 (uid_monitor.records sample.booted) ∧
  uid_monitor.start_ts (uid_monitor.report (sample.grown 100) 20 sample.booted) = 20.
Proof.
  destruct (X4_report_without_new_io_stores_nothing (sample.grown 100) 20 sample.booted)
    as (Hrecords & _ & Hstart).
  - intros key u. rewrite booted_same_snapshot, booted_last.
    intros [<- <-]%lookup_singleton_Some. simpl.
    rewrite lookup_singleton_eq. done.
  - intros n usage. rewrite booted_accumulator, lookup_empty. done.
  - split; [exact Hrecords|exact Hstart].
Defined.

(** X5 on the store of [sample.stocked], 3 records, and a bucket of one:
    nothing is evicted. *)
Lemma X5_small_bucket_evicts_nothing :
  ∃ n : nat,
    uid_monitor.insert_records 460000 sample_more.small_bucket
      (uid_monitor.records sample.stocked) =
    store.assign 460000 sample_more.small_bucket
      (drop n (uid_monitor.records sample.stocked)) ∧
    n = 0%nat.
Proof.
  destruct (X5_eviction_is_least 460000 sample_more.small_bucket
              (uid_monitor.records sample.stocked))
    as (n & Hn & _ & _ & Hzero).
  - evaluate.
  - evaluate.
  - exists n. split; [exact Hn|]. apply Hzero. evaluate.
Defined.

Lemma unplugged_candidate :
  uid_monitor.new_entries (uid_monitor.curr_io_stats sample.unplugged) =
    [sample.one_record "1000" 50].
Proof. vm_compute. reflexivity. Qed.

Lemma unplugged_records : uid_monitor.records sample.unplugged = [].
Proof. vm_compute. reflexivity. Qed.

(** X6 on [sample.unplugged]: the bucket under 20 is the candidate. *)
Lemma X6_bucket_of_unplugged :
  (20, mk_uid_records (uid_monitor.start_ts sample.unplugged)
         (uid_monitor.new_entries (uid_monitor.curr_io_stats sample.unplugged)))
    ∈ uid_monitor.records (uid_monitor.add_records_locked 20 sample.unplugged).
Proof.
  destruct (X6_bucket_of_a_flush 20 sample.unplugged) as [Hbucket _].
  - rewrite unplugged_records. constructor.
  - rewrite unplugged_candidate. discriminate.
  - by apply Hbucket.
Defined.

Lemma reported_candidate :
  uid_monitor.new_entries
    (uid_monitor.curr_io_stats
       (uid_monitor.update_curr_io_stats_locked (sample.grown 175) sample.reported)) =
    [sample.one_record "1000" 25].
Proof. vm_compute. reflexivity. Qed.

(** X7 on two reports from [sample.booted], at 20 and at 30: the bucket
    under 30 starts at 20. *)
Lemma X7_second_bucket_starts_at_first :
  store.ordered (uid_monitor.records sample.booted) ∧
  ∀ b, (30, b) ∈ uid_monitor.records
                   (uid_monitor.report (sample.grown 175) 30
                      (uid_monitor.report (sample.grown 150) 20 sample.booted)) →
       start_ts b = 20.
Proof.
  assert (store.ordered (uid_monitor.records sample.booted)) as Hord.
  { rewrite booted_records. constructor. }
  split; [exact Hord|].
  apply (X7_buckets_tile_time (sample.grown 150) (sample.grown 175) 20 30
           sample.booted Hord).
  fold sample.reported. rewrite reported_candidate. discriminate.
Defined.

Lemma reported_ordered : store.ordered (uid_monitor.records sample.reported).
Proof. rewrite reported_records. repeat constructor. Qed.

(** X8 on [sample.reported]: the bucket under 20 comes back at threshold
    10. *)
Lemma X8_bucket_of_reported :
  (20, mk_uid_records 10 [sample.one_record "1000" 50])
    ∈ uid_monitor.dump_locked hours_zero 10 sample.reported.
Proof.
  apply (X8_dump_membership hours_zero 10 sample.reported 20 _ reported_ordered).
  exists (mk_uid_records 10 [sample.one_record "1000" 50]).
  rewrite reported_records. split_and!; [left|done|done|done|done].
Defined.

(** X9 on [sample.reported]. *)
Lemma X9_dump_of_reported_ordered :
  store.ordered (uid_monitor.dump_locked hours_zero 10 sample.reported).
Proof.
  destruct (X9_dump_result_ordered hours_zero 10 sample.reported reported_ordered)
    as [Hord _].
  exact Hord.
Defined.

(** X10 on [sample.reported]: a threshold of 2^64 - 1 returns nothing. *)
Lemma X10_highest_threshold :
  uid_monitor.dump_locked hours_zero (2 ^ 64 - 1) sample.reported = [].
Proof.
  destruct (X10_dump_threshold_monotone hours_zero 0 (2 ^ 64 - 1) sample.reported
              reported_ordered) as [_ Hnone].
  apply Hnone. lia.
Defined.

Lemma booted_carriers :
  filter (λ u, name u = "1000"%string)
    (map_to_list (uid_monitor.stats
       (uid_monitor.get_uid_io_stats_locked (sample.grown 150) sample.booted))).*2 ≠ [].
Proof. vm_compute. discriminate. Qed.

(** X11 on [sample.booted], unplugged while uid 1000 has read 50 bytes more:
    the 50 bytes are booked on-charger, the state that is left, and nothing
    off-charger. *)
Lemma X11_unplugging_books_on_charger :
  let after :=
    default uid_io_usage_zero
      (uid_monitor.curr_io_stats sample.unplugged !! "1000"%string) in
  uid_monitor.charger_stat sample.unplugged = CHARGER_OFF ∧
  cell (uid_ios after) READ FOREGROUND CHARGER_ON = 50 ∧
  cell (uid_ios after) READ FOREGROUND CHARGER_OFF = 0.
Proof.
  destruct (X11_charger_change_books_under_old_state CHARGER_OFF (sample.grown 150)
              sample.booted) as (_ & Hchange & _).
  destruct Hchange as (Hstat & _ & _ & _ & Hcells); [discriminate|].
  destruct (Hcells "1000"%string) as (_ & Hbook & _ & Hnew & _).
  split; [exact Hstat|]. split.
  - refine (eq_trans (Hbook booted_carriers READ FOREGROUND) _).
    vm_compute. reflexivity.
  - refine (eq_trans (Hnew READ FOREGROUND) _).
    vm_compute. reflexivity.
Defined.

(** X13 on [sample_more.unanswered] from [sample.cold]: uid 1000 keeps the
    name "1000" and the flag is cleared. *)
Lemma X13_unanswered_uid :
  uid_monitor.refresh_after
    (uid_monitor.get_uid_io_stats_locked sample_more.unanswered sample.cold) = false.
Proof.
  destruct (X13_empty_answer_clears_flag sample_more.unanswered sample.cold
              [sample.uid_line 1000 100 0 0 0] [EmptyString])
    as (_ & Hflag & _).
  - reflexivity.
  - reflexivity.
  - repeat constructor.
  - reflexivity.
  - exact Hflag.
Defined.

(** X14 on [sample_more.repeated]: uid 1000 has the counters of its second
    row and the task of pid 6 only. *)
Lemma X14_second_row_of_a_uid :
  ∃ info,
    uid_monitor.stats
      (uid_monitor.get_uid_io_stats_locked sample_more.repeated sample.cold) !! 1000
      = Some info ∧
    io info = (sample.counters 2 0, sample.counters 0 0) ∧
    tasks info = attached ∅ [sample.task_line "sh" 6 3 0].
Proof.
  destruct (X14_last_uid_row_decides sample_more.repeated sample.cold
              [sample.uid_line 1000 1 0 0 0; sample.task_line "a" 5 1 0]
              [sample.task_line "sh" 6 3 0] 1000
              (sample.counters 2 0, sample.counters 0 0))
    as (info & Hinfo & _ & Hio & Htasks).
  - reflexivity.
  - repeat constructor.
  - exists info. split; [exact Hinfo|]. split; [exact Hio|exact Htasks].
Defined.

(** X15 on [sample.history] from [sample.booted]. *)
Lemma X15_history_store :
  store_wf (uid_monitor.records (run sample.booted sample.history)).
Proof.
  destruct (X15_store_holds_only_usage sample.history sample.booted) as [Hwf _].
  - rewrite booted_records. constructor.
  - exact Hwf.
Defined.

(** X16 on [sample_more.two_callers], the second caller holding the lock:
    someone can run. *)
Lemma X16_two_callers_progress :
  match threads.exec [0; 0; 0; 0; 1; 1]%nat
          (threads.boot sample.booted sample_more.two_callers) with
  | Some m =>
      (finished m ∧ threads.um_lock m = 1) ∨
      (¬ finished m ∧ ∃ t, is_Some (threads.next t m))
  | None => True
  end.
Proof.
  destruct (threads.exec _ _) as [m|] eqn:Hexec; [|exact I].
  apply (X16_no_deadlock sample.booted sample_more.two_callers
           [0; 0; 0; 0; 1; 1]%nat m); [|exact Hexec].
  by repeat constructor.
Defined.

(** X18 on [sample_more.idle_only] at time 500000: of the buckets under
    100 and 450000 the second is kept. *)
Lemma X18_window_at_500000 :
  uid_monitor.records
    (uid_monitor.report sample.read_failed 500000 sample_more.idle_only) =
  (if 432000 <? 500000
   then filter (λ kb, 500000 - 432000 ≤ kb.1) (uid_monitor.records sample_more.idle_only)
   else uid_monitor.records sample_more.idle_only).
Proof.
  apply (X18_report_keeps_window sample.read_failed 500000 sample_more.idle_only).
  - exact stocked_ordered.
  - rewrite update_empty by reflexivity.
    apply new_entries_zero. exact idle_only_zero.
Defined.
